(** * llm-cost: pricing resolution, normalisation, cost and ranking

    A shallow embedding of [bin/llm-cost.mjs] and the proofs of the
    properties its specification states.

    JavaScript numbers are IEEE-754 binary64 values: they are modelled by
    Rocq's primitive [float], whose operations are specified by
    [SpecFloat] (round to nearest, ties to even).  Strings are [string]s,
    one character per code unit.  Exceptions, the cache file, the clock and
    the network are explicit: see [LlmCost.getModels]. *)

From Stdlib Require Import ZArith NArith Lia List Bool String Ascii.
From Stdlib Require Import Sorted Permutation OrdersEx OrdersFacts.
From Stdlib Require Import Floats.
Import ListNotations.

#[local] Set Warnings "-inexact-float,-register-all".

(** * IEEE-754 binary64 facts

    What the proofs below need about floating-point arithmetic: rounding
    never produces NaN out of a non-negative mantissa, the sign of a
    difference agrees with the comparison of its operands, and the non-NaN
    values are totally ordered. *)
Module IEEE.

#[local] Open Scope Z_scope.

(** The three shapes a rounded non-negative mantissa can take: the sign is
    the one passed in, and NaN is never produced. *)
Definition signed_as (s : bool) (x : spec_float) : Prop :=
  x = S754_zero s \/ (exists m e, x = S754_finite s m e) \/ x = S754_infinity s.

(** The integer a finite float stands for once both operands are aligned on
    the exponent [ez]. *)
Definition aligned (s : bool) (m : positive) (e ez : Z) : Z :=
  cond_Zopp s (Zpos m * 2 ^ (e - ez)).

(** Spec-level classes: a zero of either sign, or a positive finite or
    infinite value. *)
Definition sf_nonneg (x : spec_float) : bool :=
  match x with
  | S754_zero _ | S754_finite false _ _ | S754_infinity false => true
  | _ => false
  end.

Definition sf_finite (x : spec_float) : bool :=
  match x with
  | S754_zero _ | S754_finite _ _ _ => true
  | _ => false
  end.

(** Adding a zero does not change a non-negative value, up to the sign of
    a zero result. *)
Definition sf_same (x y : spec_float) : Prop :=
  x = y \/ (exists s t, x = S754_zero s /\ y = S754_zero t).

(** An order-preserving integer key for the non-NaN values: finite values
    are scaled to the smallest exponent, infinities sit beyond them. *)
Definition sf_key (x : spec_float) : Z :=
  match x with
  | S754_zero _ => 0
  | S754_finite s m e => cond_Zopp s (Zpos m * 2 ^ (e - emin))
  | S754_infinity s => cond_Zopp s (2 ^ 2200)
  | S754_nan => 0
  end.

Definition is_nan (x : float) : bool := negb (x =? x)%float.

Definition fkey (x : float) : Z := sf_key (Prim2SF x).

(** Non-negative and finite: what a price or a token count is. *)
Definition nonneg_finite (x : float) : bool :=
  ((0 <=? x) && (x <? infinity))%float.

Lemma iter_pos_inv {A : Type} (P : A -> Prop) (f : A -> A) :
  (forall a, P a -> P (f a)) -> forall n a, P a -> P (iter_pos f n a).
Proof.
  intros Hf n; induction n as [n IH|n IH|]; intros a Ha; cbn; auto.
Qed.

Lemma shr_1_m (mrs : shr_record) :
  0 <= shr_m mrs -> shr_m (shr_1 mrs) = Z.div2 (shr_m mrs).
Proof.
  destruct mrs as [m r s]; cbn.
  destruct m as [|[p|p|]|p]; cbn; intros H; try reflexivity; lia.
Qed.

Lemma shr_1_nonneg (mrs : shr_record) :
  0 <= shr_m mrs -> 0 <= shr_m (shr_1 mrs).
Proof.
  intros H. rewrite shr_1_m, Z.div2_div by assumption. apply Z.div_pos; lia.
Qed.

Lemma iter_shr_1_nonneg (n : positive) (mrs : shr_record) :
  0 <= shr_m mrs -> 0 <= shr_m (iter_pos shr_1 n mrs).
Proof.
  apply (iter_pos_inv (fun r => 0 <= shr_m r)). exact shr_1_nonneg.
Qed.

Lemma iter_shr_1_m (n : positive) : forall mrs,
  0 <= shr_m mrs -> shr_m (iter_pos shr_1 n mrs) = Z.shiftr (shr_m mrs) (Zpos n).
Proof.
  induction n as [n IH|n IH|]; intros mrs H; cbn [iter_pos].
  - rewrite IH by (apply iter_shr_1_nonneg, shr_1_nonneg, H).
    rewrite IH by (apply shr_1_nonneg, H).
    rewrite shr_1_m by assumption.
    rewrite Z.div2_spec, !Z.shiftr_shiftr by lia. f_equal. lia.
  - rewrite IH by (apply iter_shr_1_nonneg, H).
    rewrite IH by assumption. rewrite Z.shiftr_shiftr by lia. f_equal. lia.
  - rewrite shr_1_m by assumption. apply Z.div2_spec.
Qed.

Lemma Zdigits2_log2 (m : Z) : 0 < m -> Zdigits2 m = Z.log2 m + 1.
Proof.
  destruct m as [|p|p]; try lia. intros _. cbn [Zdigits2].
  induction p as [p IH|p IH|]; cbn [digits2_pos]; try reflexivity.
  - rewrite Pos2Z.inj_succ, IH. destruct p; cbn; lia.
  - rewrite Pos2Z.inj_succ, IH. destruct p; cbn; lia.
Qed.

Lemma shr_record_of_loc_m (m : Z) (l : location) :
  shr_m (shr_record_of_loc m l) = m.
Proof. destruct l as [|[]]; reflexivity. Qed.

Lemma Zdigits2_nonneg (m : Z) : 0 <= Zdigits2 m.
Proof. destruct m; cbn; lia. Qed.

Lemma Zdigits2_shiftr (m n : Z) :
  0 < m -> 0 <= n -> 0 < Z.shiftr m n -> Zdigits2 (Z.shiftr m n) = Zdigits2 m - n.
Proof.
  intros Hm Hn Hs. rewrite !Zdigits2_log2 by assumption.
  rewrite Z.log2_shiftr by assumption.
  assert (n <= Z.log2 m); [|lia].
  destruct (Z.le_gt_cases n (Z.log2 m)) as [|Hlt]; [assumption|exfalso].
  rewrite Z.shiftr_div_pow2 in Hs by assumption.
  rewrite Z.div_small in Hs; [lia|]. split; [lia|].
  apply Z.log2_lt_pow2; assumption.
Qed.

Lemma Zdigits2_succ (m : Z) : 0 <= m -> Zdigits2 (m + 1) <= Zdigits2 m + 1.
Proof.
  intros H. destruct (Z.eq_dec m 0) as [->|Hne]; [cbn; lia|].
  rewrite !Zdigits2_log2 by lia.
  pose proof (Z.log2_succ_le m). unfold Z.succ in *. lia.
Qed.

Lemma round_nearest_even_bounds (m : Z) (l : location) :
  m <= round_nearest_even m l <= m + 1.
Proof. destruct l as [|[]]; cbn; try destruct (Z.even m); lia. Qed.

(** What [shr_fexp] does to a non-negative mantissa, in terms of the shift
    it decides on. *)
Lemma shr_fexp_inv (m e : Z) (l : location) :
  0 <= m ->
  let n := fexp prec emax (Zdigits2 m + e) - e in
  let r := shr_fexp prec emax m e l in
  (n <= 0 -> shr_m (fst r) = m /\ snd r = e) /\
  (0 < n -> shr_m (fst r) = Z.shiftr m n /\ snd r = e + n).
Proof.
  intros Hm n r. unfold r, shr_fexp. fold n.
  destruct n as [|p|p] eqn:En; cbn [shr fst snd].
  - split; [intros _|lia]. split; [apply shr_record_of_loc_m|reflexivity].
  - split; [lia|intros _]. split; [|reflexivity].
    rewrite iter_shr_1_m; rewrite shr_record_of_loc_m; auto.
  - split; [intros _|lia]. split; [apply shr_record_of_loc_m|reflexivity].
Qed.

Lemma shr_fexp_nonneg (m e : Z) (l : location) :
  0 <= m -> 0 <= shr_m (fst (shr_fexp prec emax m e l)).
Proof.
  intros Hm. destruct (shr_fexp_inv m e l Hm) as [H1 H2].
  destruct (Z.le_gt_cases (fexp prec emax (Zdigits2 m + e) - e) 0) as [Hn|Hn].
  - destruct (H1 Hn) as [-> _]. assumption.
  - destruct (H2 Hn) as [-> _]. apply Z.shiftr_nonneg. assumption.
Qed.

Lemma shr_fexp_pos (m e : Z) (l : location) :
  0 < m -> emin <= e ->
  0 < shr_m (fst (shr_fexp prec emax m e l)) /\ emin <= snd (shr_fexp prec emax m e l).
Proof.
  intros Hm He. destruct (shr_fexp_inv m e l (Z.lt_le_incl _ _ Hm)) as [H1 H2].
  destruct (Z.le_gt_cases (fexp prec emax (Zdigits2 m + e) - e) 0) as [Hn|Hn].
  - destruct (H1 Hn) as [-> ->]. split; assumption.
  - destruct (H2 Hn) as [-> ->]. split; [|lia].
    assert (Hd : fexp prec emax (Zdigits2 m + e) - e = Zdigits2 m - prec).
    { unfold fexp, SpecFloat.emin, prec, emax in *. lia. }
    rewrite Hd in *. rewrite Zdigits2_log2 in * by assumption.
    assert (Hp : 0 <= Z.log2 m + 1 - prec) by lia.
    rewrite Z.shiftr_div_pow2 by assumption.
    apply Z.div_str_pos. split; [apply Z.pow_pos_nonneg; lia|].
    apply Z.le_trans with (2 ^ Z.log2 m).
    + apply Z.pow_le_mono_r; unfold prec in *; lia.
    + apply Z.log2_spec. assumption.
Qed.

Lemma shr_fexp_digits (m e : Z) (l : location) :
  0 <= m ->
  let r := shr_fexp prec emax m e l in
  Zdigits2 (shr_m (fst r)) + snd r <= Z.max (Zdigits2 m + e) (fexp prec emax (Zdigits2 m + e)) /\
  snd r = Z.max e (fexp prec emax (Zdigits2 m + e)).
Proof.
  intros Hm r. destruct (shr_fexp_inv m e l Hm) as [H1 H2]. fold r in H1, H2.
  destruct (Z.le_gt_cases (fexp prec emax (Zdigits2 m + e) - e) 0) as [Hn|Hn].
  - destruct (H1 Hn) as [-> ->]. lia.
  - destruct (H2 Hn) as [-> ->]. split; [|lia].
    destruct (Z.eq_dec m 0) as [->|Hne].
    + rewrite Z.shiftr_0_l. cbn [Zdigits2]. lia.
    + pose proof (Z.shiftr_nonneg m (fexp prec emax (Zdigits2 m + e) - e)) as Hs.
      destruct (Z.eq_dec (Z.shiftr m (fexp prec emax (Zdigits2 m + e) - e)) 0) as [->|Hz].
      * cbn [Zdigits2]. lia.
      * rewrite Zdigits2_shiftr by lia. lia.
Qed.

Lemma binary_round_aux_inv (sx : bool) (mx ex : Z) (lx : location) :
  0 <= mx ->
  exists m e,
    0 <= m /\
    binary_round_aux prec emax sx mx ex lx =
      match m with
      | Z0 => S754_zero sx
      | Zpos p => if e <=? emax - prec then S754_finite sx p e else S754_infinity sx
      | Zneg _ => S754_nan
      end /\
    (0 < mx -> emin <= ex -> 0 < m) /\
    e <= Z.max (Z.max ex (fexp prec emax (Zdigits2 mx + ex)))
               (fexp prec emax (Z.max (Zdigits2 mx + ex) (fexp prec emax (Zdigits2 mx + ex)) + 1)).
Proof.
  intros Hm. unfold binary_round_aux.
  destruct (shr_fexp prec emax mx ex lx) as [mrs' e'] eqn:E1.
  set (m1 := round_nearest_even (shr_m mrs') (loc_of_shr_record mrs')).
  destruct (shr_fexp prec emax m1 e' loc_Exact) as [mrs'' e''] eqn:E2.
  pose proof (shr_fexp_nonneg mx ex lx Hm) as N1. rewrite E1 in N1; cbn [fst] in N1.
  pose proof (round_nearest_even_bounds (shr_m mrs') (loc_of_shr_record mrs')) as B. fold m1 in B.
  assert (Hm1 : 0 <= m1) by lia.
  pose proof (shr_fexp_nonneg m1 e' loc_Exact Hm1) as N2. rewrite E2 in N2; cbn [fst] in N2.
  exists (shr_m mrs''), e''. split; [assumption|]. split; [reflexivity|]. split.
  - intros Hpos He.
    destruct (shr_fexp_pos mx ex lx Hpos He) as [P1 Q1]. rewrite E1 in P1, Q1; cbn [fst snd] in P1, Q1.
    assert (Hm1' : 0 < m1) by lia.
    destruct (shr_fexp_pos m1 e' loc_Exact Hm1' Q1) as [P2 _]. rewrite E2 in P2. exact P2.
  - destruct (shr_fexp_digits mx ex lx Hm) as [D1 X1]. rewrite E1 in D1, X1; cbn [fst snd] in D1, X1.
    destruct (shr_fexp_digits m1 e' loc_Exact Hm1) as [_ X2]. rewrite E2 in X2; cbn [fst snd] in X2.
    assert (Hd : Zdigits2 m1 <= Zdigits2 (shr_m mrs') + 1).
    { destruct (Z.eq_dec m1 (shr_m mrs')) as [->|Hne]; [lia|].
      replace m1 with (shr_m mrs' + 1) by lia. apply Zdigits2_succ; assumption. }
    rewrite X2, X1. unfold fexp in *. lia.
Qed.

Lemma binary_round_aux_signed (sx : bool) (mx ex : Z) (lx : location) :
  0 <= mx -> signed_as sx (binary_round_aux prec emax sx mx ex lx).
Proof.
  intros Hm. destruct (binary_round_aux_inv sx mx ex lx Hm) as (m & e & Hm' & -> & _).
  destruct m as [|p|p]; [left; reflexivity| |lia].
  destruct (e <=? emax - prec); [right; left; eauto|right; right; reflexivity].
Qed.

Lemma binary_round_aux_nonzero (sx : bool) (mx ex : Z) (lx : location) :
  0 < mx -> emin <= ex ->
  (exists m e, binary_round_aux prec emax sx mx ex lx = S754_finite sx m e) \/
  binary_round_aux prec emax sx mx ex lx = S754_infinity sx.
Proof.
  intros Hm He.
  destruct (binary_round_aux_inv sx mx ex lx (Z.lt_le_incl _ _ Hm)) as (m & e & _ & -> & Hp & _).
  specialize (Hp Hm He). destruct m as [|p|p]; try lia.
  destruct (e <=? emax - prec); [left; eauto|right; reflexivity].
Qed.

Lemma binary_round_aux_finite (sx : bool) (mx ex : Z) (lx : location) :
  0 <= mx -> ex <= emax - prec -> Zdigits2 mx + ex <= emax - 1 ->
  binary_round_aux prec emax sx mx ex lx = S754_zero sx \/
  exists m e, binary_round_aux prec emax sx mx ex lx = S754_finite sx m e.
Proof.
  intros Hm He Hd.
  destruct (binary_round_aux_inv sx mx ex lx Hm) as (m & e & Hm' & -> & _ & Hb).
  destruct m as [|p|p]; [left; reflexivity| |lia].
  right. replace (e <=? emax - prec) with true; [eauto|].
  symmetry. apply Z.leb_le. unfold fexp, SpecFloat.emin, prec, emax in *. lia.
Qed.

Lemma bounded_inv (m : positive) (e : Z) :
  bounded prec emax m e = true ->
  emin <= e <= emax - prec /\ Zdigits2 (Zpos m) <= prec /\
  (emin < e -> Zdigits2 (Zpos m) = prec).
Proof.
  unfold bounded, canonical_mantissa. intros H.
  apply andb_true_iff in H. destruct H as [H1 H2].
  apply Z.eqb_eq in H1. apply Z.leb_le in H2. cbn [Zdigits2].
  unfold fexp, SpecFloat.emin, prec, emax in *. lia.
Qed.

Lemma shl_align_value (mx : positive) (ex ez : Z) :
  ez <= ex -> Zpos (fst (shl_align mx ex ez)) = Zpos mx * 2 ^ (ex - ez).
Proof.
  intros H. unfold shl_align.
  destruct (ez - ex) as [|d|d] eqn:E; cbn [fst].
  - replace (ex - ez) with 0 by lia. lia.
  - lia.
  - replace (ex - ez) with (Zpos d) by lia.
    change (Pos.iter xO mx d) with (shift_pos d mx).
    rewrite shift_pos_correct, Z.pow_pos_fold. lia.
Qed.

Lemma shl_align_exp (mx : positive) (ex ez : Z) :
  snd (shl_align mx ex ez) = Z.min ex ez.
Proof.
  unfold shl_align. destruct (ez - ex) as [|d|d] eqn:E; cbn [snd]; lia.
Qed.

Lemma binary_round_nonzero (sx : bool) (mx : positive) (ex : Z) :
  emin <= ex ->
  (exists m e, binary_round prec emax sx mx ex = S754_finite sx m e) \/
  binary_round prec emax sx mx ex = S754_infinity sx.
Proof.
  intros He. unfold binary_round.
  pose proof (shl_align_exp mx ex (fexp prec emax (Z.pos (digits2_pos mx) + ex))) as Hs.
  destruct (shl_align mx ex _) as [mz ez]. cbn [snd] in Hs.
  apply binary_round_aux_nonzero; [lia|].
  unfold fexp, SpecFloat.emin in *. lia.
Qed.

Lemma binary_round_signed (sx : bool) (mx : positive) (ex : Z) :
  signed_as sx (binary_round prec emax sx mx ex).
Proof.
  unfold binary_round. destruct (shl_align mx ex _) as [mz ez].
  apply binary_round_aux_signed. lia.
Qed.

Lemma canonical_lt (m1 m2 : positive) (e1 e2 : Z) :
  bounded prec emax m1 e1 = true -> bounded prec emax m2 e2 = true ->
  e1 < e2 -> Zpos m1 < Zpos m2 * 2 ^ (e2 - e1).
Proof.
  intros H1 H2 Hlt.
  destruct (bounded_inv _ _ H1) as (He1 & Hd1 & _).
  destruct (bounded_inv _ _ H2) as (He2 & _ & Hd2).
  specialize (Hd2 ltac:(lia)).
  rewrite Zdigits2_log2 in Hd1, Hd2 by lia.
  assert (A : Zpos m1 < 2 ^ prec).
  { apply Z.log2_lt_pow2; unfold prec in *; lia. }
  assert (B : 2 ^ (prec - 1) <= Zpos m2).
  { replace (prec - 1) with (Z.log2 (Zpos m2)) by lia.
    apply (proj1 (Z.log2_spec (Zpos m2) ltac:(lia))). }
  assert (C : 2 ^ 1 <= 2 ^ (e2 - e1)) by (apply Z.pow_le_mono_r; lia).
  assert (D : 2 ^ prec = 2 ^ (prec - 1) * 2 ^ 1) by reflexivity.
  assert (0 < 2 ^ (prec - 1)) by (apply Z.pow_pos_nonneg; unfold prec; lia).
  nia.
Qed.

Lemma compare_aligned_pos (m1 m2 : positive) (e1 e2 : Z) :
  bounded prec emax m1 e1 = true -> bounded prec emax m2 e2 = true ->
  (Zpos m1 * 2 ^ (e1 - Z.min e1 e2) ?= Zpos m2 * 2 ^ (e2 - Z.min e1 e2)) =
  match e1 ?= e2 with
  | Lt => Lt
  | Gt => Gt
  | Eq => Pos.compare_cont Eq m1 m2
  end.
Proof.
  intros H1 H2. destruct (Z.compare_spec e1 e2) as [->|Hlt|Hgt].
  - rewrite Z.min_id, Z.sub_diag, !Z.mul_1_r. reflexivity.
  - replace (Z.min e1 e2) with e1 by lia. rewrite Z.sub_diag, Z.mul_1_r.
    apply Z.compare_lt_iff. apply canonical_lt; assumption.
  - replace (Z.min e1 e2) with e2 by lia. rewrite Z.sub_diag, Z.mul_1_r.
    apply Z.compare_gt_iff. apply canonical_lt; assumption.
Qed.

Lemma SFcompare_aligned (s1 s2 : bool) (m1 m2 : positive) (e1 e2 : Z) :
  bounded prec emax m1 e1 = true -> bounded prec emax m2 e2 = true ->
  SFcompare (S754_finite s1 m1 e1) (S754_finite s2 m2 e2) =
  Some (aligned s1 m1 e1 (Z.min e1 e2) ?= aligned s2 m2 e2 (Z.min e1 e2)).
Proof.
  intros H1 H2. pose proof (compare_aligned_pos m1 m2 e1 e2 H1 H2) as C.
  assert (P1 : 0 < Zpos m1 * 2 ^ (e1 - Z.min e1 e2)) by (apply Z.mul_pos_pos; [lia|apply Z.pow_pos_nonneg; lia]).
  assert (P2 : 0 < Zpos m2 * 2 ^ (e2 - Z.min e1 e2)) by (apply Z.mul_pos_pos; [lia|apply Z.pow_pos_nonneg; lia]).
  unfold aligned, SFcompare. destruct s1, s2; cbn [cond_Zopp]; f_equal.
  - rewrite Z.compare_opp, (Z.compare_antisym (Zpos m1 * _)), C.
    destruct (e1 ?= e2); reflexivity.
  - symmetry. apply Z.compare_lt_iff. lia.
  - symmetry. apply Z.compare_gt_iff. lia.
  - rewrite C. reflexivity.
Qed.

Lemma SFltb_aligned (s1 s2 : bool) (m1 m2 : positive) (e1 e2 : Z) :
  bounded prec emax m1 e1 = true -> bounded prec emax m2 e2 = true ->
  SFltb (S754_finite s1 m1 e1) (S754_finite s2 m2 e2) =
  (aligned s1 m1 e1 (Z.min e1 e2) <? aligned s2 m2 e2 (Z.min e1 e2)).
Proof.
  intros H1 H2. unfold SFltb. rewrite SFcompare_aligned by assumption.
  unfold Z.ltb. destruct (_ ?= _); reflexivity.
Qed.

Lemma SFsub_finite_sign (sx sy : bool) (mx my : positive) (ex ey : Z) :
  bounded prec emax mx ex = true -> bounded prec emax my ey = true ->
  let x := S754_finite sx mx ex in
  let y := S754_finite sy my ey in
  SFltb (SF64sub x y) (S754_zero false) = SFltb x y /\
  SFltb (S754_zero false) (SF64sub x y) = SFltb y x.
Proof.
  intros Hx Hy x y. unfold x, y.
  rewrite (SFltb_aligned sx sy), (SFltb_aligned sy sx) by assumption.
  rewrite (Z.min_comm ey ex).
  unfold SF64sub, SFsub. cbv zeta.
  set (ez := Z.min ex ey).
  rewrite !shl_align_value by (unfold ez; lia).
  fold (aligned sx mx ex ez). fold (aligned sy my ey ez).
  destruct (bounded_inv _ _ Hx) as (Bx & _). destruct (bounded_inv _ _ Hy) as (By & _).
  assert (He : emin <= ez) by (unfold ez; lia).
  destruct (aligned sx mx ex ez - aligned sy my ey ez) as [|d|d] eqn:E; cbn [binary_normalize].
  - split; [cbn|cbn]; symmetry; apply Z.ltb_ge; lia.
  - destruct (binary_round_nonzero false d ez He) as [(m & e & ->)| ->]; cbn;
      (split; symmetry; [apply Z.ltb_ge|apply Z.ltb_lt]; lia).
  - destruct (binary_round_nonzero true d ez He) as [(m & e & ->)| ->]; cbn;
      (split; symmetry; [apply Z.ltb_lt|apply Z.ltb_ge]; lia).
Qed.

Lemma SFsub_sign (x y : spec_float) :
  valid_binary x = true -> valid_binary y = true ->
  x <> S754_nan -> y <> S754_nan ->
  SFltb (SF64sub x y) (S754_zero false) = SFltb x y /\
  SFltb (S754_zero false) (SF64sub x y) = SFltb y x.
Proof.
  intros Vx Vy Nx Ny.
  destruct x as [sx|sx| |sx mx ex], y as [sy|sy| |sy my ey]; try congruence;
    try (destruct sx, sy; split; reflexivity).
  apply SFsub_finite_sign; assumption.
Qed.

Lemma signed_false_nonneg (x : spec_float) : signed_as false x -> sf_nonneg x = true.
Proof. intros [->|[(m & e & ->)| ->]]; reflexivity. Qed.

Lemma SFleb_zero_nonneg (x : spec_float) :
  SFleb (S754_zero false) x = sf_nonneg x.
Proof. destruct x as [s|[]| |[] m e]; reflexivity. Qed.

Lemma SFltb_inf_finite (x : spec_float) :
  sf_nonneg x = true -> SFltb x (S754_infinity false) = sf_finite x.
Proof. destruct x as [s|[]| |[] m e]; cbn; congruence. Qed.

Lemma SFmul_nonneg (x y : spec_float) :
  sf_nonneg x = true -> sf_nonneg y = true ->
  sf_finite x = true -> sf_finite y = true ->
  sf_nonneg (SF64mul x y) = true.
Proof.
  destruct x as [sx|[]| |[] mx ex], y as [sy|[]| |[] my ey]; cbn; try congruence; intros _ _ _ _.
  apply signed_false_nonneg. apply binary_round_aux_signed. lia.
Qed.

Lemma SFadd_nonneg (x y : spec_float) :
  sf_nonneg x = true -> sf_nonneg y = true -> sf_nonneg (SF64add x y) = true.
Proof.
  destruct x as [sx|[]| |[] mx ex], y as [sy|[]| |[] my ey]; cbn; try congruence; intros _ _.
  - destruct sx, sy; reflexivity.
  - change (sf_nonneg (binary_normalize prec emax
      (Zpos (fst (shl_align mx ex (Z.min ex ey))) + Zpos (fst (shl_align my ey (Z.min ex ey))))
      (Z.min ex ey) false) = true).
    cbn [Z.add binary_normalize].
    apply signed_false_nonneg, binary_round_signed.
Qed.

Lemma SFadd_zero_r (x : spec_float) (s : bool) :
  sf_nonneg x = true -> sf_same (SF64add x (S754_zero s)) x.
Proof.
  destruct x as [sx|[]| |[] mx ex]; cbn; try congruence; intros _.
  - right. destruct sx, s; eauto.
  - left; reflexivity.
  - left; reflexivity.
Qed.

Lemma SFadd_zero_l (x : spec_float) (s : bool) :
  sf_nonneg x = true -> sf_same (SF64add (S754_zero s) x) x.
Proof.
  destruct x as [sx|[]| |[] mx ex]; cbn; try congruence; intros _.
  - right. destruct sx, s; eauto.
  - left; reflexivity.
  - left; reflexivity.
Qed.

Lemma SFeqb_refl (x : spec_float) : x <> S754_nan -> SFeqb x x = true.
Proof.
  destruct x as [s|[]| |[] m e]; try congruence; intros _; try reflexivity;
    unfold SFeqb, SFcompare; rewrite Z.compare_refl, Pos.compare_cont_refl; reflexivity.
Qed.

Lemma SFadd_same (x x' y y' : spec_float) :
  sf_nonneg x = true -> sf_nonneg y = true ->
  sf_same x' x -> sf_same y' y ->
  SFeqb (SF64add x y) (SF64add x' y') = true.
Proof.
  intros Hx Hy [->|(s & t & -> & ->)] [->|(s' & t' & -> & ->)].
  - apply SFeqb_refl. pose proof (SFadd_nonneg x y Hx Hy) as H.
    intros E. rewrite E in H. discriminate.
  - destruct x as [sx|[]| |[] mx ex]; cbn in *; try congruence; try reflexivity.
    + destruct sx, t', s'; reflexivity.
    + unfold SFeqb, SFcompare; rewrite Z.compare_refl, Pos.compare_cont_refl; reflexivity.
  - destruct y as [sy|[]| |[] my ey]; cbn in *; try congruence; try reflexivity.
    + destruct sy, t, s; reflexivity.
    + unfold SFeqb, SFcompare; rewrite Z.compare_refl, Pos.compare_cont_refl; reflexivity.
  - destruct s, t, s', t'; reflexivity.
Qed.

Lemma SFdiv_core_bounds (m1 m2 : positive) (e1 e2 : Z) :
  bounded prec emax m1 e1 = true -> bounded prec emax m2 e2 = true ->
  2 <= Zdigits2 (Zpos m2) + e2 ->
  let '(q, e', _) := SFdiv_core_binary prec emax (Zpos m1) e1 (Zpos m2) e2 in
  0 <= q /\ e' <= emax - prec /\ Zdigits2 q + e' <= emax - 1.
Proof.
  intros H1 H2 Hy. unfold SFdiv_core_binary.
  destruct (bounded_inv _ _ H1) as (He1 & Hd1 & _).
  destruct (bounded_inv _ _ H2) as (He2 & Hd2 & _).
  set (d1 := Zdigits2 (Zpos m1)) in *. set (d2 := Zdigits2 (Zpos m2)) in *.
  set (e' := Z.min (fexp prec emax (d1 + e1 - (d2 + e2))) (e1 - e2)).
  set (s := e1 - e2 - e').
  assert (Hs : 0 <= s) by (unfold s, e'; lia).
  set (m' := match s with Z.pos _ => Z.shiftl (Zpos m1) s | Z0 => Zpos m1 | Z.neg _ => 0 end).
  assert (Hm' : m' = Z.shiftl (Zpos m1) s).
  { unfold m'. destruct s; try reflexivity; lia. }
  assert (Hpos : 0 < m').
  { rewrite Hm', Z.shiftl_mul_pow2 by assumption.
    apply Z.mul_pos_pos; [lia|apply Z.pow_pos_nonneg; lia]. }
  assert (Hlog : Z.log2 m' = Z.log2 (Zpos m1) + s).
  { rewrite Hm'. apply Z.log2_shiftl; lia. }
  pose proof (Z.div_eucl_eq m' (Zpos m2) ltac:(lia)) as Heq.
  pose proof (Z.mod_pos_bound m' (Zpos m2) ltac:(lia)) as Hr.
  unfold Z.modulo in Hr.
  destruct (Z.div_eucl m' (Zpos m2)) as [q r].
  assert (Hq : 0 <= q) by nia.
  split; [assumption|]. split.
  - unfold e', fexp, SpecFloat.emin, prec, emax in *. lia.
  - destruct (Z.eq_dec q 0) as [->|Hne].
    + cbn [Zdigits2]. unfold e', fexp, SpecFloat.emin, prec, emax in *. lia.
    + rewrite Zdigits2_log2 by lia.
      assert (L : Z.log2 q + Z.log2 (Zpos m2) <= Z.log2 m').
      { apply Z.le_trans with (Z.log2 (q * Zpos m2)).
        - apply Z.log2_mul_below; lia.
        - apply Z.log2_le_mono. nia. }
      unfold d1, d2 in *. rewrite Zdigits2_log2 in * by lia.
      unfold s, e' in *. unfold fexp, SpecFloat.emin, prec, emax in *. lia.
Qed.

Lemma SFdiv_nonneg_finite (x y : spec_float) :
  valid_binary x = true -> valid_binary y = true ->
  sf_nonneg x = true -> sf_finite x = true ->
  (exists m e, y = S754_finite false m e /\ 2 <= Zdigits2 (Zpos m) + e) ->
  sf_nonneg (SF64div x y) = true /\ sf_finite (SF64div x y) = true.
Proof.
  intros Vx Vy Nx Fx (my & ey & -> & Hy).
  destruct x as [sx|[]| |[] mx ex]; cbn in Nx, Fx; try congruence.
  - split; reflexivity.
  - unfold SF64div, SFdiv.
    pose proof (SFdiv_core_bounds mx my ex ey Vx Vy Hy) as B.
    destruct (SFdiv_core_binary prec emax (Zpos mx) ex (Zpos my) ey) as [[q e'] l].
    destruct B as (Hq & He & Hd). cbn [xorb].
    destruct (binary_round_aux_finite false q e' l Hq He Hd) as [->|(m & e & ->)];
      split; reflexivity.
Qed.

Lemma finite_key_bounds (m : positive) (e : Z) :
  bounded prec emax m e = true -> 0 < Zpos m * 2 ^ (e - emin) < 2 ^ 2200.
Proof.
  intros H. destruct (bounded_inv _ _ H) as (He & Hd & _).
  rewrite Zdigits2_log2 in Hd by lia.
  unfold SpecFloat.emin, prec, emax in *.
  assert (A : Zpos m < 2 ^ 53) by (apply Z.log2_lt_pow2; lia).
  assert (B : 0 < 2 ^ (e - (3 - 1024 - 53))) by (apply Z.pow_pos_nonneg; lia).
  assert (C : 2 ^ (e - (3 - 1024 - 53)) < 2 ^ 2046) by (apply Z.pow_lt_mono_r; lia).
  split; [lia|].
  apply Z.lt_le_trans with (2 ^ 53 * 2 ^ 2046).
  - apply Z.mul_lt_mono_nonneg; lia.
  - rewrite <- Z.pow_add_r by lia. apply Z.pow_le_mono_r; lia.
Qed.

Lemma aligned_key (s : bool) (m : positive) (e ez : Z) :
  emin <= ez <= e ->
  cond_Zopp s (Zpos m * 2 ^ (e - emin)) = aligned s m e ez * 2 ^ (ez - emin).
Proof.
  intros H. unfold aligned.
  replace (e - emin) with ((e - ez) + (ez - emin)) by lia.
  rewrite Z.pow_add_r by lia. destruct s; cbn [cond_Zopp]; lia.
Qed.

Lemma SFcompare_key (x y : spec_float) :
  valid_binary x = true -> valid_binary y = true ->
  x <> S754_nan -> y <> S754_nan ->
  SFcompare x y = Some (sf_key x ?= sf_key y).
Proof.
  intros Vx Vy Nx Ny.
  destruct x as [sx|sx| |sx mx ex], y as [sy|sy| |sy my ey]; try congruence;
    cbn [valid_binary] in Vx, Vy;
    try pose proof (finite_key_bounds _ _ Vx) as Kx;
    try pose proof (finite_key_bounds _ _ Vy) as Ky;
    assert (P : 0 < 2 ^ 2200) by (apply Z.pow_pos_nonneg; lia);
    cbn [sf_key SFcompare].
  all: try solve [ repeat match goal with s : bool |- _ => destruct s end;
                   cbn [cond_Zopp]; f_equal; symmetry;
                   first [ reflexivity
                         | apply Z.compare_eq_iff; lia
                         | apply Z.compare_lt_iff; lia
                         | apply Z.compare_gt_iff; lia ] ].
  change (SFcompare (S754_finite sx mx ex) (S754_finite sy my ey) =
            Some (cond_Zopp sx (Zpos mx * 2 ^ (ex - emin)) ?= cond_Zopp sy (Zpos my * 2 ^ (ey - emin)))).
    rewrite SFcompare_aligned by assumption.
    destruct (bounded_inv _ _ Vx) as (Bx & _). destruct (bounded_inv _ _ Vy) as (By & _).
    rewrite (aligned_key sx mx ex (Z.min ex ey)), (aligned_key sy my ey (Z.min ex ey)) by lia.
    f_equal. apply Zmult_compare_compat_r. apply Z.lt_gt, Z.pow_pos_nonneg; lia.
Qed.

(** ** Rounding gives a canonical number

    [binary_round] and [binary_normalize] return a value that satisfies
    [valid_binary], and an integer below [2^53] is rounded to itself. *)

Lemma fexp_mono (a b : Z) : a <= b -> fexp prec emax a <= fexp prec emax b.
Proof. unfold fexp, SpecFloat.emin. lia. Qed.

Lemma Zdigits2_mono (a b : Z) : 0 < a -> a <= b -> Zdigits2 a <= Zdigits2 b.
Proof.
  intros Ha Hab. rewrite !Zdigits2_log2 by lia.
  pose proof (Z.log2_le_mono a b Hab). lia.
Qed.

Lemma Zdigits2_mul_pow2 (m k : Z) : 0 < m -> 0 <= k -> Zdigits2 (m * 2 ^ k) = Zdigits2 m + k.
Proof.
  intros Hm Hk.
  assert (0 < m * 2 ^ k) by (apply Z.mul_pos_pos; [lia|apply Z.pow_pos_nonneg; lia]).
  rewrite !Zdigits2_log2 by lia. rewrite Z.log2_mul_pow2 by lia. lia.
Qed.

Lemma shr_fexp_canonical (m e : Z) (l : location) :
  0 < m -> e <= fexp prec emax (Zdigits2 m + e) ->
  let r := shr_fexp prec emax m e l in
  snd r = fexp prec emax (Zdigits2 m + e) /\
  (0 < shr_m (fst r) -> Zdigits2 (shr_m (fst r)) + snd r = Zdigits2 m + e) /\
  (shr_m (fst r) = 0 -> Zdigits2 m + e <= snd r).
Proof.
  intros Hm He r. destruct (shr_fexp_inv m e l (Z.lt_le_incl _ _ Hm)) as [H1 H2]. fold r in H1, H2.
  set (f := fexp prec emax (Zdigits2 m + e)) in *.
  destruct (Z.le_gt_cases (f - e) 0) as [Hn|Hn].
  - destruct (H1 Hn) as [-> ->]. split; [lia|]. split; intros; lia.
  - destruct (H2 Hn) as [-> ->]. split; [lia|]. split.
    + intros Hs. rewrite Zdigits2_shiftr by lia. lia.
    + intros Hs. apply Z.shiftr_eq_0_iff in Hs. destruct Hs as [->|[_ Hs]]; [lia|].
      rewrite Zdigits2_log2 by lia. lia.
Qed.

Lemma binary_round_aux_valid (sx : bool) (mx ex : Z) (lx : location) :
  0 < mx -> ex <= fexp prec emax (Zdigits2 mx + ex) ->
  valid_binary (binary_round_aux prec emax sx mx ex lx) = true.
Proof.
  intros Hm He. unfold binary_round_aux.
  destruct (shr_fexp_canonical mx ex lx Hm He) as (X1 & D1 & Z1).
  destruct (shr_fexp prec emax mx ex lx) as [mrs' e'] eqn:E1. cbn [fst snd] in X1, D1, Z1.
  set (m1 := round_nearest_even (shr_m mrs') (loc_of_shr_record mrs')).
  pose proof (shr_fexp_nonneg mx ex lx (Z.lt_le_incl _ _ Hm)) as N1. rewrite E1 in N1; cbn [fst] in N1.
  pose proof (round_nearest_even_bounds (shr_m mrs') (loc_of_shr_record mrs')) as B. fold m1 in B.
  destruct (Z.eq_dec m1 0) as [Hz|Hnz].
  { rewrite Hz. unfold shr_fexp. cbn [Zdigits2 Z.add].
    destruct (fexp prec emax e' - e') as [|p|p] eqn:En; cbn [shr shr_record_of_loc fst shr_m];
      try reflexivity.
    rewrite iter_shr_1_m by (cbn; lia). cbn [shr_m]. rewrite Z.shiftr_0_l. reflexivity. }
  assert (Hm1 : 0 < m1) by lia.
  assert (He1 : e' <= fexp prec emax (Zdigits2 m1 + e')).
  { destruct (Z.eq_dec (shr_m mrs') 0) as [Hz|Hnz'].
    - specialize (Z1 Hz). replace m1 with 1 by lia. cbn [Zdigits2 digits2_pos].
      rewrite X1 in *. unfold fexp, SpecFloat.emin, prec, emax in *. lia.
    - rewrite X1 at 1. apply fexp_mono. rewrite <- D1 by lia.
      pose proof (Zdigits2_mono (shr_m mrs') m1 ltac:(lia) ltac:(lia)). lia. }
  destruct (shr_fexp_canonical m1 e' loc_Exact Hm1 He1) as (X2 & D2 & _).
  destruct (shr_fexp prec emax m1 e' loc_Exact) as [mrs'' e''] eqn:E2. cbn [fst snd] in X2, D2.
  destruct (shr_m mrs'') as [|p|p] eqn:Em; try reflexivity.
  destruct (e'' <=? emax - prec) eqn:Le; [|reflexivity].
  cbn [valid_binary]. unfold bounded. rewrite Le, andb_true_r.
  unfold canonical_mantissa. apply Z.eqb_eq.
  change (Zpos (digits2_pos p)) with (Zdigits2 (Zpos p)).
  rewrite D2 by lia. lia.
Qed.

Lemma shl_align_fexp_inv (mx : positive) (ex : Z) :
  let r := shl_align mx ex (fexp prec emax (Zpos (digits2_pos mx) + ex)) in
  snd r <= fexp prec emax (Zdigits2 (Zpos (fst r)) + snd r) /\
  Zpos (fst r) = Zpos mx * 2 ^ (ex - snd r) /\ snd r <= ex /\
  snd r = Z.min ex (fexp prec emax (Zdigits2 (Zpos mx) + ex)).
Proof.
  intros r. unfold r.
  set (f := fexp prec emax (Z.pos (digits2_pos mx) + ex)).
  pose proof (shl_align_exp mx ex f) as Hs.
  destruct (Z.le_gt_cases f ex) as [Hle|Hgt].
  - pose proof (shl_align_value mx ex f Hle) as Hv.
    destruct (shl_align mx ex f) as [mz ez]. cbn [fst snd] in *.
    replace ez with f in * by lia. rewrite Hv.
    rewrite Zdigits2_mul_pow2 by lia. cbn [Zdigits2]. fold f.
    replace (Z.pos (digits2_pos mx) + (ex - f) + f) with (Z.pos (digits2_pos mx) + ex) by lia.
    fold f. lia.
  - assert (E : shl_align mx ex f = (mx, ex)).
    { unfold shl_align. destruct (f - ex) eqn:E; try reflexivity; lia. }
    rewrite E. cbn [fst snd Zdigits2]. fold f. rewrite Z.sub_diag. lia.
Qed.

Lemma binary_round_valid (s : bool) (m : positive) (e : Z) :
  valid_binary (binary_round prec emax s m e) = true.
Proof.
  unfold binary_round. destruct (shl_align_fexp_inv m e) as (H & _).
  destruct (shl_align m e _) as [mz ez]. cbn [fst snd] in H.
  apply binary_round_aux_valid; [lia|exact H].
Qed.

Lemma binary_normalize_valid (m e : Z) (szero : bool) :
  valid_binary (binary_normalize prec emax m e szero) = true.
Proof. destruct m; [reflexivity|apply binary_round_valid..]. Qed.

(** An integer below [2^53] is rounded to itself. *)
Lemma binary_round_exact (s : bool) (p : positive) :
  Zpos p < 2 ^ prec ->
  exists m e, binary_round prec emax s p 0 = S754_finite s m e /\
              e <= 0 /\ Zpos m = Zpos p * 2 ^ (- e).
Proof.
  intros Hp. unfold binary_round.
  destruct (shl_align_fexp_inv p 0) as (_ & Hv & _ & Hs).
  destruct (shl_align p 0 _) as [mz ez]. cbn [fst snd] in *.
  assert (Hd : Zdigits2 (Zpos p) <= prec).
  { rewrite Zdigits2_log2 by lia.
    assert (Z.log2 (Zpos p) < prec) by (apply Z.log2_lt_pow2; lia). lia. }
  pose proof (Zdigits2_nonneg (Zpos p)) as Hd0.
  assert (Ez : ez = Zdigits2 (Zpos p) - prec).
  { rewrite Hs. rewrite Z.add_0_r. unfold fexp, SpecFloat.emin, prec, emax in *. lia. }
  assert (Dz : Zdigits2 (Zpos mz) = prec).
  { rewrite Hv, Zdigits2_mul_pow2 by lia. lia. }
  exists mz, ez. split; [|split; [lia|rewrite Hv; f_equal; f_equal; lia]].
  unfold binary_round_aux.
  assert (S1 : shr_fexp prec emax (Zpos mz) ez loc_Exact = (shr_record_of_loc (Zpos mz) loc_Exact, ez)).
  { unfold shr_fexp. rewrite Dz.
    replace (fexp prec emax (prec + ez) - ez) with 0; [reflexivity|].
    unfold fexp, SpecFloat.emin, prec, emax in *. lia. }
  rewrite S1. cbn [shr_record_of_loc loc_of_shr_record shr_m round_nearest_even].
  rewrite S1. cbn [shr_record_of_loc shr_m].
  replace (ez <=? emax - prec) with true; [reflexivity|].
  symmetry. apply Z.leb_le. unfold prec, emax in *. lia.
Qed.

(** A normal number divided by 4: the same mantissa, the exponent two
    below. *)
Lemma SFdiv_4 (s : bool) (m : positive) (e : Z) :
  Zdigits2 (Zpos m) = prec -> emin + 3 <= e <= emax - prec ->
  SFdiv prec emax (S754_finite s m e) (S754_finite false 4503599627370496 (-50)) =
  S754_finite s m (e - 2).
Proof.
  intros Hd He. unfold SFdiv, SFdiv_core_binary.
  rewrite Hd. change (Zdigits2 4503599627370496) with 53.
  replace (Z.min (fexp prec emax (prec + e - (53 + -50))) (e - -50)) with (e - 3)
    by (unfold fexp, SpecFloat.emin, emin, prec, emax in *; lia).
  replace (e - -50 - (e - 3)) with 53 by lia.
  assert (Q : Z.div_eucl (Z.shiftl (Zpos m) 53) 4503599627370496 = (Zpos m~0, 0)).
  { pose proof (Z.div_eucl_eq (Z.shiftl (Zpos m) 53) 4503599627370496 ltac:(lia)) as E.
    pose proof (Z.mod_pos_bound (Z.shiftl (Zpos m) 53) 4503599627370496 ltac:(lia)) as B.
    unfold Z.modulo in B.
    destruct (Z.div_eucl (Z.shiftl (Zpos m) 53) 4503599627370496) as [q r].
    rewrite Z.shiftl_mul_pow2 in E by lia.
    change (2 ^ 53) with (2 * 4503599627370496) in E.
    assert (q = Zpos m~0) by (change (Zpos m~0) with (2 * Zpos m); nia).
    assert (r = 0) by nia. congruence. }
  rewrite Q. change (new_location 4503599627370496 0) with loc_Exact.
  rewrite xorb_false_r.
  unfold binary_round_aux.
  assert (D2 : Zdigits2 (Zpos m~0) = prec + 1).
  { change (Zpos m~0) with (2 * Zpos m). rewrite !Zdigits2_log2 in * by lia.
    rewrite Z.log2_double by lia. lia. }
  assert (S1 : shr_fexp prec emax (Zpos m~0) (e - 3) loc_Exact =
               (shr_record_of_loc (Zpos m) loc_Exact, e - 2)).
  { unfold shr_fexp. rewrite D2.
    replace (fexp prec emax (prec + 1 + (e - 3)) - (e - 3)) with 1
      by (unfold fexp, SpecFloat.emin, emin, prec, emax in *; lia).
    cbn [shr iter_pos shr_record_of_loc shr_1 orb]. f_equal. lia. }
  rewrite S1. cbn [shr_record_of_loc loc_of_shr_record shr_m round_nearest_even].
  assert (S2 : shr_fexp prec emax (Zpos m) (e - 2) loc_Exact =
               (shr_record_of_loc (Zpos m) loc_Exact, e - 2)).
  { unfold shr_fexp. rewrite Hd.
    replace (fexp prec emax (prec + (e - 2)) - (e - 2)) with 0; [reflexivity|].
    unfold fexp, SpecFloat.emin, emin, prec, emax in *. lia. }
  rewrite S2. cbn [shr_record_of_loc shr_m].
  replace (e - 2 <=? emax - prec) with true; [reflexivity|].
  symmetry. apply Z.leb_le. lia.
Qed.

#[local] Open Scope float_scope.

Lemma Prim2SF_not_nan (x : float) : is_nan x = false -> Prim2SF x <> S754_nan.
Proof.
  unfold is_nan. rewrite eqb_spec. intros H E. rewrite E in H. discriminate.
Qed.

Lemma sub_ltb_zero (x y : float) :
  is_nan x = false -> is_nan y = false -> (x - y <? 0) = (x <? y).
Proof.
  intros Hx Hy. rewrite !ltb_spec, sub_spec.
  apply SFsub_sign; auto using Prim2SF_valid, Prim2SF_not_nan.
Qed.

Lemma sub_gtb_zero (x y : float) :
  is_nan x = false -> is_nan y = false -> (0 <? x - y) = (y <? x).
Proof.
  intros Hx Hy. rewrite !ltb_spec, sub_spec.
  apply SFsub_sign; auto using Prim2SF_valid, Prim2SF_not_nan.
Qed.

Lemma compare_fkey (x y : float) :
  is_nan x = false -> is_nan y = false ->
  SFcompare (Prim2SF x) (Prim2SF y) = Some (fkey x ?= fkey y)%Z.
Proof.
  intros Hx Hy. apply SFcompare_key; auto using Prim2SF_valid, Prim2SF_not_nan.
Qed.

Lemma ltb_fkey (x y : float) :
  is_nan x = false -> is_nan y = false -> (x <? y) = (fkey x <? fkey y)%Z.
Proof.
  intros Hx Hy. rewrite ltb_spec. unfold SFltb. rewrite compare_fkey by assumption.
  unfold Z.ltb. destruct (_ ?= _)%Z; reflexivity.
Qed.

Lemma leb_fkey (x y : float) :
  is_nan x = false -> is_nan y = false -> (x <=? y) = (fkey x <=? fkey y)%Z.
Proof.
  intros Hx Hy. rewrite leb_spec. unfold SFleb. rewrite compare_fkey by assumption.
  unfold Z.leb. destruct (_ ?= _)%Z; reflexivity.
Qed.

Lemma eqb_fkey (x y : float) :
  is_nan x = false -> is_nan y = false -> (x =? y) = (fkey x =? fkey y)%Z.
Proof.
  intros Hx Hy. rewrite eqb_spec. unfold SFeqb. rewrite compare_fkey by assumption.
  rewrite Z.eqb_compare. destruct (_ ?= _)%Z; reflexivity.
Qed.

Lemma fkey_zero : fkey 0 = 0%Z.
Proof. reflexivity. Qed.

Lemma leb_not_nan (x y : float) :
  (x <=? y) = true -> is_nan x = false /\ is_nan y = false.
Proof.
  unfold is_nan. rewrite leb_spec, !eqb_spec. unfold SFleb. intros H.
  destruct (Prim2SF x) as [sx|sx| |sx mx ex] eqn:Ex; try (cbn in H; discriminate);
    (destruct (Prim2SF y) as [sy|sy| |sy my ey] eqn:Ey; try (cbn in H; discriminate));
    rewrite !SFeqb_refl by discriminate; split; reflexivity.
Qed.

Lemma leb_not_gtb (x y : float) : (x <=? y) = true -> (y <? x) = false.
Proof.
  intros H. destruct (leb_not_nan x y H) as [Hx Hy].
  rewrite leb_fkey in H by assumption. rewrite ltb_fkey by assumption.
  apply Z.leb_le in H. apply Z.ltb_ge. exact H.
Qed.

Lemma nonneg_finite_inv (x : float) :
  nonneg_finite x = true ->
  sf_nonneg (Prim2SF x) = true /\ sf_finite (Prim2SF x) = true.
Proof.
  unfold nonneg_finite. rewrite leb_spec, ltb_spec. intros H.
  apply andb_true_iff in H. destruct H as [H1 H2].
  change (Prim2SF 0) with (S754_zero false) in H1.
  change (Prim2SF infinity) with (S754_infinity false) in H2.
  rewrite SFleb_zero_nonneg in H1. rewrite SFltb_inf_finite in H2 by assumption.
  split; assumption.
Qed.

Lemma nonneg_finite_not_nan (x : float) : nonneg_finite x = true -> is_nan x = false.
Proof.
  intros H. destruct (nonneg_finite_inv x H) as [H1 _].
  unfold is_nan. rewrite eqb_spec, SFeqb_refl; [reflexivity|].
  intros E. rewrite E in H1. discriminate.
Qed.

(** ** NaN and the comparisons *)

Lemma is_nan_Prim2SF (x : float) : is_nan x = true -> Prim2SF x = S754_nan.
Proof.
  unfold is_nan. rewrite eqb_spec. intros H.
  destruct (Prim2SF x) as [s|s| |s m e] eqn:E; try reflexivity; exfalso.
  all: rewrite SFeqb_refl in H by discriminate; discriminate.
Qed.

Lemma not_nan_Prim2SF (x : float) : Prim2SF x <> S754_nan -> is_nan x = false.
Proof. intros H. unfold is_nan. rewrite eqb_spec, SFeqb_refl by exact H. reflexivity. Qed.

(** A comparison with NaN is false. *)
Lemma ltb_sub_nan (c y x : float) : is_nan x = true -> (c <? y - x) = false.
Proof.
  intros H. rewrite ltb_spec, sub_spec, (is_nan_Prim2SF x H).
  destruct (Prim2SF y) as [s|s| |s m e], (Prim2SF c) as [s'|s'| |s' m' e']; reflexivity.
Qed.

Lemma ltb_not_nan (x y : float) :
  (x <? y) = true -> is_nan x = false /\ is_nan y = false.
Proof.
  unfold is_nan. rewrite ltb_spec, !eqb_spec. unfold SFltb. intros H.
  destruct (Prim2SF x) as [sx|sx| |sx mx ex] eqn:Ex; try (cbn in H; discriminate);
    (destruct (Prim2SF y) as [sy|sy| |sy my ey] eqn:Ey; try (cbn in H; discriminate));
    rewrite !SFeqb_refl by discriminate; split; reflexivity.
Qed.

(** A number whose key lies strictly between 0 and that of infinity is a
    positive finite one. *)
Lemma positive_finite (x : float) :
  is_nan x = false -> (0 < fkey x < 2 ^ 2200)%Z ->
  exists m e, Prim2SF x = S754_finite false m e /\ fkey x = (Zpos m * 2 ^ (e - emin))%Z /\
              (emin <= e <= emax - prec)%Z.
Proof.
  intros N K. pose proof (Prim2SF_valid x) as V. unfold fkey in *.
  destruct (Prim2SF x) as [s|s| |s m e] eqn:E; cbn [sf_key] in K; try lia.
  - destruct s; cbn [cond_Zopp] in K; lia.
  - pose proof (finite_key_bounds m e V) as B. destruct (bounded_inv m e V) as (Be & _).
    destruct s; cbn [cond_Zopp] in K; [lia|]. eauto.
Qed.

End IEEE.

(** * JavaScript built-ins

    The parts of the language the program leans on: string methods,
    [parseFloat], [Number.prototype.toFixed], truthiness, property reads,
    exceptions and [Array.prototype.sort]. *)
Module JS.

Import IEEE.

#[local] Open Scope string_scope.

(** ** Strings *)

Definition startsWith (s p : string) : bool := String.prefix p s.

Definition includes (s sub : string) : bool :=
  match String.index 0 sub s with Some _ => true | None => false end.

(** [s.split(sep)[0]]: what precedes the first separator. *)
Fixpoint split_head (sep : ascii) (s : string) : string :=
  match s with
  | EmptyString => EmptyString
  | String c r => if Ascii.eqb c sep then EmptyString else String c (split_head sep r)
  end.

(** [s.split(sep).pop()]: what follows the last separator. *)
Fixpoint split_last (sep : ascii) (s : string) : string :=
  match s with
  | EmptyString => EmptyString
  | String c r =>
      if includes r (String sep EmptyString) then split_last sep r
      else if Ascii.eqb c sep then r else s
  end.

(** [s.slice(n)] and [s.slice(0, n)] for [0 <= n]. *)
Fixpoint slice_from (n : nat) (s : string) : string :=
  match n, s with
  | O, _ => s
  | S k, String _ r => slice_from k r
  | S _, EmptyString => EmptyString
  end.

Fixpoint slice_to (n : nat) (s : string) : string :=
  match n, s with
  | S k, String c r => String c (slice_to k r)
  | _, _ => EmptyString
  end.

(** ** Decimal digits *)

Definition digit_of_ascii (c : ascii) : option N :=
  let n := N_of_ascii c in
  if ((48 <=? n) && (n <=? 57))%N then Some (n - 48)%N else None.

Definition ascii_of_digit (d : N) : ascii := ascii_of_N (48 + d).

(** The longest run of decimal digits at the head of [s], and what follows it. *)
Fixpoint scan_digits (s : string) : list N * string :=
  match s with
  | EmptyString => ([], s)
  | String c r =>
      match digit_of_ascii c with
      | Some d => let (ds, rest) := scan_digits r in (d :: ds, rest)
      | None => ([], s)
      end
  end.

Definition digits_value (ds : list N) : N :=
  fold_left (fun acc d => 10 * acc + d)%N ds 0%N.

Fixpoint string_of_digits (ds : list N) : string :=
  match ds with
  | [] => EmptyString
  | d :: r => String (ascii_of_digit d) (string_of_digits r)
  end.

(** Exactly [w] digits: those of [n mod 10^w], zeros in front. *)
Fixpoint fixed_digits (w : nat) (n : N) : list N :=
  match w with
  | O => []
  | S k => ((n / 10 ^ N.of_nat k) mod 10)%N :: fixed_digits k n
  end.

Fixpoint digits_fuel (fuel : nat) (n : N) (acc : list N) : list N :=
  match fuel with
  | O => acc
  | S k =>
      let acc' := (n mod 10)%N :: acc in
      if (n / 10 =? 0)%N then acc' else digits_fuel k (n / 10)%N acc'
  end.

(** The decimal digits of [n], most significant first; one zero for 0. *)
Definition digits_of_N (n : N) : list N := digits_fuel (S (N.to_nat (N.log2 n))) n [].

(** ** Numbers and decimal text *)

(** The binary64 value nearest to [+-m * 10^e10], ties to even. *)
Definition round_decimal (neg : bool) (m : positive) (e10 : Z) : spec_float :=
  match e10 with
  | Zneg k => SFdiv prec emax (S754_finite neg m 0) (S754_finite false (10 ^ k)%positive 0)
  | _ => binary_normalize prec emax (cond_Zopp neg (Zpos m * 10 ^ e10)%Z) 0 false
  end.

Definition number_of_decimal (neg : bool) (m : N) (e10 : Z) : float :=
  match m with
  | N0 => if neg then neg_zero else zero
  | Npos p => SF2Prim (round_decimal neg p e10)
  end.

(** StrWhiteSpaceChar, as far as one-byte code units go. *)
Definition is_whitespace (c : ascii) : bool :=
  let n := N_of_ascii c in
  (((9 <=? n) && (n <=? 13)) || (n =? 32) || (n =? 160))%N.

Fixpoint trimStart (s : string) : string :=
  match s with
  | String c r => if is_whitespace c then trimStart r else s
  | EmptyString => s
  end.

Definition split_sign (s : string) : bool * string :=
  match s with
  | String "+" r => (false, r)
  | String "-" r => (true, r)
  | _ => (false, s)
  end.

(** ExponentPart: [e] or [E], an optional sign, digits; 0 when it is absent
    or incomplete. *)
Definition parse_exponent (s : string) : Z :=
  match s with
  | String c r =>
      if (Ascii.eqb c "e" || Ascii.eqb c "E")%bool then
        let (neg, r') := split_sign r in
        match scan_digits r' with
        | ([], _) => 0%Z
        | (ds, _) => cond_Zopp neg (Z.of_N (digits_value ds))
        end
      else 0%Z
  | EmptyString => 0%Z
  end.

(** [parseFloat]: leading white space is skipped, then the longest prefix
    that is a StrDecimalLiteral is read; NaN when there is none. *)
Definition parseFloat (input : string) : float :=
  let (neg, s) := split_sign (trimStart input) in
  if String.prefix "Infinity" s then (if neg then neg_infinity else infinity)
  else
    let (ip, r1) := scan_digits s in
    let (fp, r2) := match r1 with
                    | String "." r => scan_digits r
                    | _ => ([], r1)
                    end in
    match ip, fp with
    | [], [] => nan
    | _, _ => number_of_decimal neg (digits_value (ip ++ fp))
                (parse_exponent r2 - Z.of_nat (List.length fp))
    end.


(** The integer nearest to [m * 2^e * 10^f], the larger one on a tie. *)
Definition round_half_up (m : positive) (e : Z) (f : nat) : N :=
  match e with
  | Zneg k => ((2 * Npos m * 10 ^ N.of_nat f + 2 ^ Npos k) / 2 ^ (Npos k + 1))%N
  | _ => (Npos m * 2 ^ Z.to_N e * 10 ^ N.of_nat f)%N
  end.

(** Fixed notation: the digits of [n / 10^f], a point, and [f] more digits. *)
Definition fixed_notation (neg : bool) (n : N) (f : nat) : string :=
  (if neg then "-" else "") ++
  string_of_digits (digits_of_N (n / 10 ^ N.of_nat f)) ++
  match f with
  | O => ""
  | S _ => "." ++ string_of_digits (fixed_digits f n)
  end.

Definition sf_exact_eqb (x y : spec_float) : bool :=
  match x, y with
  | S754_finite s m e, S754_finite s' m' e' => Bool.eqb s s' && Pos.eqb m m' && Z.eqb e e'
  | _, _ => false
  end.

Fixpoint strip_zeros (fuel : nat) (s : N) (p : Z) : N * Z :=
  match fuel with
  | O => (s, p)
  | S k => if ((s mod 10 =? 0) && negb (s =? 0))%N then strip_zeros k (s / 10)%N (p + 1)%Z else (s, p)
  end.

(** Number::toString for an integer value [X = m * 2^e >= 10^21]: the
    fewest digits [s] (with a power of ten [p]) that read back as the same
    number, the closest such [s] when several do. *)
Fixpoint shortest_digits (ks : list nat) (x : spec_float) (X : N) (nd : nat) : N * Z :=
  match ks with
  | [] => (X, 0%Z)
  | k :: rest =>
      let p := N.of_nat (nd - k) in
      let lo := (X / 10 ^ p)%N in
      let hi := (lo + 1)%N in
      let ok v := match v with
                  | N0 => false
                  | Npos q => sf_exact_eqb (round_decimal false q (Z.of_N p)) x
                  end in
      let dlo := (X - lo * 10 ^ p)%N in
      let dhi := (hi * 10 ^ p - X)%N in
      let prefer_lo := ((dlo <? dhi) || ((dlo =? dhi) && N.even lo))%N in
      match ok lo, ok hi with
      | true, true => if prefer_lo then (lo, Z.of_N p) else strip_zeros nd hi (Z.of_N p)
      | true, false => (lo, Z.of_N p)
      | false, true => strip_zeros nd hi (Z.of_N p)
      | false, false => shortest_digits rest x X nd
      end
  end.

Definition exponential_notation (m : positive) (e : Z) : string :=
  let X := (Npos m * 2 ^ Z.to_N e)%N in
  let nd := List.length (digits_of_N X) in
  let (s, p) := shortest_digits (seq 1 17) (S754_finite false m e) X nd in
  let ds := digits_of_N s in
  let n := (Z.of_nat (List.length ds) + p)%Z in
  match ds with
  | [] => ""
  | d :: r =>
      string_of_digits [d] ++
      match r with [] => "" | _ => "." ++ string_of_digits r end ++
      "e+" ++ string_of_digits (digits_of_N (Z.to_N (n - 1)))
  end.

(** [Number.prototype.toFixed(f)] for [0 <= f <= 100]. *)
Definition toFixed (x : float) (f : nat) : string :=
  match Prim2SF x with
  | S754_nan => "NaN"
  | S754_infinity s => if s then "-Infinity" else "Infinity"
  | S754_zero _ => fixed_notation false 0 f
  | S754_finite s m e =>
      if (0 <=? e)%Z && (10 ^ 21 <=? Zpos m * 2 ^ e)%Z
      then (if s then "-" else "") ++ exponential_notation m e
      else fixed_notation s (round_half_up m e f) f
  end.


(** ** Facts about digits *)

Definition is_digit (d : N) : Prop := (d < 10)%N.

Lemma is_digit_cases (d : N) :
  is_digit d ->
  d = 0%N \/ d = 1%N \/ d = 2%N \/ d = 3%N \/ d = 4%N \/
  d = 5%N \/ d = 6%N \/ d = 7%N \/ d = 8%N \/ d = 9%N.
Proof. unfold is_digit. lia. Qed.

Ltac each_digit H :=
  apply is_digit_cases in H;
  repeat (destruct H as [H|H]); subst.

Lemma digit_of_ascii_of_digit (d : N) :
  is_digit d -> digit_of_ascii (ascii_of_digit d) = Some d.
Proof. intros H. each_digit H; reflexivity. Qed.

Lemma digit_not_whitespace (d : N) :
  is_digit d -> is_whitespace (ascii_of_digit d) = false.
Proof. intros H. each_digit H; reflexivity. Qed.

Lemma fold_digits_acc (l : list N) (acc : N) :
  (fold_left (fun a d => 10 * a + d) l acc =
   acc * 10 ^ N.of_nat (List.length l) + digits_value l)%N.
Proof.
  unfold digits_value. revert acc.
  induction l as [|d l IH]; intros acc; cbn [fold_left List.length].
  - cbn. lia.
  - rewrite IH, (IH (10 * 0 + d)%N). rewrite Nat2N.inj_succ, N.pow_succ_r'. lia.
Qed.

Lemma digits_value_cons (d : N) (l : list N) :
  (digits_value (d :: l) = d * 10 ^ N.of_nat (List.length l) + digits_value l)%N.
Proof.
  unfold digits_value at 1. cbn [fold_left]. rewrite fold_digits_acc. lia.
Qed.

Lemma digits_value_app (a b : list N) :
  (digits_value (a ++ b) =
   digits_value a * 10 ^ N.of_nat (List.length b) + digits_value b)%N.
Proof.
  unfold digits_value at 1. rewrite fold_left_app.
  fold (digits_value a). apply fold_digits_acc.
Qed.

Lemma fixed_digits_length (w : nat) (n : N) : List.length (fixed_digits w n) = w.
Proof. induction w as [|k IH]; cbn; congruence. Qed.

Lemma fixed_digits_are_digits (w : nat) (n : N) : Forall is_digit (fixed_digits w n).
Proof.
  induction w as [|k IH]; cbn [fixed_digits]; constructor; [|assumption].
  apply N.mod_lt. discriminate.
Qed.

Lemma fixed_digits_value (w : nat) (n : N) :
  (digits_value (fixed_digits w n) = n mod 10 ^ N.of_nat w)%N.
Proof.
  induction w as [|k IH]; cbn [fixed_digits].
  - cbn. symmetry. apply N.mod_1_r.
  - rewrite digits_value_cons, fixed_digits_length, IH.
    rewrite Nat2N.inj_succ, N.pow_succ_r'.
    set (p := (10 ^ N.of_nat k)%N).
    assert (Hp : (p <> 0)%N) by (apply N.pow_nonzero; discriminate).
    rewrite (N.mul_comm 10 p).
    rewrite N.Div0.mod_mul_r. lia.
Qed.

Lemma digits_fuel_are_digits (fuel : nat) : forall n acc,
  Forall is_digit acc -> Forall is_digit (digits_fuel fuel n acc).
Proof.
  induction fuel as [|k IH]; intros n acc H; cbn [digits_fuel]; [assumption|].
  assert (Forall is_digit ((n mod 10)%N :: acc)).
  { constructor; [apply N.mod_lt; discriminate|assumption]. }
  destruct (n / 10 =? 0)%N; auto.
Qed.

Lemma digits_fuel_value (fuel : nat) : forall n acc,
  (n < 2 ^ N.of_nat fuel)%N ->
  (digits_value (digits_fuel fuel n acc) =
   n * 10 ^ N.of_nat (List.length acc) + digits_value acc)%N.
Proof.
  induction fuel as [|k IH]; intros n acc H; cbn [digits_fuel].
  - cbn in H. assert (n = 0%N) by lia. subst. lia.
  - rewrite Nat2N.inj_succ, N.pow_succ_r' in H.
    pose proof (N.div_mod n 10 ltac:(discriminate)) as E.
    pose proof (N.mod_lt n 10 ltac:(discriminate)) as L.
    set (P := (10 ^ N.of_nat (List.length acc))%N).
    replace (n * P)%N with ((10 * (n / 10) + n mod 10) * P)%N by (rewrite <- E; reflexivity).
    destruct (N.eqb_spec (n / 10) 0) as [Z|NZ].
    + rewrite digits_value_cons. fold P. rewrite Z. lia.
    + assert (B : (n / 10 < 2 ^ N.of_nat k)%N).
      { set (Q := (2 ^ N.of_nat k)%N) in *. apply N.Div0.div_lt_upper_bound. lia. }
      rewrite (IH _ _ B). rewrite digits_value_cons.
      cbn [List.length]. rewrite Nat2N.inj_succ, N.pow_succ_r'. fold P. lia.
Qed.

Lemma digits_of_N_value (n : N) : digits_value (digits_of_N n) = n.
Proof.
  unfold digits_of_N. rewrite digits_fuel_value.
  - cbn. lia.
  - rewrite Nat2N.inj_succ, N2Nat.id.
    destruct n as [|p]; [reflexivity|]. apply N.log2_spec. reflexivity.
Qed.

Lemma digits_of_N_are_digits (n : N) : Forall is_digit (digits_of_N n).
Proof. apply digits_fuel_are_digits. constructor. Qed.

Lemma digits_fuel_nonempty (fuel : nat) (n : N) (acc : list N) :
  digits_fuel (S fuel) n acc <> [].
Proof.
  cbn [digits_fuel]. destruct (n / 10 =? 0)%N; [discriminate|].
  revert n acc. induction fuel as [|k IH]; intros n acc; cbn [digits_fuel]; [discriminate|].
  destruct (n / 10 / 10 =? 0)%N; [discriminate|apply IH].
Qed.

Lemma digits_of_N_nonempty (n : N) : digits_of_N n <> [].
Proof. apply digits_fuel_nonempty. Qed.

(** ** Reading back what was printed *)

Definition no_digit_head (s : string) : Prop :=
  match s with
  | EmptyString => True
  | String c _ => digit_of_ascii c = None
  end.

Lemma scan_string_of_digits (ds : list N) (rest : string) :
  Forall is_digit ds -> no_digit_head rest ->
  scan_digits (string_of_digits ds ++ rest) = (ds, rest).
Proof.
  intros H R. induction H as [|d l Hd Hl IH]; cbn [string_of_digits append].
  - destruct rest as [|c r]; cbn in *; [reflexivity|]. rewrite R. reflexivity.
  - cbn [scan_digits]. rewrite digit_of_ascii_of_digit by assumption.
    rewrite IH. reflexivity.
Qed.

Lemma parseFloat_digits_head (d : N) (ds : list N) (tail : string) :
  is_digit d ->
  let s := String (ascii_of_digit d) tail in
  trimStart s = s /\ split_sign s = (false, s) /\ String.prefix "Infinity" s = false.
Proof.
  intros H s. unfold s. each_digit H; repeat split; reflexivity.
Qed.

Lemma parseFloat_unsigned (neg : bool) (body : string) :
  (exists d tail, is_digit d /\ body = String (ascii_of_digit d) tail) ->
  parseFloat ((if neg then "-" else "") ++ body) =
  let (ip, r1) := scan_digits body in
  let (fp, r2) := match r1 with
                  | String "." r => scan_digits r
                  | _ => ([], r1)
                  end in
  match ip, fp with
  | [], [] => nan
  | _, _ => number_of_decimal neg (digits_value (ip ++ fp))
              (parse_exponent r2 - Z.of_nat (List.length fp))
  end.
Proof.
  intros (d & tail & Hd & ->).
  destruct (parseFloat_digits_head d [] tail Hd) as (T & S & P).
  unfold parseFloat. destruct neg; cbn [append].
  - replace (trimStart (String "-" (String (ascii_of_digit d) tail)))
      with (String "-" (String (ascii_of_digit d) tail)) by reflexivity.
    cbv beta iota delta [split_sign]. rewrite P. reflexivity.
  - rewrite T, S, P. reflexivity.
Qed.

Lemma parseFloat_fixed_notation (neg : bool) (n : N) (f : nat) :
  parseFloat (fixed_notation neg n f) = number_of_decimal neg n (- Z.of_nat f).
Proof.
  unfold fixed_notation.
  set (ip := digits_of_N (n / 10 ^ N.of_nat f)).
  pose proof (digits_of_N_are_digits (n / 10 ^ N.of_nat f)) as Dip. fold ip in Dip.
  pose proof (digits_of_N_nonempty (n / 10 ^ N.of_nat f)) as Nip. fold ip in Nip.
  pose proof (digits_of_N_value (n / 10 ^ N.of_nat f)) as Vip. fold ip in Vip.
  set (tail := match f with O => "" | S _ => "." ++ string_of_digits (fixed_digits f n) end).
  rewrite parseFloat_unsigned.
  2:{ destruct ip as [|d l]; [congruence|]. inversion Dip; subst.
      eexists _, _. split; [eassumption|]. reflexivity. }
  assert (Htail : no_digit_head tail) by (unfold tail; destruct f; cbn; auto).
  rewrite scan_string_of_digits by assumption.
  destruct f as [|k]; unfold tail.
  - destruct ip as [|d l]; [congruence|]. cbn [parse_exponent List.length].
    rewrite app_nil_r, Vip. cbn [N.of_nat N.pow]. rewrite N.div_1_r. reflexivity.
  - cbn [append].
    pose proof (scan_string_of_digits (fixed_digits (S k) n) "" (fixed_digits_are_digits _ _) I) as Sc.
    replace (string_of_digits (fixed_digits (S k) n)) with (string_of_digits (fixed_digits (S k) n) ++ "")
      by (clear; induction (string_of_digits (fixed_digits (S k) n)); cbn; congruence).
    rewrite Sc. cbn [parse_exponent].
    destruct ip as [|d l]; [congruence|].
    rewrite digits_value_app, Vip, fixed_digits_value, fixed_digits_length.
    pose proof (N.div_mod n (10 ^ N.of_nat (S k)) ltac:(apply N.pow_nonzero; discriminate)) as E.
    f_equal; lia.
Qed.

(** What reading back [x.toFixed(f)] gives: the nearest number to the
    decimal that [toFixed] rounded to. *)
Lemma parseFloat_toFixed_finite (x : float) (f : nat) (s : bool) (m : positive) (e : Z) :
  Prim2SF x = S754_finite s m e ->
  ((0 <=? e) && (10 ^ 21 <=? Zpos m * 2 ^ e))%Z = false ->
  parseFloat (toFixed x f) = number_of_decimal s (round_half_up m e f) (- Z.of_nat f).
Proof.
  intros E B. unfold toFixed. rewrite E, B. apply parseFloat_fixed_notation.
Qed.

Lemma parseFloat_toFixed_zero (x : float) (f : nat) (s : bool) :
  Prim2SF x = S754_zero s -> parseFloat (toFixed x f) = zero.
Proof.
  intros E. unfold toFixed. rewrite E. apply parseFloat_fixed_notation.
Qed.

Lemma parseFloat_toFixed_nan (x : float) (f : nat) :
  Prim2SF x = S754_nan -> parseFloat (toFixed x f) = nan.
Proof. intros E. unfold toFixed. rewrite E. reflexivity. Qed.

(** ** Values

    What [JSON.parse] and the program's own literals produce.  [Records]
    is an array, its elements read as records of type [A].  [Untyped] is
    an array of objects that are not all such records: some object holds,
    in a field of the record, a value of another type or no value.  (No
    object of it has a key of its own besides the fields of the record.) *)
Inductive value (A : Type) : Type :=
| Undefined
| Null
| Bool (b : bool)
| Num (x : float)
| Str (s : string)
| Records (l : list A)
| Untyped
| Obj (fields : list (string * value A)).

Arguments Undefined {A}.
Arguments Null {A}.
Arguments Bool {A} b.
Arguments Num {A} x.
Arguments Str {A} s.
Arguments Records {A} l.
Arguments Untyped {A}.
Arguments Obj {A} fields.

(** ToBoolean of a number: false for both zeros and NaN. *)
Definition truthy_number (x : float) : bool :=
  negb (x =? 0)%float && negb (is_nan x).

Definition truthy_string (s : string) : bool :=
  match s with EmptyString => false | String _ _ => true end.

Definition truthy {A : Type} (v : value A) : bool :=
  match v with
  | Undefined | Null => false
  | Bool b => b
  | Num x => truthy_number x
  | Str s => truthy_string s
  | Records _ | Untyped | Obj _ => true
  end.

Fixpoint lookup {A : Type} (k : string) (fields : list (string * value A)) : value A :=
  match fields with
  | [] => Undefined
  | (k', v) :: rest => if String.eqb k k' then v else lookup k rest
  end.

(** ** Exceptions

    A computation either completes with a value or throws; [try_catch]
    runs the handler on a throw.  The state is threaded through both. *)
Inductive completion (A : Type) : Type :=
| Normal (a : A)
| Throw.

Arguments Normal {A} a.
Arguments Throw {A}.

Definition M (W A : Type) : Type := W -> completion A * W.

Definition ret {W A : Type} (a : A) : M W A := fun w => (Normal a, w).

Definition throw {W A : Type} : M W A := fun w => (Throw, w).

(** A step that reads no state. *)
Definition lift {W A : Type} (c : completion A) : M W A := fun w => (c, w).

Definition bind {W A B : Type} (m : M W A) (k : A -> M W B) : M W B :=
  fun w => match m w with
           | (Normal a, w') => k a w'
           | (Throw, w') => (Throw, w')
           end.

Definition try_catch {W A : Type} (body handler : M W A) : M W A :=
  fun w => match body w with
           | (Normal a, w') => (Normal a, w')
           | (Throw, w') => handler w'
           end.

(** [v.k] for a key that no built-in prototype defines: a TypeError on
    [undefined] and [null], the own property of an object, [undefined]
    on anything else. *)
Definition get {W A : Type} (v : value A) (k : string) : M W (value A) :=
  match v with
  | Undefined | Null => throw
  | Obj fields => ret (lookup k fields)
  | _ => ret Undefined
  end.

(** ** Array.prototype.sort with a consistent comparator

    The sort is stable, so with a consistent comparator there is one
    array it can return: the one insertion sort computes ([sort_unique]
    below).  What it does with any comparator is [arraySort], further
    down. *)
Section Sort.

Context {A : Type}.
Variable comparefn : A -> A -> float.

(** [x] is placed after [y] when the comparator is positive; a NaN
    result counts as zero. *)
Definition sorts_after (x y : A) : bool := (0 <? comparefn x y)%float.

Fixpoint insert (x : A) (l : list A) : list A :=
  match l with
  | [] => [x]
  | y :: r => if sorts_after x y then y :: insert x r else x :: l
  end.

Definition sort (l : list A) : list A := fold_right insert [] l.

Definition precedes (x y : A) : Prop := sorts_after x y = false.

Definition equiv (x y : A) : bool := negb (sorts_after x y) && negb (sorts_after y x).

Lemma insert_perm (x : A) (l : list A) : Permutation (insert x l) (x :: l).
Proof.
  induction l as [|y r IH]; cbn [insert]; [reflexivity|].
  destruct (sorts_after x y); [|reflexivity].
  rewrite IH. apply perm_swap.
Qed.

Lemma sort_perm (l : list A) : Permutation (sort l) l.
Proof.
  induction l as [|x l IH]; cbn [sort fold_right]; [reflexivity|].
  fold (sort l). rewrite insert_perm. constructor. exact IH.
Qed.

Lemma sort_In (l : list A) (x : A) : In x (sort l) <-> In x l.
Proof.
  split; apply Permutation_in; [apply sort_perm|symmetry; apply sort_perm].
Qed.

(** The comparator is consistent on the elements that satisfy [P]. *)
Variable P : A -> Prop.
Hypothesis total : forall x y, P x -> P y -> precedes x y \/ precedes y x.
Hypothesis trans : forall x y z, P x -> P y -> P z ->
  precedes x y -> precedes y z -> precedes x z.

Lemma insert_sorted (x : A) (l : list A) :
  P x -> Forall P l -> StronglySorted precedes l -> StronglySorted precedes (insert x l).
Proof.
  intros Px Pl S. induction S as [|y r Sr IH Hy]; cbn [insert].
  - repeat constructor.
  - inversion Pl as [|? ? Py Pr]; subst.
    destruct (sorts_after x y) eqn:E.
    + constructor; [apply IH; assumption|].
      assert (Hyx : precedes y x).
      { destruct (total x y Px Py) as [H|H]; [unfold precedes in H; congruence|exact H]. }
      rewrite Forall_forall in *. intros z Hz.
      apply (Permutation_in _ (insert_perm x r)) in Hz. destruct Hz as [<-|Hz]; auto.
    + constructor; [constructor; assumption|].
      constructor; [exact E|].
      rewrite Forall_forall in *. intros z Hz. apply trans with y; auto.
Qed.

Lemma sort_sorted (l : list A) : Forall P l -> StronglySorted precedes (sort l).
Proof.
  induction 1 as [|x l Px Pl IH]; cbn [sort fold_right]; [constructor|].
  fold (sort l). apply insert_sorted; auto.
  rewrite Forall_forall in *. intros z Hz. apply Pl, sort_In, Hz.
Qed.

Lemma insert_filter (a x : A) (l : list A) :
  P a -> P x -> Forall P l ->
  filter (equiv a) (insert x l) = filter (equiv a) (x :: l).
Proof.
  intros Pa Px Pl. induction Pl as [|y r Py Pr IH]; cbn [insert]; [reflexivity|].
  destruct (sorts_after x y) eqn:E; [|reflexivity].
  cbn [filter] in *. rewrite IH.
  destruct (equiv a x) eqn:Ex, (equiv a y) eqn:Ey; try reflexivity.
  exfalso. unfold equiv in Ex, Ey.
  apply andb_true_iff in Ex, Ey. destruct Ex as [_ Hxa], Ey as [Hay _].
  apply negb_true_iff in Hxa, Hay.
  pose proof (trans x a y Px Pa Py Hxa Hay) as H. unfold precedes in H. congruence.
Qed.

Lemma sort_stable (a : A) (l : list A) :
  P a -> Forall P l -> filter (equiv a) (sort l) = filter (equiv a) l.
Proof.
  intros Pa Pl. induction Pl as [|x l Px Pl IH]; cbn [sort fold_right]; [reflexivity|].
  fold (sort l). rewrite insert_filter; auto.
  - cbn [filter]. rewrite IH. reflexivity.
  - rewrite Forall_forall in *. intros z Hz. apply Pl, sort_In, Hz.
Qed.

Lemma sort_head_least (l : list A) (b : A) (r : list A) :
  Forall P l -> sort l = b :: r -> In b l /\ forall x, In x l -> precedes b x.
Proof.
  intros Pl E. pose proof (sort_sorted l Pl) as S. rewrite E in S.
  assert (Hb : In b l) by (apply sort_In; rewrite E; left; reflexivity).
  split; [exact Hb|]. intros x Hx. apply sort_In in Hx. rewrite E in Hx.
  inversion S as [|? ? _ Hall]; subst. destruct Hx as [<-|Hx].
  - rewrite Forall_forall in Pl.
    destruct (total b b (Pl b Hb) (Pl b Hb)); assumption.
  - rewrite Forall_forall in Hall. auto.
Qed.

Lemma equiv_refl (x : A) : P x -> equiv x x = true.
Proof.
  intros Px. unfold equiv. destruct (total x x Px Px) as [H|H]; unfold precedes in H;
    rewrite H; reflexivity.
Qed.

Lemma sorted_stable_unique (l1 : list A) : forall l2,
  Forall P l1 -> Forall P l2 ->
  StronglySorted precedes l1 -> StronglySorted precedes l2 ->
  (forall a, P a -> filter (equiv a) l1 = filter (equiv a) l2) ->
  l1 = l2.
Proof.
  induction l1 as [|x r1 IH]; intros l2 P1 P2 S1 S2 H.
  - destruct l2 as [|y r2]; [reflexivity|]. inversion P2 as [|? ? Py _]; subst.
    specialize (H y Py). cbn [filter] in H. rewrite (equiv_refl y Py) in H. discriminate.
  - inversion P1 as [|? ? Px Pr1]; subst.
    destruct l2 as [|y r2].
    { specialize (H x Px). cbn [filter] in H. rewrite (equiv_refl x Px) in H. discriminate. }
    inversion P2 as [|? ? Py Pr2]; subst.
    inversion S1 as [|? ? S1' A1]; subst. inversion S2 as [|? ? S2' A2]; subst.
    rewrite Forall_forall in A1, A2.
    assert (Hyx : precedes y x).
    { pose proof (H x Px) as Hx. cbn [filter] in Hx. rewrite (equiv_refl x Px) in Hx.
      assert (I : In x (filter (equiv x) (y :: r2))).
      { cbn [filter]. rewrite <- Hx. left. reflexivity. }
      apply filter_In in I. destruct I as [[<-|I] _].
      - destruct (total y y Py Py); assumption.
      - apply A2, I. }
    assert (Hxy : precedes x y).
    { pose proof (H y Py) as Hy. cbn [filter] in Hy. rewrite (equiv_refl y Py) in Hy.
      assert (I : In y (filter (equiv y) (x :: r1))).
      { cbn [filter]. rewrite Hy. left. reflexivity. }
      apply filter_In in I. destruct I as [[<-|I] _].
      - destruct (total x x Px Px); assumption.
      - apply A1, I. }
    assert (E : equiv x y = true).
    { unfold equiv. unfold precedes in Hxy, Hyx. rewrite Hxy, Hyx. reflexivity. }
    assert (Exy : x = y).
    { pose proof (H x Px) as Hx. cbn [filter] in Hx.
      rewrite (equiv_refl x Px), E in Hx. congruence. }
    subst y. f_equal. apply IH; auto.
    intros a Pa. specialize (H a Pa). cbn [filter] in H.
    destruct (equiv a x); congruence.
Qed.

(** Any stable sort agrees with [sort]: a sorted arrangement of [l] that
    keeps the order of equivalent elements is the list [sort] returns. *)
Lemma sort_unique (l l' : list A) :
  Forall P l -> Permutation l' l -> StronglySorted precedes l' ->
  (forall a, P a -> filter (equiv a) l' = filter (equiv a) l) ->
  l' = sort l.
Proof.
  intros Pl Perm S H.
  assert (Pl' : Forall P l').
  { rewrite Forall_forall in *. intros x Hx. apply Pl. eapply Permutation_in; eassumption. }
  assert (Ps : Forall P (sort l)).
  { rewrite Forall_forall in *. intros x Hx. apply Pl. apply sort_In. exact Hx. }
  apply sorted_stable_unique; auto using sort_sorted.
  intros a Pa. rewrite H, sort_stable by assumption. reflexivity.
Qed.

End Sort.

Lemma sort_nil_iff {A : Type} (cmp : A -> A -> float) (l : list A) :
  sort cmp l = [] <-> l = [].
Proof.
  split; [|intros ->; reflexivity].
  intros E. pose proof (sort_perm cmp l) as H. rewrite E in H.
  apply Permutation_nil in H. exact H.
Qed.

(** Sorting by a numeric key, ascending [(a, b) => key(a) - key(b)] or
    descending [(a, b) => key(b) - key(a)]: the first element of the
    result has the least, respectively the greatest, key. *)
Section SortByKey.

Context {A : Type}.
Variable key : A -> float.

Definition ascending (a b : A) : float := (key a - key b)%float.
Definition descending (a b : A) : float := (key b - key a)%float.
Definition keyed (a : A) : Prop := is_nan (key a) = false.

Lemma precedes_ascending (a b : A) :
  keyed a -> keyed b -> (precedes ascending a b <-> (fkey (key a) <= fkey (key b))%Z).
Proof.
  intros Ha Hb. unfold precedes, sorts_after, ascending.
  rewrite sub_gtb_zero, ltb_fkey by assumption. apply Z.ltb_ge.
Qed.

Lemma precedes_descending (a b : A) :
  keyed a -> keyed b -> (precedes descending a b <-> (fkey (key b) <= fkey (key a))%Z).
Proof.
  intros Ha Hb. unfold precedes, sorts_after, descending.
  rewrite sub_gtb_zero, ltb_fkey by assumption. apply Z.ltb_ge.
Qed.

Lemma sort_ascending_head (l : list A) (b : A) (r : list A) :
  Forall keyed l -> sort ascending l = b :: r ->
  In b l /\ forall x, In x l -> (key b <=? key x)%float = true.
Proof.
  intros Hl E.
  destruct (sort_head_least ascending keyed) with (l := l) (b := b) (r := r) as [Hb Hmin]; auto.
  - intros x y Hx Hy. rewrite !precedes_ascending by assumption. lia.
  - intros x y z Hx Hy Hz. rewrite !precedes_ascending by assumption. lia.
  - split; [exact Hb|]. intros x Hx. rewrite Forall_forall in Hl.
    rewrite leb_fkey by (apply Hl; assumption).
    apply Z.leb_le. apply precedes_ascending; auto.
Qed.

Lemma sort_descending_head (l : list A) (b : A) (r : list A) :
  Forall keyed l -> sort descending l = b :: r ->
  In b l /\ forall x, In x l -> (key x <=? key b)%float = true.
Proof.
  intros Hl E.
  destruct (sort_head_least descending keyed) with (l := l) (b := b) (r := r) as [Hb Hmin]; auto.
  - intros x y Hx Hy. rewrite !precedes_descending by assumption. lia.
  - intros x y z Hx Hy Hz. rewrite !precedes_descending by assumption. lia.
  - split; [exact Hb|]. intros x Hx. rewrite Forall_forall in Hl.
    rewrite leb_fkey by (apply Hl; assumption).
    apply Z.leb_le. apply precedes_descending; auto.
Qed.

End SortByKey.

(** ** A host collation

    Comparison by code units: one consistent comparison, used where a
    concrete [localeCompare] is needed. *)
Module StringOrder := OrderedTypeFacts String_as_OT.

Definition codeUnitCompare : string -> string -> comparison := String_as_OT.compare.

Lemma codeUnitCompare_antisym (s t : string) :
  codeUnitCompare t s = CompOpp (codeUnitCompare s t).
Proof. apply StringOrder.compare_antisym. Qed.

Lemma codeUnitCompare_trans (s t u : string) :
  codeUnitCompare s t <> Gt -> codeUnitCompare t u <> Gt -> codeUnitCompare s u <> Gt.
Proof.
  unfold codeUnitCompare. rewrite !StringOrder.compare_gt_iff. intros H1 H2 H3.
  destruct (StringOrder.lt_dec t u) as [L|NL].
  - apply H1. eapply StringOrder.lt_trans; eassumption.
  - destruct (StringOrder.eq_dec t u) as [E|NE].
    + apply H1. rewrite E. assumption.
    + destruct (String_as_OT.compare_spec t u); contradiction.
Qed.

(** ** More built-ins *)

#[local] Open Scope list_scope.

(** [parseInt(s, 10)]: leading white space is skipped, a sign is read, then
    the longest run of decimal digits; NaN when there is none.  (For more
    than 20 significant digits the language lets an implementation round
    differently; the value here is the nearest number.) *)
Definition parseInt (input : string) : float :=
  let (neg, s) := split_sign (trimStart input) in
  match scan_digits s with
  | ([], _) => nan
  | (ds, _) => number_of_decimal neg (digits_value ds) 0
  end.

Fixpoint trimEnd (s : string) : string :=
  match s with
  | EmptyString => EmptyString
  | String c r =>
      match trimEnd r with
      | EmptyString => if is_whitespace c then EmptyString else String c EmptyString
      | r' => String c r'
      end
  end.

(** [s.trim()] *)
Definition trim (s : string) : string := trimEnd (trimStart s).

(** [s.split(sep)] for a separator of one code unit. *)
Fixpoint split (sep : ascii) (s : string) : list string :=
  match s with
  | EmptyString => [EmptyString]
  | String c r =>
      if Ascii.eqb c sep then EmptyString :: split sep r
      else match split sep r with
           | h :: t => String c h :: t
           | [] => [String c EmptyString]
           end
  end.

(** *** Number::toString *)

(** [floor (num / den * 10^p)] for a power [p] of either sign. *)
Definition scaled_floor (num den : N) (p : Z) : N :=
  match p with
  | Zneg k => (num / (den * 10 ^ Npos k))%N
  | _ => (num * 10 ^ Z.to_N p / den)%N
  end.

(** The digits [s] and the power of ten [p] of Number::toString for the
    positive value [x = num / den]: the fewest digits such that
    [s * 10^p] reads back as [x]; of two such [s] the one nearer to [x],
    and the even one on a tie.  [n0] is the decimal exponent of [x]:
    [10^(n0 - 1) <= x < 10^n0]. *)
Fixpoint fewest_digits (ks : list nat) (x : spec_float) (num den : N) (n0 : Z) : N * Z :=
  match ks with
  | [] => (scaled_floor num den (17 - n0), (n0 - 17)%Z)
  | k :: rest =>
      let p := (n0 - Z.of_nat k)%Z in
      let lo := scaled_floor num den (- p) in
      let hi := (lo + 1)%N in
      let ok v := match v with
                  | N0 => false
                  | Npos q => sf_exact_eqb (round_decimal false q p) x
                  end in
      (* [x - lo * 10^p] against [hi * 10^p - x], both sides scaled alike *)
      let twice := match p with
                   | Zneg j => (2 * num * 10 ^ Npos j ?= (lo + hi) * den)%N
                   | _ => (2 * num ?= (lo + hi) * 10 ^ Z.to_N p * den)%N
                   end in
      let prefer_lo := match twice with
                       | Lt => true
                       | Eq => N.even lo
                       | Gt => false
                       end in
      match ok lo, ok hi with
      | true, true => if prefer_lo then (lo, p) else strip_zeros 17 hi p
      | true, false => (lo, p)
      | false, true => strip_zeros 17 hi p
      | false, false => fewest_digits rest x num den n0
      end
  end.

Definition zeros (n : nat) : string := string_of_digits (repeat 0%N n).

(** Number::toString for the positive finite value [m * 2^e]. *)
Definition positive_to_string (m : positive) (e : Z) : string :=
  let num := match e with Zneg _ => Npos m | _ => (Npos m * 2 ^ Z.to_N e)%N end in
  let den := match e with Zneg j => (2 ^ Npos j)%N | _ => 1%N end in
  let n0 := (Z.of_nat (List.length (digits_of_N (num * 10 ^ 400 / den))) - 400)%Z in
  let (s, p) := fewest_digits (seq 1 17) (S754_finite false m e) num den n0 in
  let ds := digits_of_N s in
  let k := List.length ds in
  let n := (Z.of_nat k + p)%Z in
  if ((Z.of_nat k <=? n) && (n <=? 21))%Z
  then (string_of_digits ds ++ zeros (Z.to_nat n - k))%string
  else if ((0 <? n) && (n <=? 21))%Z
  then (string_of_digits (firstn (Z.to_nat n) ds) ++ "." ++
        string_of_digits (skipn (Z.to_nat n) ds))%string
  else if ((-6 <? n) && (n <=? 0))%Z
  then ("0." ++ zeros (Z.to_nat (- n)) ++ string_of_digits ds)%string
  else
    let exponent := ((if (n - 1 <? 0)%Z then "-" else "+") ++
                     string_of_digits (digits_of_N (Z.to_N (Z.abs (n - 1)))))%string in
    match ds with
    | [d] => (string_of_digits [d] ++ "e" ++ exponent)%string
    | d :: r => (string_of_digits [d] ++ "." ++ string_of_digits r ++ "e" ++ exponent)%string
    | [] => ""
    end.

(** [String(x)] for a number. *)
Definition numberToString (x : float) : string :=
  match Prim2SF x with
  | S754_nan => "NaN"
  | S754_zero _ => "0"
  | S754_infinity s => if s then "-Infinity" else "Infinity"
  | S754_finite s m e => ((if s then "-" else "") ++ positive_to_string m e)%string
  end.

(** *** Text

    What the program prints is a sequence of UTF-16 code units; a
    [string] holds the one-byte ones. *)
Definition text : Type := list N.

Definition units (s : string) : text := map N_of_ascii (list_ascii_of_string s).

(** [c.repeat(n)] for a one-unit string. *)
Definition repeated (c : ascii) (n : nat) : text := repeat (N_of_ascii c) n.

(** [parts.join(sep)] *)
Fixpoint join (sep : text) (parts : list text) : text :=
  match parts with
  | [] => []
  | [p] => p
  | p :: rest => p ++ sep ++ join sep rest
  end.

(** [x % d === 0] for a positive integer [d]. *)
Definition divisible (x : float) (d : positive) : bool :=
  match Prim2SF x with
  | S754_zero _ => true
  | S754_finite _ m e =>
      match e with
      | Zneg k => (Zpos m mod (Zpos d * 2 ^ Zpos k) =? 0)%Z
      | _ => ((Zpos m * 2 ^ e) mod Zpos d =? 0)%Z
      end
  | _ => false
  end.

(** The names [Object.prototype] answers to: reading one of them off a
    plain object gives an inherited function or object, never
    [undefined]. *)
Definition objectPrototypeMembers : list string :=
  ["constructor"; "__defineGetter__"; "__defineSetter__"; "hasOwnProperty";
   "__lookupGetter__"; "__lookupSetter__"; "isPrototypeOf"; "propertyIsEnumerable";
   "toString"; "valueOf"; "__proto__"; "toLocaleString"].

(** An array index: the canonical decimal text of an integer below
    [2^32 - 1].  Such keys come first, in ascending order, when the
    properties of an object are listed. *)
Definition arrayIndex (key : string) : option N :=
  match scan_digits key with
  | (d :: ds, EmptyString) =>
      let n := digits_value (d :: ds) in
      if (negb ((d =? 0)%N && negb (List.length ds =? 0)%nat) && (n <? 4294967295)%N)%bool
      then Some n else None
  | _ => None
  end.

(** *** Array.prototype.sort with any comparator

    [SortCompare] reads a NaN result as [+0]: the sort sees the sign of
    the result.  When the comparator is consistent on the elements, the
    array the sort leaves is specified: it is the stable arrangement
    [sort] computes.  When it is not, the order is the host's, and so is
    whether an exception of the comparator gets out; [engine] stands for
    both: it says whether the exception gets out and names the places of
    the array in the order the host leaves them. *)

Definition sign (v : float) : Z :=
  if (0 <? v)%float then 1%Z else if (v <? 0)%float then (-1)%Z else 0%Z.

Fixpoint distinct (l : list nat) : bool :=
  match l with
  | [] => true
  | i :: r => negb (existsb (Nat.eqb i) r) && distinct r
  end.

(** [places] names each of [n] places once. *)
Definition arranges (n : nat) (places : list nat) : bool :=
  (List.length places =? n)%nat && forallb (fun i => (i <? n)%nat) places && distinct places.

(** The elements of [l] in the order [places] names them; [l] as it is
    when [places] is no arrangement of it. *)
Definition reorder {A : Type} (places : list nat) (l : list A) : list A :=
  if arranges (List.length l) places
  then flat_map (fun i => match nth_error l i with Some x => [x] | None => [] end) places
  else l.

Section ArraySort.

Context {A : Type}.
Variable engine : (A -> A -> completion float) -> list A -> bool * list nat.
Variable comparefn : A -> A -> completion float.

Definition compared (x y : A) : option Z :=
  match comparefn x y with
  | Normal v => Some (sign v)
  | Throw => None
  end.

Definition throwsAt (x y : A) : bool :=
  match comparefn x y with
  | Normal _ => false
  | Throw => true
  end.

(** The number the comparator returns, where it returns. *)
Definition compareValue (x y : A) : float :=
  match comparefn x y with
  | Normal v => v
  | Throw => 0%float
  end.

(** A consistent comparison on the elements of [l]: it returns for every
    pair, [y] against [x] with the sign opposite to [x] against [y], and
    "not after" is transitive. *)
Definition consistent (l : list A) : bool :=
  forallb (fun x => forallb (fun y =>
    match compared x y, compared y x with
    | Some s, Some t =>
        (t =? - s)%Z &&
        forallb (fun z =>
          match compared y z, compared x z with
          | Some u, Some v => negb ((s <=? 0)%Z && (u <=? 0)%Z) || (v <=? 0)%Z
          | _, _ => false
          end) l
    | _, _ => false
    end) l) l.

(** [l.sort(comparefn)]: nothing is compared in an array of fewer than
    two elements; a comparator that throws for every pair makes the sort
    throw. *)
Definition arraySort (l : list A) : completion (list A) :=
  if (List.length l <? 2)%nat then Normal l
  else if consistent l then Normal (sort compareValue l)
  else if forallb (fun x => forallb (throwsAt x) l) l then Throw
  else
    let (thrown, places) := engine comparefn l in
    if thrown && existsb (fun x => existsb (throwsAt x) l) l then Throw
    else Normal (reorder places l).

End ArraySort.

(** A comparator that never throws. *)
Definition returning {A : Type} (f : A -> A -> float) : A -> A -> completion float :=
  fun x y => Normal (f x y).

(** [l.sort(f)] for such a comparator: the sort returns. *)
Definition sortWith {A : Type}
  (engine : (A -> A -> completion float) -> list A -> bool * list nat)
  (f : A -> A -> float) (l : list A) : list A :=
  if (List.length l <? 2)%nat then l
  else if consistent (returning f) l then sort f l
  else reorder (snd (engine (returning f) l)) l.

(** ** More facts *)

Lemma truthy_number_iff (x : float) :
  truthy_number x = true <-> is_nan x = false /\ fkey x <> 0%Z.
Proof.
  unfold truthy_number. destruct (is_nan x) eqn:N.
  - rewrite andb_false_r. split; [discriminate|intros [H _]; discriminate].
  - rewrite andb_true_r. rewrite eqb_fkey by (assumption || reflexivity).
    rewrite fkey_zero. destruct (Z.eqb_spec (fkey x) 0) as [E|E]; cbn [negb].
    + split; [discriminate|]. intros [_ H]. contradiction.
    + split; [|reflexivity]. intros _. split; [reflexivity|exact E].
Qed.

Lemma append_assoc (a b c : string) : ((a ++ b) ++ c = a ++ (b ++ c))%string.
Proof. induction a as [|x a IH]; cbn; [reflexivity|rewrite IH; reflexivity]. Qed.

Lemma append_length (a b : string) :
  String.length (a ++ b)%string = (String.length a + String.length b)%nat.
Proof. induction a as [|x a IH]; cbn; [reflexivity|rewrite IH; reflexivity]. Qed.


Lemma startsWith_append (p s : string) : startsWith (p ++ s)%string p = true.
Proof.
  unfold startsWith. induction p as [|c p IH]; cbn [append String.prefix].
  - destruct s; reflexivity.
  - destruct (ascii_dec c c) as [_|N]; [exact IH|contradiction].
Qed.

Lemma slice_from_append (p s : string) : slice_from (String.length p) (p ++ s)%string = s.
Proof. induction p as [|c p IH]; cbn; [destruct s; reflexivity|exact IH]. Qed.

Lemma slice_to_length (n : nat) (s : string) :
  String.length (slice_to n s) = Nat.min n (String.length s).
Proof.
  revert s. induction n as [|n IH]; intros [|c r]; cbn; try reflexivity. rewrite IH. reflexivity.
Qed.

Lemma slice_to_prefix (n : nat) (s : string) : String.prefix (slice_to n s) s = true.
Proof.
  revert s. induction n as [|n IH]; intros [|c r]; cbn; try reflexivity.
  destruct (ascii_dec c c) as [_|N]; [apply IH|contradiction].
Qed.

Lemma includes_empty (s : string) : includes s "" = true.
Proof. unfold includes. destruct s; reflexivity. Qed.

Lemma in_names (x : string) (l : list string) : existsb (String.eqb x) l = true -> In x l.
Proof.
  intros H. apply existsb_exists in H. destruct H as (y & Hy & E).
  apply String.eqb_eq in E. subst. exact Hy.
Qed.

Lemma filter_all {A : Type} (f : A -> bool) (l : list A) :
  (forall x, In x l -> f x = true) -> filter f l = l.
Proof.
  induction l as [|a l IH]; intros H; [reflexivity|]. cbn.
  rewrite (H a) by (left; reflexivity). f_equal. apply IH. intros x Hx. apply H. right. exact Hx.
Qed.

Lemma filter_none {A : Type} (f : A -> bool) (l : list A) :
  (forall x, In x l -> f x = false) -> filter f l = [].
Proof.
  induction l as [|a l IH]; intros H; [reflexivity|]. cbn.
  rewrite (H a) by (left; reflexivity). apply IH. intros x Hx. apply H. right. exact Hx.
Qed.

Lemma filter_filter {A : Type} (f g : A -> bool) (l : list A) :
  filter g (filter f l) = filter (fun x => f x && g x) l.
Proof.
  induction l as [|a l IH]; [reflexivity|]. cbn. destruct (f a); cbn; [|exact IH].
  destruct (g a); [f_equal|]; exact IH.
Qed.

Lemma filter_true {A : Type} (l : list A) : filter (fun _ => true) l = l.
Proof. apply filter_all. reflexivity. Qed.

Lemma repeated_length (c : ascii) (n : nat) : List.length (repeated c n) = n.
Proof. apply repeat_length. Qed.

Lemma join_length (sep : text) (parts : list text) :
  List.length (join sep parts) =
  (list_sum (map (@List.length N) parts) + List.length sep * (List.length parts - 1))%nat.
Proof.
  induction parts as [|p [|q rest] IH]; [cbn; lia|cbn; lia|].
  change (join sep (p :: q :: rest)) with (p ++ sep ++ join sep (q :: rest)).
  rewrite !length_app, IH. cbn [map list_sum fold_right List.length].
  rewrite !Nat.sub_succ, !Nat.sub_0_r, Nat.mul_succ_r. lia.
Qed.

Lemma StronglySorted_weaken {A : Type} (R S : A -> A -> Prop) (P : A -> Prop) (l : list A) :
  (forall x y, P x -> P y -> R x y -> S x y) ->
  Forall P l -> StronglySorted R l -> StronglySorted S l.
Proof.
  intros H Hl Hs. induction Hs as [|a l Hs IH Ha]; constructor.
  - apply IH. inversion Hl; assumption.
  - inversion Hl as [|? ? Pa Pl]; subst.
    rewrite Forall_forall in *. intros x Hx. apply H; auto.
Qed.

(** In a sorted list every element is the last one or stands before it. *)
Lemma StronglySorted_last {A : Type} (R : A -> A -> Prop) (l : list A) (d x : A) :
  StronglySorted R l -> In x l -> x = last l d \/ R x (last l d).
Proof.
  intros Hs. revert x. induction Hs as [|a l Hs IH Ha]; intros x Hx; [contradiction|].
  destruct l as [|b l']; [destruct Hx as [<-|[]]; left; reflexivity|].
  change (last (a :: b :: l') d) with (last (b :: l') d).
  destruct Hx as [<-|Hx]; [|apply IH; exact Hx].
  right. rewrite Forall_forall in Ha. apply Ha.
  clear. revert b. induction l' as [|c l IH]; intros b; [left; reflexivity|].
  right. apply IH.
Qed.

(** Sorting by a numeric key orders the whole list, not its head alone. *)
Section SortedByKey.

Context {A : Type}.
Variable key : A -> float.

Lemma sort_keyed (cmp : A -> A -> float) (l : list A) :
  Forall (keyed key) l -> Forall (keyed key) (sort cmp l).
Proof.
  rewrite !Forall_forall. intros H x Hx. apply H. apply (sort_In cmp). exact Hx.
Qed.

Lemma sort_ascending_sorted (l : list A) :
  Forall (keyed key) l ->
  StronglySorted (fun a b => (key a <=? key b)%float = true) (sort (ascending key) l).
Proof.
  intros Hl.
  apply (StronglySorted_weaken (precedes (ascending key)) _ (keyed key)).
  - intros x y Hx Hy H. rewrite leb_fkey by assumption.
    apply Z.leb_le. apply precedes_ascending; assumption.
  - apply sort_keyed. exact Hl.
  - apply (sort_sorted (ascending key) (keyed key)); [| |exact Hl].
    + intros x y Hx Hy. rewrite !precedes_ascending by assumption. lia.
    + intros x y z Hx Hy Hz. rewrite !precedes_ascending by assumption. lia.
Qed.

Lemma sort_descending_sorted (l : list A) :
  Forall (keyed key) l ->
  StronglySorted (fun a b => (key b <=? key a)%float = true) (sort (descending key) l).
Proof.
  intros Hl.
  apply (StronglySorted_weaken (precedes (descending key)) _ (keyed key)).
  - intros x y Hx Hy H. rewrite leb_fkey by assumption.
    apply Z.leb_le. apply precedes_descending; assumption.
  - apply sort_keyed. exact Hl.
  - apply (sort_sorted (descending key) (keyed key)); [| |exact Hl].
    + intros x y Hx Hy. rewrite !precedes_descending by assumption. lia.
    + intros x y z Hx Hy Hz. rewrite !precedes_descending by assumption. lia.
Qed.

Lemma equiv_ascending (a b : A) :
  keyed key a -> keyed key b -> equiv (ascending key) a b = (key a =? key b)%float.
Proof.
  intros Ha Hb. unfold equiv, sorts_after, ascending.
  rewrite !sub_gtb_zero, !ltb_fkey, eqb_fkey by assumption.
  destruct (Z.ltb_spec (fkey (key b)) (fkey (key a))), (Z.ltb_spec (fkey (key a)) (fkey (key b))),
    (Z.eqb_spec (fkey (key a)) (fkey (key b))); cbn [negb andb]; try reflexivity; lia.
Qed.

(** Rows with equal keys keep the order they had. *)
Lemma sort_ascending_stable (a : A) (l : list A) :
  keyed key a -> Forall (keyed key) l ->
  filter (fun x => (key a =? key x)%float) (sort (ascending key) l) =
  filter (fun x => (key a =? key x)%float) l.
Proof.
  intros Ha Hl.
  assert (E : forall l', Forall (keyed key) l' ->
            filter (fun x => (key a =? key x)%float) l' = filter (equiv (ascending key) a) l').
  { intros l' Hl'. apply filter_ext_in. intros x Hx. rewrite Forall_forall in Hl'.
    symmetry. apply equiv_ascending; [exact Ha|apply Hl'; exact Hx]. }
  rewrite (E _ (sort_keyed _ _ Hl)), (E _ Hl).
  apply (sort_stable (ascending key) (keyed key)); try assumption.
  intros x y z Hx Hy Hz. rewrite !precedes_ascending by assumption. lia.
Qed.

End SortedByKey.

(** ** Facts about the sort with any comparator *)

Lemma sign_nonpos (v : float) : (sign v <= 0)%Z <-> (0 <? v)%float = false.
Proof.
  unfold sign. destruct (0 <? v)%float; [split; [lia|discriminate]|].
  destruct (v <? 0)%float; split; auto; lia.
Qed.

Lemma distinct_NoDup (l : list nat) : distinct l = true -> NoDup l.
Proof.
  induction l as [|i r IH]; cbn [distinct]; [constructor|].
  intros H. apply andb_true_iff in H. destruct H as [H1 H2].
  constructor; [|apply IH, H2].
  intros Hin. apply negb_true_iff in H1.
  assert (existsb (Nat.eqb i) r = true); [|congruence].
  apply existsb_exists. exists i. split; [exact Hin|apply Nat.eqb_refl].
Qed.

Lemma arranges_perm (n : nat) (places : list nat) :
  arranges n places = true -> Permutation places (seq 0 n).
Proof.
  unfold arranges. intros H.
  apply andb_true_iff in H. destruct H as [H Hd].
  apply andb_true_iff in H. destruct H as [Hl Hb].
  apply Nat.eqb_eq in Hl. rewrite forallb_forall in Hb.
  apply NoDup_Permutation_bis.
  - apply distinct_NoDup, Hd.
  - rewrite length_seq. lia.
  - intros i Hi. apply in_seq. specialize (Hb i Hi). apply Nat.ltb_lt in Hb. lia.
Qed.

Lemma places_all {A : Type} (l : list A) : forall k,
  flat_map (fun i => match nth_error l (i - k) with Some x => [x] | None => [] end)
           (seq k (List.length l)) = l.
Proof.
  induction l as [|x l IH]; intros k; cbn [List.length seq flat_map]; [reflexivity|].
  rewrite Nat.sub_diag. cbn [nth_error app]. f_equal.
  rewrite <- (IH (S k)) at 2. rewrite !flat_map_concat_map. f_equal.
  apply map_ext_in. intros i Hi. apply in_seq in Hi.
  replace (i - k)%nat with (S (i - S k)) by lia. reflexivity.
Qed.

Lemma reorder_perm {A : Type} (places : list nat) (l : list A) :
  Permutation (reorder places l) l.
Proof.
  unfold reorder. destruct (arranges (List.length l) places) eqn:E; [|reflexivity].
  set (g := fun i => match nth_error l i with Some x => [x] | None => [] end).
  assert (S : flat_map g (seq 0 (List.length l)) = l).
  { etransitivity; [|apply (places_all l 0)]. apply flat_map_ext.
    intros i. unfold g. rewrite Nat.sub_0_r. reflexivity. }
  apply (Permutation_trans (l' := flat_map g (seq 0 (List.length l)))).
  - apply Permutation_flat_map, arranges_perm, E.
  - rewrite S. reflexivity.
Qed.

Section ArraySortFacts.

Context {A : Type}.
Variable engine : (A -> A -> completion float) -> list A -> bool * list nat.
Variable comparefn : A -> A -> completion float.

#[local] Abbreviation compared := (compared comparefn).
#[local] Abbreviation compareValue := (compareValue comparefn).
#[local] Abbreviation consistent := (consistent comparefn).
#[local] Abbreviation arraySort := (arraySort engine comparefn).

Lemma compared_sign (x y : A) (s : Z) :
  compared x y = Some s -> s = sign (compareValue x y).
Proof.
  unfold JS.compared, JS.compareValue. destruct (comparefn x y); [|discriminate].
  intros E. injection E as <-. reflexivity.
Qed.

Lemma consistent_inv (l : list A) :
  consistent l = true ->
  forall x y, In x l -> In y l ->
    (exists v, comparefn x y = Normal v) /\
    sign (compareValue y x) = (- sign (compareValue x y))%Z /\
    forall z, In z l ->
      (sign (compareValue x y) <= 0)%Z -> (sign (compareValue y z) <= 0)%Z ->
      (sign (compareValue x z) <= 0)%Z.
Proof.
  unfold JS.consistent. intros H x y Hx Hy.
  rewrite forallb_forall in H. specialize (H x Hx).
  rewrite forallb_forall in H. specialize (H y Hy).
  destruct (compared x y) as [s|] eqn:Exy; [|discriminate].
  destruct (compared y x) as [t|] eqn:Eyx; [|discriminate].
  apply andb_true_iff in H. destruct H as [Ha Ht].
  apply Z.eqb_eq in Ha.
  pose proof (compared_sign _ _ _ Exy) as Sxy. pose proof (compared_sign _ _ _ Eyx) as Syx.
  split; [|split].
  - unfold JS.compared in Exy. destruct (comparefn x y) as [v|]; [eauto|discriminate].
  - congruence.
  - intros z Hz Hxy Hyz. rewrite forallb_forall in Ht. specialize (Ht z Hz).
    destruct (compared y z) as [u|] eqn:Eyz; [|discriminate].
    destruct (compared x z) as [v|] eqn:Exz; [|discriminate].
    rewrite (compared_sign _ _ _ Eyz) in Ht. rewrite (compared_sign _ _ _ Exz) in Ht.
    rewrite Sxy in Ht.
    apply orb_true_iff in Ht. destruct Ht as [Ht|Ht].
    + apply negb_true_iff, andb_false_iff in Ht. destruct Ht as [Ht|Ht]; apply Z.leb_gt in Ht; lia.
    + apply Z.leb_le in Ht. exact Ht.
Qed.

Lemma consistent_intro (l : list A) :
  (forall x y, In x l -> In y l -> exists v, comparefn x y = Normal v) ->
  (forall x y, In x l -> In y l ->
     sign (compareValue y x) = (- sign (compareValue x y))%Z) ->
  (forall x y z, In x l -> In y l -> In z l ->
     (sign (compareValue x y) <= 0)%Z -> (sign (compareValue y z) <= 0)%Z ->
     (sign (compareValue x z) <= 0)%Z) ->
  consistent l = true.
Proof.
  intros Hr Ha Ht. unfold JS.consistent.
  assert (C : forall x y, In x l -> In y l -> compared x y = Some (sign (compareValue x y))).
  { intros x y Hx Hy. destruct (Hr x y Hx Hy) as [v E].
    unfold JS.compared, JS.compareValue. rewrite E. reflexivity. }
  apply forallb_forall. intros x Hx. apply forallb_forall. intros y Hy.
  rewrite (C x y Hx Hy), (C y x Hy Hx). apply andb_true_iff. split.
  - apply Z.eqb_eq, Ha; assumption.
  - apply forallb_forall. intros z Hz. rewrite (C y z Hy Hz), (C x z Hx Hz).
    destruct (Z.leb_spec (sign (compareValue x y)) 0) as [H1|H1]; [|reflexivity].
    destruct (Z.leb_spec (sign (compareValue y z)) 0) as [H2|H2]; [|reflexivity].
    cbn [andb negb orb]. apply Z.leb_le. apply (Ht x y z); assumption.
Qed.

Lemma consistent_total (l : list A) :
  consistent l = true ->
  forall x y, In x l -> In y l ->
    precedes compareValue x y \/ precedes compareValue y x.
Proof.
  intros H x y Hx Hy. destruct (consistent_inv l H x y Hx Hy) as (_ & Ha & _).
  unfold precedes, sorts_after. rewrite <- !sign_nonpos. lia.
Qed.

Lemma consistent_trans (l : list A) :
  consistent l = true ->
  forall x y z, In x l -> In y l -> In z l ->
    precedes compareValue x y -> precedes compareValue y z -> precedes compareValue x z.
Proof.
  intros H x y z Hx Hy Hz. destruct (consistent_inv l H x y Hx Hy) as (_ & _ & Ht).
  unfold precedes, sorts_after. rewrite <- !sign_nonpos. apply Ht, Hz.
Qed.

Lemma sort_short (f : A -> A -> float) (l : list A) :
  (List.length l < 2)%nat -> sort f l = l.
Proof.
  destruct l as [|x [|y l]]; cbn [List.length]; try reflexivity. lia.
Qed.

(** With a consistent comparator the sort returns, and what it returns
    is the stable sorted arrangement. *)
Lemma arraySort_consistent (l : list A) :
  consistent l = true -> arraySort l = Normal (sort compareValue l).
Proof.
  intros H. unfold JS.arraySort.
  destruct (Nat.ltb_spec (List.length l) 2) as [L|L].
  - rewrite sort_short by exact L. reflexivity.
  - rewrite H. reflexivity.
Qed.

(** Whatever the comparator, an array the sort returns holds the
    elements it held. *)
Lemma arraySort_perm (l l' : list A) : arraySort l = Normal l' -> Permutation l' l.
Proof.
  unfold JS.arraySort.
  destruct (List.length l <? 2)%nat; [intros E; injection E as <-; reflexivity|].
  destruct (JS.consistent comparefn l); [intros E; injection E as <-; apply sort_perm|].
  destruct (forallb _ l); [discriminate|].
  destruct (engine comparefn l) as [thrown places].
  destruct (thrown && _); [discriminate|].
  intros E. injection E as <-. apply reorder_perm.
Qed.

(** The sort throws only if the comparator does. *)
Lemma arraySort_returns (l : list A) :
  (forall x y, In x l -> In y l -> throwsAt comparefn x y = false) ->
  exists l', arraySort l = Normal l'.
Proof.
  intros H. unfold JS.arraySort.
  destruct (List.length l <? 2)%nat eqn:L; [eauto|].
  destruct (JS.consistent comparefn l); [eauto|].
  assert (E1 : forallb (fun x => forallb (throwsAt comparefn x) l) l = false).
  { destruct l as [|x l]; [discriminate|].
    cbn [forallb]. rewrite (H x x) by (left; reflexivity). reflexivity. }
  assert (E2 : existsb (fun x => existsb (throwsAt comparefn x) l) l = false).
  { apply not_true_is_false. intros E. apply existsb_exists in E.
    destruct E as (x & Hx & E). apply existsb_exists in E. destruct E as (y & Hy & E).
    rewrite (H x y Hx Hy) in E. discriminate. }
  rewrite E1. destruct (engine comparefn l) as [thrown places].
  rewrite E2, andb_false_r. eauto.
Qed.


End ArraySortFacts.

Section Returning.

Context {A : Type}.
Variable engine : (A -> A -> completion float) -> list A -> bool * list nat.
Variable f : A -> A -> float.

Lemma compareValue_returning (x y : A) : compareValue (returning f) x y = f x y.
Proof. reflexivity. Qed.

(** A comparator that never throws and is a consistent comparison on
    the elements of [l] sorts them as [sort] does. *)
Lemma arraySort_returning (P : A -> Prop) (l : list A) :
  Forall P l ->
  (forall x y, P x -> P y -> sign (f y x) = (- sign (f x y))%Z) ->
  (forall x y z, P x -> P y -> P z ->
     precedes f x y -> precedes f y z -> precedes f x z) ->
  arraySort engine (returning f) l = Normal (sort f l).
Proof.
  intros Hl Ha Ht. rewrite Forall_forall in Hl.
  rewrite arraySort_consistent.
  - reflexivity.
  - apply consistent_intro.
    + intros x y _ _. eexists. reflexivity.
    + intros x y Hx Hy. apply Ha; auto.
    + intros x y z Hx Hy Hz. cbn [compareValue returning]. rewrite !sign_nonpos.
      apply Ht; auto.
Qed.

Lemma arraySort_returning_returns (l : list A) :
  exists l', arraySort engine (returning f) l = Normal l' /\ Permutation l' l.
Proof.
  destruct (arraySort_returns engine (returning f) l) as [l' E]; [reflexivity|].
  exists l'. split; [exact E|]. apply (arraySort_perm engine (returning f)), E.
Qed.

Lemma arraySort_sortWith (l : list A) :
  arraySort engine (returning f) l = Normal (sortWith engine f l).
Proof.
  unfold arraySort, sortWith.
  destruct (List.length l <? 2)%nat eqn:L; [reflexivity|].
  destruct (consistent (returning f) l); [reflexivity|].
  assert (E1 : forallb (fun x => forallb (throwsAt (returning f) x) l) l = false).
  { destruct l as [|x l]; [discriminate|]. reflexivity. }
  rewrite E1. destruct (engine (returning f) l) as [thrown places]. cbn [snd].
  assert (E2 : existsb (fun x => existsb (throwsAt (returning f) x) l) l = false).
  { clear. induction l as [|x r IH]; [reflexivity|]. cbn [existsb].
    assert (E : forall r', existsb (throwsAt (returning f) x) r' = false).
    { induction r' as [|y r' IH']; [reflexivity|exact IH']. }
    rewrite E. cbn [orb].
    clear IH. induction r as [|y r IH]; [reflexivity|]. cbn [existsb].
    assert (E' : forall r', existsb (throwsAt (returning f) y) r' = false).
    { induction r' as [|z r' IH']; [reflexivity|exact IH']. }
    rewrite E'. exact IH. }
  rewrite E2, andb_false_r. reflexivity.
Qed.

Lemma sortWith_perm (l : list A) : Permutation (sortWith engine f l) l.
Proof. apply (arraySort_perm engine (returning f)), arraySort_sortWith. Qed.

(** With a comparator that is a consistent comparison on the elements,
    [sortWith] is [sort]. *)
Lemma sortWith_sort (P : A -> Prop) (l : list A) :
  Forall P l ->
  (forall x y, P x -> P y -> sign (f y x) = (- sign (f x y))%Z) ->
  (forall x y z, P x -> P y -> P z ->
     precedes f x y -> precedes f y z -> precedes f x z) ->
  sortWith engine f l = sort f l.
Proof.
  intros Hl Ha Ht.
  pose proof (arraySort_returning P l Hl Ha Ht) as E.
  rewrite arraySort_sortWith in E. injection E as E. exact E.
Qed.

End Returning.

(** The sign of a difference of two numbers is the order of the two. *)
Lemma sign_sub (x y : float) :
  is_nan x = false -> is_nan y = false ->
  sign (x - y) = match (fkey x ?= fkey y)%Z with Lt => (-1)%Z | Eq => 0%Z | Gt => 1%Z end.
Proof.
  intros Hx Hy. unfold sign.
  rewrite sub_gtb_zero, sub_ltb_zero, !ltb_fkey by assumption.
  destruct (Z.compare_spec (fkey x) (fkey y)) as [E|E|E].
  - rewrite E, Z.ltb_irrefl. reflexivity.
  - destruct (Z.ltb_spec (fkey y) (fkey x)); [lia|].
    destruct (Z.ltb_spec (fkey x) (fkey y)); [reflexivity|lia].
  - destruct (Z.ltb_spec (fkey y) (fkey x)); [reflexivity|lia].
Qed.

Section SortWithKey.

Context {A : Type}.
Variable engine : (A -> A -> completion float) -> list A -> bool * list nat.
Variable key : A -> float.

Lemma sortWith_ascending (l : list A) :
  Forall (keyed key) l -> sortWith engine (ascending key) l = sort (ascending key) l.
Proof.
  intros H. apply (sortWith_sort engine (ascending key) (keyed key) l H).
  - intros x y Hx Hy. unfold ascending. rewrite !sign_sub by assumption.
    rewrite (Z.compare_antisym (fkey (key x)) (fkey (key y))).
    destruct (fkey (key x) ?= fkey (key y))%Z; reflexivity.
  - intros x y z Hx Hy Hz. rewrite !precedes_ascending by assumption. lia.
Qed.

Lemma sortWith_descending (l : list A) :
  Forall (keyed key) l -> sortWith engine (descending key) l = sort (descending key) l.
Proof.
  intros H. apply (sortWith_sort engine (descending key) (keyed key) l H).
  - intros x y Hx Hy. unfold descending. rewrite !sign_sub by assumption.
    rewrite (Z.compare_antisym (fkey (key x)) (fkey (key y))).
    destruct (fkey (key x) ?= fkey (key y))%Z; reflexivity.
  - intros x y z Hx Hy Hz. rewrite !precedes_descending by assumption. lia.
Qed.

End SortWithKey.

End JS.

(** * The program

    The definitions follow [bin/llm-cost.mjs] from top to bottom; the
    properties come after them. *)
Module LlmCost.

Import IEEE JS.

#[local] Open Scope string_scope.
#[local] Open Scope list_scope.
#[local] Open Scope float_scope.

(** ** Data model *)

(** What [extractProvider] finds: a name, or the member of
    [Object.prototype] that the vendor slug names (a function, or the
    prototype itself for [__proto__]). *)
Inductive Provider : Type :=
| ProviderName (s : string)
| Inherited (member : string).

(** A model object, for a provider of type [P].  A flag the fallback
    table leaves out reads as false, a missing description as the empty
    string; [None] is [null]. *)
Record ModelWith (P : Type) : Type := {
  id : string;
  provider : P;
  name : string;
  input : float;
  output : float;
  context : float;
  maxOutput : option float;
  vision : bool;
  audio : bool;
  video : bool;
  imageOut : bool;
  tools : bool;
  reasoning : bool;
  structuredOutput : bool;
  cacheRead : option float;
  cacheWrite : option float;
  thinkingCost : option float;
  description : string
}.

Arguments Build_ModelWith {P}.
Arguments id {P} _.
Arguments provider {P} _.
Arguments name {P} _.
Arguments input {P} _.
Arguments output {P} _.
Arguments context {P} _.
Arguments maxOutput {P} _.
Arguments vision {P} _.
Arguments audio {P} _.
Arguments video {P} _.
Arguments imageOut {P} _.
Arguments tools {P} _.
Arguments reasoning {P} _.
Arguments structuredOutput {P} _.
Arguments cacheRead {P} _.
Arguments cacheWrite {P} _.
Arguments thinkingCost {P} _.
Arguments description {P} _.

(** A model of the data model: its provider is a name. *)
Abbreviation Model := (ModelWith string).

(** An object [fetchLivePricing] pushes: its provider is whatever
    [extractProvider] found. *)
Abbreviation Pushed := (ModelWith Provider).

(** The same object with [q] for provider. *)
Definition withProvider {P Q : Type} (q : Q) (m : ModelWith P) : ModelWith Q :=
  {| id := id m; provider := q; name := name m;
     input := input m; output := output m; context := context m;
     maxOutput := maxOutput m;
     vision := vision m; audio := audio m; video := video m; imageOut := imageOut m;
     tools := tools m; reasoning := reasoning m; structuredOutput := structuredOutput m;
     cacheRead := cacheRead m; cacheWrite := cacheWrite m; thinkingCost := thinkingCost m;
     description := description m |}.

(** The model a pushed object is, when its provider is a name. *)
Definition named (m : Pushed) : option Model :=
  match provider m with
  | ProviderName s => Some (withProvider s m)
  | Inherited _ => None
  end.

(** [Some] of the results when [f] gives one for every element. *)
Fixpoint collect {A B : Type} (f : A -> option B) (l : list A) : option (list B) :=
  match l with
  | [] => Some []
  | x :: rest =>
      match f x, collect f rest with
      | Some y, Some ys => Some (y :: ys)
      | _, _ => None
      end
  end.

(** The array of pushed objects as a value: a list of models when every
    provider is a name. *)
Definition array (ms : list Pushed) : value Model :=
  match collect named ms with
  | Some l => Records l
  | None => Untyped
  end.

(** A record of the aggregator's response; [None] is an absent or [null]
    field. *)
Module Raw.

Record Pricing : Type := {
  prompt : option string;
  completion : option string;
  input_cache_read : option string;
  input_cache_write : option string;
  internal_reasoning : option string
}.

Record Architecture : Type := {
  input_modalities : option (list string);
  output_modalities : option (list string)
}.

Record TopProvider : Type := {
  max_completion_tokens : option float
}.

Record Model : Type := {
  id : string;
  name : option string;
  pricing : option Pricing;
  context_length : option float;
  top_provider : option TopProvider;
  architecture : option Architecture;
  supported_parameters : option (list string);
  description : option string
}.

End Raw.

(** ** Provider names *)

Definition PROVIDER_MAP : list (string * string) :=
  [ ("openai", "OpenAI"); ("anthropic", "Anthropic"); ("google", "Google");
    ("deepseek", "DeepSeek"); ("meta-llama", "Meta"); ("x-ai", "xAI");
    ("mistralai", "Mistral"); ("cohere", "Cohere"); ("qwen", "Qwen");
    ("amazon", "Amazon"); ("nvidia", "NVIDIA"); ("microsoft", "Microsoft");
    ("perplexity", "Perplexity"); ("ai21", "AI21"); ("together", "Together");
    ("fireworks", "Fireworks"); ("groq", "Groq") ].

Fixpoint assoc (k : string) (table : list (string * string)) : option string :=
  match table with
  | [] => None
  | (k', v) :: rest => if String.eqb k k' then Some v else assoc k rest
  end.

Definition includes_item (l : list string) (x : string) : bool :=
  existsb (String.eqb x) l.

(** [PROVIDER_MAP[slug] || slug]: the lookup goes through the prototype
    chain, so a slug that names a member of [Object.prototype] finds that
    member, which is truthy. *)
Definition extractProvider (modelId : string) : Provider :=
  let slug := split_head "/" modelId in
  match assoc slug PROVIDER_MAP with
  | Some p => ProviderName p
  | None => if includes_item objectPrototypeMembers slug then Inherited slug
            else ProviderName slug
  end.

(** The [length] of a member of [Object.prototype]: the number of
    parameters of the function; [None], that is [undefined], for the
    prototype itself and for a name that is no member. *)
Definition memberLength (member : string) : option nat :=
  if includes_item ["toString"; "valueOf"; "toLocaleString"] member then Some 0%nat
  else if includes_item ["constructor"; "hasOwnProperty"; "isPrototypeOf";
                         "propertyIsEnumerable"; "__lookupGetter__"; "__lookupSetter__"] member
  then Some 1%nat
  else if includes_item ["__defineGetter__"; "__defineSetter__"] member then Some 2%nat
  else None.

(** [provider.length] *)
Definition providerLength (provider : Provider) : option nat :=
  match provider with
  | ProviderName s => Some (String.length s)
  | Inherited member => memberLength member
  end.

(** ** Normalisation *)

Section Normaliser.

(** The text a built-in function converts to, the host's: the source
    text of a native function is implementation-defined. *)
Variable functionText : string -> string.

(** The string [provider] converts to. *)
Definition providerText (provider : Provider) : string :=
  match provider with
  | ProviderName s => s
  | Inherited member =>
      if String.eqb member "__proto__" then "[object Object]" else functionText member
  end.

(** [name.slice(provider.length + 2)] behind the test; the slice starts
    at 0 when [provider.length] is [undefined]. *)
Definition cleanName (name : string) (provider : Provider) : string :=
  if startsWith name (providerText provider ++ ": ")%string
  then match providerLength provider with
       | Some n => slice_from (n + 2) name
       | None => name
       end
  else name.

(** [field || "0"] for a price field of [m.pricing]. *)
Definition priceText (field : option string) : string :=
  match field with
  | Some s => if truthy_string s then s else "0"
  | None => "0"
  end.

Definition priceField (f : Raw.Pricing -> option string) (m : Raw.Model) : option string :=
  match Raw.pricing m with
  | Some p => f p
  | None => None
  end.

Definition inputPerToken (m : Raw.Model) : float :=
  parseFloat (priceText (priceField Raw.prompt m)).

Definition outputPerToken (m : Raw.Model) : float :=
  parseFloat (priceText (priceField Raw.completion m)).

(** [parseFloat((perToken * 1_000_000).toFixed(4))] *)
Definition perMillion (perToken : float) : float :=
  parseFloat (toFixed (perToken * 1000000) 4).

(** [field ? parseFloat((parseFloat(field) * 1_000_000).toFixed(4)) : null] *)
Definition extraPrice (field : option string) : option float :=
  match field with
  | Some s => if truthy_string s then Some (perMillion (parseFloat s)) else None
  | None => None
  end.

Definition numberOr0 (x : option float) : float :=
  match x with
  | Some v => if truthy_number v then v else 0
  | None => 0
  end.

Definition textOr (x : option string) (default : string) : string :=
  match x with
  | Some s => if truthy_string s then s else default
  | None => default
  end.

(** The object pushed for a record that is not skipped. *)
Definition toModel (m : Raw.Model) : Pushed :=
  let provider := extractProvider (Raw.id m) in
  let inputMods :=
    match Raw.architecture m with
    | Some a => match Raw.input_modalities a with Some l => l | None => ["text"] end
    | None => ["text"]
    end in
  let outputMods :=
    match Raw.architecture m with
    | Some a => match Raw.output_modalities a with Some l => l | None => ["text"] end
    | None => ["text"]
    end in
  let params := match Raw.supported_parameters m with Some l => l | None => [] end in
  {| id := Raw.id m;
     provider := provider;
     name := cleanName (textOr (Raw.name m) (split_last "/" (Raw.id m))) provider;
     input := perMillion (inputPerToken m);
     output := perMillion (outputPerToken m);
     context := numberOr0 (Raw.context_length m);
     maxOutput := Some (numberOr0 (match Raw.top_provider m with
                                   | Some t => Raw.max_completion_tokens t
                                   | None => None
                                   end));
     vision := includes_item inputMods "image";
     audio := includes_item inputMods "audio";
     video := includes_item inputMods "video";
     imageOut := includes_item outputMods "image";
     tools := includes_item params "tools";
     reasoning := includes_item params "reasoning" || includes_item params "include_reasoning";
     structuredOutput := includes_item params "structured_outputs";
     cacheRead := extraPrice (priceField Raw.input_cache_read m);
     cacheWrite := extraPrice (priceField Raw.input_cache_write m);
     thinkingCost := extraPrice (priceField Raw.internal_reasoning m);
     description := slice_to 200 (textOr (Raw.description m) "") |}.

(** The three [continue] tests of the loop, in the order of the source. *)
Definition unpriced (m : Raw.Model) : bool :=
  (inputPerToken m =? 0) && (outputPerToken m =? 0).

Definition metaModel (m : Raw.Model) : bool :=
  startsWith (Raw.id m) "openrouter/".

(** The body of [for (const m of data)]: [models] and [seen] are the two
    accumulators. *)
Fixpoint normalizeLoop (data : list Raw.Model) (models : list Pushed) (seen : list string)
  : list Pushed :=
  match data with
  | [] => models
  | m :: rest =>
      if unpriced m then normalizeLoop rest models seen
      else if includes_item seen (Raw.id m) then normalizeLoop rest models seen
      else if metaModel m then normalizeLoop rest models seen
      else normalizeLoop rest (models ++ [toModel m]) (Raw.id m :: seen)
  end.

Definition normalize (data : list Raw.Model) : list Pushed :=
  normalizeLoop data [] [].

End Normaliser.

(** ** Cost *)

Record Cost : Type := {
  inputCost : float;
  outputCost : float;
  totalCost : float
}.

Definition calculateCost (model : Model) (inputTokens outputTokens : float) : Cost :=
  let inputCost := (inputTokens / 1000000) * input model in
  let outputCost := (outputTokens / 1000000) * output model in
  {| inputCost := inputCost; outputCost := outputCost; totalCost := inputCost + outputCost |}.

(** ** Fallback data *)

Definition fallbackModel (id provider name : string) (input output context maxOutput : float)
  (vision tools reasoning structuredOutput : bool) : Model :=
  {| id := id; provider := provider; name := name;
     input := input; output := output;
     context := context; maxOutput := Some maxOutput;
     vision := vision; audio := false; video := false; imageOut := false;
     tools := tools; reasoning := reasoning; structuredOutput := structuredOutput;
     cacheRead := None; cacheWrite := None; thinkingCost := None;
     description := "" |}.

Definition FALLBACK_MODELS : list Model :=
  [ fallbackModel "openai/gpt-4.1" "OpenAI" "GPT-4.1" 2.00 8.00 1047576 32768 true true false true;
    fallbackModel "openai/gpt-4.1-mini" "OpenAI" "GPT-4.1 Mini" 0.40 1.60 1047576 32768 true true false true;
    fallbackModel "openai/gpt-4.1-nano" "OpenAI" "GPT-4.1 Nano" 0.10 0.40 1047576 32768 true true false true;
    fallbackModel "openai/o3" "OpenAI" "o3" 10.00 40.00 200000 100000 true true true true;
    fallbackModel "openai/o4-mini" "OpenAI" "o4-mini" 1.10 4.40 200000 100000 true true true true;
    fallbackModel "anthropic/claude-sonnet-4.5" "Anthropic" "Claude Sonnet 4.5" 3.00 15.00 1000000 64000 true true true true;
    fallbackModel "anthropic/claude-haiku-3.5" "Anthropic" "Claude Haiku 3.5" 0.80 4.00 200000 8192 true true false false;
    fallbackModel "google/gemini-2.5-pro" "Google" "Gemini 2.5 Pro" 1.25 10.00 1048576 65536 true true true true;
    fallbackModel "google/gemini-2.5-flash" "Google" "Gemini 2.5 Flash" 0.15 0.60 1048576 65536 true true true true;
    fallbackModel "deepseek/deepseek-chat" "DeepSeek" "DeepSeek V3" 0.27 1.10 131072 8192 false true false false;
    fallbackModel "deepseek/deepseek-r1" "DeepSeek" "DeepSeek R1" 0.55 2.19 163840 8192 false false true false;
    fallbackModel "x-ai/grok-3" "xAI" "Grok 3" 3.00 15.00 131072 8192 false true false false;
    fallbackModel "x-ai/grok-3-mini" "xAI" "Grok 3 Mini" 0.30 0.50 131072 8192 false true true false;
    fallbackModel "mistralai/mistral-large" "Mistral" "Mistral Large" 2.00 6.00 128000 8192 false true false true;
    fallbackModel "mistralai/mistral-small" "Mistral" "Mistral Small" 0.10 0.30 128000 8192 false true false true ].

(** ** Best-for ranking *)

Record Category : Type := {
  label : string;
  qualifies : Model -> bool;
  ranking : option (Model -> Model -> float)
}.

Definition sumPrice (m : Model) : float := input m + output m.

(** [(a, b) => (a.input + a.output) - (b.input + b.output)] *)
Definition byCost : Model -> Model -> float := ascending sumPrice.

(** [(a, b) => b.context - a.context] *)
Definition byContext : Model -> Model -> float := descending context.

Definition maxOutputOr0 (m : Model) : float := numberOr0 (maxOutput m).

(** [(a, b) => (b.maxOutput || 0) - (a.maxOutput || 0)] *)
Definition byMaxOutput : Model -> Model -> float := descending maxOutputOr0.

Definition cheapest (label : string) (filter : Model -> bool) : Category :=
  {| label := label; qualifies := filter; ranking := None |}.

Definition costCategories : list Category :=
  [ cheapest "Cheapest overall" (fun _ => true);
    cheapest "Cheapest with vision" vision;
    cheapest "Cheapest with tools" tools;
    cheapest "Cheapest reasoning/CoT" reasoning;
    cheapest "Cheapest JSON output" structuredOutput;
    cheapest "Cheapest ≥128K context" (fun m => 128000 <=? context m);
    cheapest "Cheapest ≥1M context" (fun m => 1000000 <=? context m);
    cheapest "Cheapest with audio" audio ].

Definition biggestContext : Category :=
  {| label := "Biggest context window"; qualifies := fun _ => true; ranking := Some byContext |}.

Definition biggestMaxOutput : Category :=
  {| label := "Biggest max output"; qualifies := fun _ => true; ranking := Some byMaxOutput |}.

Definition categories : list Category :=
  costCategories ++ [biggestContext; biggestMaxOutput].

(** ** The cache file, the clock and the network *)

(** The cache file as [existsSync], [readFileSync] and [JSON.parse] find
    it: absent; present but unreadable; or readable, holding text that
    parses to a value or does not parse. *)
Inductive FileState : Type :=
| NoFile
| Unreadable
| Content (parsed : option (value Model)).

(** The one request: it fails (network error, timeout, a status that is
    not 2xx, a body that is not the expected JSON) or delivers [data]. *)
Inductive Response : Type :=
| FetchFails
| FetchData (data : list Raw.Model).

Record World : Type := {
  file : FileState;
  now : float;
  network : Response;
  writable : bool;
  requests : nat
}.

Record ResolvedSet : Type := {
  models : value Model;
  source : string
}.

Definition CACHE_TTL_MS : float := 6 * 60 * 60 * 1000.

Definition existsSync : M World bool :=
  fun w => (Normal (match file w with NoFile => false | _ => true end), w).

(** [JSON.parse(readFileSync(CACHE_FILE, "utf-8"))] *)
Definition readAndParse : M World (value Model) :=
  fun w => match file w with
           | Content (Some v) => (Normal v, w)
           | _ => (Throw, w)
           end.

Definition dateNow : M World float := fun w => (Normal (now w), w).

(** What a number is once [JSON.stringify] has written it and
    [JSON.parse] has read it: [null], here [None], for NaN and the
    infinities; [0] for both zeros. *)
Definition storedNumber (x : float) : option float :=
  match Prim2SF x with
  | S754_zero _ => Some 0
  | S754_finite _ _ _ => Some x
  | _ => None
  end.

Definition storedOptional (x : option float) : option float :=
  match x with
  | Some v => storedNumber v
  | None => None
  end.

(** What a pushed object is once written and read: a model when its
    provider is a name and its two prices and its context size are
    numbers JSON can write.  (A provider that is a function is left out,
    the prototype is written as an empty object, and a number JSON cannot
    write becomes [null]: the object read is then no model.) *)
Definition storedModel (m : Pushed) : option Model :=
  match provider m, storedNumber (input m), storedNumber (output m), storedNumber (context m) with
  | ProviderName s, Some i, Some o, Some c =>
      Some {| id := id m; provider := s; name := name m;
              input := i; output := o; context := c;
              maxOutput := storedOptional (maxOutput m);
              vision := vision m; audio := audio m; video := video m;
              imageOut := imageOut m;
              tools := tools m; reasoning := reasoning m;
              structuredOutput := structuredOutput m;
              cacheRead := storedOptional (cacheRead m);
              cacheWrite := storedOptional (cacheWrite m);
              thinkingCost := storedOptional (thinkingCost m);
              description := description m |}
  | _, _, _, _ => None
  end.

(** What [JSON.parse] reads in the file [writeFileSync] has written:
    [{ timestamp, models }] after [JSON.stringify]. *)
Definition snapshot (timestamp : float) (models : list Pushed) : value Model :=
  Obj [("timestamp", match storedNumber timestamp with
                     | Some t => Num t
                     | None => Null
                     end);
       ("models", match collect storedModel models with
                  | Some l => Records l
                  | None => Untyped
                  end)].

Definition writeCache (models : list Pushed) : M World unit :=
  fun w =>
    if writable w
    then (Normal tt, {| file := Content (Some (snapshot (now w) models));
                        now := now w; network := network w;
                        writable := writable w; requests := requests w |})
    else (Normal tt, w).

(** ** The command line *)

(** The record [parseArgs] returns; [None] is [null]. *)
Module Args.

Record t : Type := {
  prompt : option string;
  inputTokens : option float;
  outputTokens : option float;
  models : option (list string);
  providers : option (list string);
  monthly : option float;
  sort : string;
  json : bool;
  cheap : bool;
  help : bool;
  version : bool;
  list : bool;
  refresh : bool;
  top : option float;
  detail : option string;
  vision : bool;
  tools : bool;
  reasoning : bool;
  minContext : option float;
  caps : bool;
  bestFor : bool
}.

End Args.

(** A model with the costs computed for it. *)
Record Row : Type := {
  model : Model;
  cost : Cost;
  monthlyCost : float
}.

(** What the process writes, as data: the text layout is not modelled. *)
Inductive Output : Type :=
| Version
| Help
| Listing (listed : list Model) (source : string)
| BestFor (lines : list (string * option Model))
| Detail (m : Model)
| NoModelFound
| NoModelsMatched
| Json (input_tokens output_tokens : float) (source : string)
       (monthly_requests : option float)
       (entries : list (list (string * value Model)))
| Table (display : list Row) (all : list Row)
| Uncaught.

Record Outcome : Type := {
  exitCode : Z;
  shown : Output
}.

(** What the lookup of a sort key finds: something that is no function,
    or a function of two rows, which returns a number or throws. *)
Inductive Comparator : Type :=
| NotCallable
| Comparing (comparefn : Row -> Row -> completion float).

Definition sourceLabel (source : string) : string :=
  if String.eqb source "live" then "live from OpenRouter"
  else if String.eqb source "cache" then "cached"
  else if String.eqb source "stale-cache" then "stale cache (offline)"
  else if String.eqb source "fallback" then "offline fallback"
  else source.

Definition truthyNumber (x : option float) : bool :=
  match x with
  | Some v => truthy_number v
  | None => false
  end.

Definition truthyText (x : option string) : bool :=
  match x with
  | Some s => truthy_string s
  | None => false
  end.

(** [Math.max] of two numbers. *)
Definition mathMax (a b : float) : float :=
  if is_nan a || is_nan b then nan
  else if a <? b then b
  else if b <? a then a
  else if Leibniz.eqb a neg_zero then b else a.

Definition numberOfNat (n : nat) : float := number_of_decimal false (N.of_nat n) 0.

(** [Math.ceil]: the least integer that is not below [x].  A zero, an
    infinity, NaN and a number with no fractional bits are returned as
    they are; below zero the result is minus the whole part, [-0] when
    that is 0. *)
Definition mathCeil (x : float) : float :=
  match Prim2SF x with
  | S754_finite s m (Zneg k) =>
      let whole := Z.shiftr (Zpos m) (Zpos k) in
      if s then number_of_decimal true (Z.to_N whole) 0
      else if (Z.shiftl whole (Zpos k) =? Zpos m)%Z then x
      else number_of_decimal false (Z.to_N (whole + 1)) 0
  | _ => x
  end.

(** [Math.max(1, Math.ceil(text.length / 4))] *)
Definition estimateTokens (text : string) : float :=
  mathMax 1 (mathCeil (numberOfNat (String.length text) / 4)).

(** [l.slice(0, n)] *)
Definition sliceTo {A : Type} (n : float) (l : list A) : list A :=
  match Prim2SF n with
  | S754_infinity false => l
  | S754_finite s m e =>
      let k := Z.to_nat (match e with
                         | Zneg p => Zpos m / 2 ^ Zpos p
                         | _ => Zpos m * 2 ^ e
                         end)%Z in
      if s then firstn (List.length l - k) l else firstn k l
  | _ => []
  end.

(** [JSON.stringify] of an object's own properties: a property whose
    value is [undefined] is left out, a number that is not finite is
    written [null].  (The nested objects here hold booleans only.) *)
Definition stringifyProperties (fields : list (string * value Model))
  : list (string * value Model) :=
  flat_map (fun kv =>
    match snd kv with
    | Undefined => []
    | Num x => if is_nan x || (abs x =? infinity) then [(fst kv, Null)] else [kv]
    | _ => [kv]
    end) fields.

(** [...(x ? { key: x } : {})] *)
Definition optionalNumber (key : string) (x : option float) : list (string * value Model) :=
  match x with
  | Some v => if truthy_number v then [(key, Num v)] else []
  | None => []
  end.

(** One element of the [models] array of the JSON output. *)
Definition jsonEntry (monthly : option float) (r : Row) : list (string * value Model) :=
  let m := model r in
  stringifyProperties
    ([ ("id", Str (id m)); ("provider", Str (provider m)); ("name", Str (name m));
       ("input_per_1m", Num (input m)); ("output_per_1m", Num (output m));
       ("context_window", Num (context m));
       ("max_output", match maxOutput m with
                      | Some v => if truthy_number v then Num v else Undefined
                      | None => Undefined
                      end);
       ("estimated_cost", Num (parseFloat (toFixed (totalCost (cost r)) 6))) ]
     ++ (if truthyNumber monthly
         then [("monthly_cost", Num (parseFloat (toFixed (monthlyCost r) 2)))]
         else [])
     ++ [ ("capabilities",
           Obj [ ("vision", Bool (vision m)); ("audio", Bool (audio m));
                 ("tools", Bool (tools m)); ("reasoning", Bool (reasoning m));
                 ("structured_output", Bool (structuredOutput m)) ]) ]
     ++ optionalNumber "cache_read_per_1m" (cacheRead m)
     ++ optionalNumber "cache_write_per_1m" (cacheWrite m)
     ++ optionalNumber "thinking_per_1m" (thinkingCost m)).

(** ** The groups [listModels] prints *)

(** [byProvider[m.provider].push(m)], the property being created first
    when the object has none of that name: [groups] holds the object's
    own properties in the order of their creation. *)
Fixpoint pushGroup (m : Model) (groups : list (string * list Model)) : list (string * list Model) :=
  match groups with
  | [] => [(provider m, [m])]
  | (p, ms) :: rest =>
      if String.eqb p (provider m) then (p, ms ++ [m]) :: rest
      else (p, ms) :: pushGroup m rest
  end.

(** The [forEach] that fills [byProvider]; [None] when it throws: a
    provider that names a member of [Object.prototype] reads as that
    member, which is truthy and has no [push]. *)
Fixpoint groupModels (models : list Model) (groups : list (string * list Model))
  : option (list (string * list Model)) :=
  match models with
  | [] => Some groups
  | m :: rest =>
      if includes_item objectPrototypeMembers (provider m) then None
      else groupModels rest (pushGroup m groups)
  end.

Fixpoint insertIndexed (g : N * (string * list Model)) (l : list (N * (string * list Model)))
  : list (N * (string * list Model)) :=
  match l with
  | [] => [g]
  | h :: t => if (fst g <? fst h)%N then g :: l else h :: insertIndexed g t
  end.

(** [Object.entries]: the array indices first, in ascending order, then
    the other keys in the order of their creation. *)
Definition entries (groups : list (string * list Model)) : list (string * list Model) :=
  let indexed := flat_map (fun g => match arrayIndex (fst g) with
                                    | Some i => [(i, g)]
                                    | None => []
                                    end) groups in
  let named := filter (fun g => match arrayIndex (fst g) with
                                | Some _ => false
                                | None => true
                                end) groups in
  map snd (fold_right insertIndexed [] indexed) ++ named.

(** The groups [listModels] prints, in the order it prints them. *)
Definition byProvider (models : list Model) : option (list (string * list Model)) :=
  option_map entries (groupModels models []).

(** ** What depends on the host

    The collation, the conversion of a string to a number and the change
    of case are the host's: the program is a function of them. *)
Section Host.

(** [String.prototype.localeCompare], by the sign of its result.  The
    collation is the host's; the proofs use only that it is a consistent
    comparison. *)
Variable localeCompare : string -> string -> comparison.

(** StringToNumber, which [Date.now() - raw.timestamp] applies to a
    timestamp that is a string; left to the host. *)
Variable stringToNumber : string -> float.

(** [String.prototype.toLowerCase], the host's. *)
Variable toLowerCase : string -> string.

(** The text a built-in function converts to, the host's. *)
Variable functionText : string -> string.

(** What the host's sort does with a comparator that is not consistent
    on the array: see [arraySort]. *)
Variable engine : forall A : Type, (A -> A -> completion float) -> list A -> bool * list nat.

(** What the modes of the command do with [Untyped], an array that
    holds an object that is no model.  They are not described for it:
    the outcome is left open. *)
Variable exotic : Args.t -> string -> Outcome.

(** *** Sorting the normalised models *)

Definition localeCompareNumber (s t : string) : float :=
  match localeCompare s t with
  | Lt => -1
  | Eq => 0
  | Gt => 1
  end.

(** [a.provider.localeCompare(b.provider) || a.input - b.input]: a
    TypeError when [a.provider] is no string, as it has no
    [localeCompare]; [b.provider] is converted to a string. *)
Definition compareModels (a b : Pushed) : completion float :=
  match provider a with
  | ProviderName s =>
      let c := localeCompareNumber s (providerText functionText (provider b)) in
      Normal (if truthy_number c then c else input a - input b)
  | Inherited _ => Throw
  end.

(** What [fetchLivePricing] does with the response body [data]: the
    loop, then the sort, which lets the TypeError of the comparator
    out. *)
Definition fetchLivePricing (data : list Raw.Model) : completion (list Pushed) :=
  arraySort (engine Pushed) compareModels (normalize functionText data).

(** *** Best-for ranking *)

(** The model a category's line names, [None] for the line that shows a
    dash. *)
Definition best (cat : Category) (models : list Model) : option Model :=
  let filtered := filter (qualifies cat) models in
  match filtered with
  | [] => None
  | _ :: _ =>
      let sorted := match ranking cat with
                    | Some order => sortWith (engine Model) order filtered
                    | None => sortWith (engine Model) byCost filtered
                    end in
      hd_error sorted
  end.

(** One entry per printed line: the label and the model chosen. *)
Definition printBestFor (models : list Model) : list (string * option Model) :=
  map (fun cat => (label cat, best cat models)) categories.

(** *** The resolver *)

Definition hasKey (k : string) (fields : list (string * value Model)) : bool :=
  existsb (fun kv => String.eqb k (fst kv)) fields.

(** ToNumber.  An array goes through its [join]: the empty one gives the
    empty string, any other here holds objects.  An object goes through
    [valueOf] and [toString]: the inherited ones give ["[object Object]"],
    which is NaN; a [toString] of the object's own, which in parsed JSON
    is no function, leaves nothing to call, and that is a TypeError. *)
Definition toNumber (v : value Model) : completion float :=
  match v with
  | Undefined => Normal nan
  | Null => Normal 0
  | Bool b => Normal (if b then 1 else 0)
  | Num x => Normal x
  | Str s => Normal (stringToNumber s)
  | Records [] => Normal 0
  | Records (_ :: _) => Normal nan
  | Untyped => Normal nan
  | Obj fields => if hasKey "toString" fields then Throw else Normal nan
  end.

Definition readCache : M World (value Model) :=
  try_catch
    (bind existsSync (fun present =>
       if negb present then ret Null
       else
         bind readAndParse (fun raw =>
         bind dateNow (fun t =>
         bind (get raw "timestamp") (fun timestamp =>
         bind (lift (toNumber timestamp)) (fun stamp =>
           if CACHE_TTL_MS <? t - stamp then ret Null
           else get raw "models"))))))
    (ret Null).

(** The request and, on success, the normalised and sorted objects. *)
Definition fetchLive : M World (list Pushed) :=
  fun w =>
    let w' := {| file := file w; now := now w; network := network w;
                 writable := writable w; requests := S (requests w) |} in
    match network w with
    | FetchFails => (Throw, w')
    | FetchData data => (fetchLivePricing data, w')
    end.

Definition fallbackSet : ResolvedSet :=
  {| models := Records FALLBACK_MODELS; source := "fallback" |}.

(** The [catch] block: the stale read, then the fallback table. *)
Definition staleOrFallback : M World ResolvedSet :=
  bind
    (try_catch
       (bind existsSync (fun present =>
          if present
          then bind readAndParse (fun raw =>
               bind (get raw "models") (fun ms =>
                 ret (Some {| models := ms; source := "stale-cache" |})))
          else ret None))
       (ret None))
    (fun found => match found with
                  | Some set => ret set
                  | None => ret fallbackSet
                  end).

(** The outer [try] with its [catch]. *)
Definition liveOrDegraded : M World ResolvedSet :=
  try_catch
    (bind fetchLive (fun ms =>
     bind (writeCache ms) (fun _ =>
       ret {| models := array ms; source := "live" |})))
    staleOrFallback.

Definition getModels (forceRefresh : bool) : M World ResolvedSet :=
  bind (if negb forceRefresh then readCache else ret Undefined) (fun cached =>
    if negb forceRefresh && truthy cached
    then ret {| models := cached; source := "cache" |}
    else liveOrDegraded).

(** *** The modes of the command *)

Definition matchesText (filters : list string) (m : Model) : bool :=
  existsb (fun f => includes (toLowerCase (id m)) f || includes (toLowerCase (name m)) f) filters.

Definition matchesProvider (filters : list string) (m : Model) : bool :=
  existsb (fun p => includes (toLowerCase (provider m)) p) filters.

(** The models [listModels] keeps. *)
Definition listed (filterProviders : option (list string)) (models : list Model) : list Model :=
  match filterProviders with
  | Some ps => filter (matchesProvider ps) models
  | None => models
  end.

(** The listing: the filter, then the groups.  When the grouping throws
    the TypeError is not caught. *)
Definition listModels (models : list Model) (filterProviders : option (list string))
  (source : string) : Outcome :=
  let models := listed filterProviders models in
  match byProvider models with
  | Some _ => {| exitCode := 0; shown := Listing models source |}
  | None => {| exitCode := 1; shown := Uncaught |}
  end.

(** The detail lookup: [allModels.find(...)]. *)
Definition findDetail (query : string) (allModels : list Model) : option Model :=
  find (fun m => includes (toLowerCase (id m)) query || includes (toLowerCase (name m)) query)
       allModels.

(** The filters of the comparison, applied in the order of the source. *)
Definition applyFilters (args : Args.t) (allModels : list Model) : list Model :=
  let ms := allModels in
  let ms := match Args.models args with Some fs => filter (matchesText fs) ms | None => ms end in
  let ms := match Args.providers args with Some ps => filter (matchesProvider ps) ms | None => ms end in
  let ms := if Args.vision args then filter vision ms else ms in
  let ms := if Args.tools args then filter tools ms else ms in
  let ms := if Args.reasoning args then filter reasoning ms else ms in
  match Args.minContext args with
  | Some c => if truthy_number c then filter (fun m => c <=? context m) ms else ms
  | None => ms
  end.

Definition resolveInputTokens (args : Args.t) : float :=
  let given := Args.inputTokens args in
  let estimated :=
    match Args.prompt args with
    | Some p => if truthy_string p && negb (truthyNumber given)
                then Some (estimateTokens p) else given
    | None => given
    end in
  match estimated with
  | Some v => if truthy_number v then v else 200
  | None => 200
  end.

Definition resolveOutputTokens (args : Args.t) (inputTokens : float) : float :=
  match Args.outputTokens args with
  | Some v => if truthy_number v then v else mathMax 300 (inputTokens * 2)
  | None => mathMax 300 (inputTokens * 2)
  end.

Definition toRow (args : Args.t) (inputTokens outputTokens : float) (m : Model) : Row :=
  let c := calculateCost m inputTokens outputTokens in
  {| model := m; cost := c;
     monthlyCost := match Args.monthly args with
                    | Some n => if truthy_number n then totalCost c * n else 0
                    | None => 0
                    end |}.

(** The four entries of [sorters] and, for any other key, the order by
    total cost. *)
Definition sorter (key : string) : Row -> Row -> float :=
  if String.eqb key "input" then fun a b => input (model a) - input (model b)
  else if String.eqb key "output" then fun a b => output (model a) - output (model b)
  else if String.eqb key "name"
       then fun a b => localeCompareNumber (name (model a)) (name (model b))
  else if String.eqb key "context" then fun a b => context (model b) - context (model a)
  else fun a b => totalCost (cost a) - totalCost (cost b).

(** [sorters[args.sort] || ((a, b) => a.totalCost - b.totalCost)].  The
    lookup goes through the prototype chain, and what it finds there is
    truthy.  [__proto__] finds the prototype, which is no function.
    [constructor] finds [Object], which returns its first argument, and
    [toString] a function that returns ["[object Undefined]"]: both
    results are NaN as numbers.  Every other member is a function that
    converts its receiver to an object, and the sort calls it without
    one: a TypeError. *)
Definition comparator (key : string) : Comparator :=
  if String.eqb key "__proto__" then NotCallable
  else if String.eqb key "constructor" || String.eqb key "toString"
  then Comparing (fun _ _ => Normal nan)
  else if includes_item objectPrototypeMembers key then Comparing (fun _ _ => Throw)
  else Comparing (returning (sorter key)).

Definition uncaught : Outcome := {| exitCode := 1; shown := Uncaught |}.

Definition costComparison (args : Args.t) (allModels : list Model) (source : string) : Outcome :=
  let inputTokens := resolveInputTokens args in
  let outputTokens := resolveOutputTokens args inputTokens in
  let models := applyFilters args allModels in
  match models with
  | [] => {| exitCode := 1; shown := NoModelsMatched |}
  | _ :: _ =>
      match comparator (Args.sort args) with
      | NotCallable => uncaught
      | Comparing comparefn =>
          match arraySort (engine Row) comparefn
                          (map (toRow args inputTokens outputTokens) models) with
          | Throw => uncaught
          | Normal results =>
              let display :=
                match Args.top args with
                | Some n => if truthy_number n then sliceTo n results
                            else if Args.cheap args then sliceTo 5 results else results
                | None => if Args.cheap args then sliceTo 5 results else results
                end in
              if Args.json args
              then {| exitCode := 0;
                      shown := Json inputTokens outputTokens (sourceLabel source)
                                 (if truthyNumber (Args.monthly args)
                                  then Args.monthly args else None)
                                 (map (jsonEntry (Args.monthly args)) display) |}
              else {| exitCode := 0; shown := Table display results |}
          end
      end
  end.

(** [main] after [getModels] has delivered an array of models. *)
Definition mainWith (args : Args.t) (allModels : list Model) (source : string) : Outcome :=
  if Args.list args
  then listModels allModels (Args.providers args) (sourceLabel source)
  else if Args.bestFor args
  then {| exitCode := 0; shown := BestFor (printBestFor allModels) |}
  else if truthyText (Args.detail args)
  then match findDetail (textOr (Args.detail args) "") allModels with
       | Some m => {| exitCode := 0; shown := Detail m |}
       | None => {| exitCode := 1; shown := NoModelFound |}
       end
  else costComparison args allModels source.

(** A resolved value that is no array makes every mode end in an
    uncaught TypeError (or, for an empty string or an object whose
    [length] is 0, in the no-match exit): the exit code is 1 either way. *)
Definition report (args : Args.t) (set : ResolvedSet) : Outcome :=
  match models set with
  | Records allModels => mainWith args allModels (source set)
  | Untyped => exotic args (source set)
  | _ => uncaught
  end.

Definition main (args : Args.t) : M World Outcome :=
  if Args.version args then ret {| exitCode := 0; shown := Version |}
  else if Args.help args then ret {| exitCode := 0; shown := Help |}
  else bind (getModels (Args.refresh args))
            (fun set => ret (report args set)).

(** *** Vocabulary of the statements *)

(** Provider ascending, then input price ascending. *)
Definition modelOrder (a b : Pushed) : Prop :=
  localeCompare (providerText functionText (provider a))
                (providerText functionText (provider b)) = Lt \/
  (localeCompare (providerText functionText (provider a))
                 (providerText functionText (provider b)) = Eq /\
   (input a <=? input b) = true).

(** Equal provider and equal input price. *)
Definition sameKey (a b : Pushed) : bool :=
  match localeCompare (providerText functionText (provider a))
                      (providerText functionText (provider b)) with
  | Eq => input a =? input b
  | _ => false
  end.

(** The test a record undergoes when it comes after the records [pre]. *)
Definition skipped (pre : list Raw.Model) (m : Raw.Model) : bool :=
  unpriced m || includes_item (map id (normalize functionText pre)) (Raw.id m) || metaModel m.

End Host.

(** The sort keys that find a function which throws when the sort calls
    it: the members of [Object.prototype] but [__proto__], [constructor]
    and [toString]. *)
Definition throwingKey (key : string) : bool :=
  includes_item objectPrototypeMembers key &&
  negb (String.eqb key "__proto__") &&
  negb (String.eqb key "constructor" || String.eqb key "toString").

(** The order a category ranks by. *)
Definition rankingOf (cat : Category) : Model -> Model -> float :=
  match ranking cat with
  | Some order => order
  | None => byCost
  end.

(** The input price is a number. *)
Definition priced {P : Type} (m : ModelWith P) : Prop := is_nan (input m) = false.

(** The provider is a name. *)
Definition hasName (m : Pushed) : Prop := exists s, provider m = ProviderName s.

(** [raw.k] when it does not throw. *)
Definition prop (raw : value Model) (k : string) : value Model :=
  match raw with
  | Obj fields => lookup k fields
  | _ => Undefined
  end.

Definition nullish (v : value Model) : bool :=
  match v with
  | Undefined | Null => true
  | _ => false
  end.

Definition sameSet (a b : list string) : Prop := forall x, In x a <-> In x b.

Definition falsyField (field : option string) : Prop :=
  field = None \/ field = Some "".

(** The same model with the four optional numbers replaced. *)
Definition withOptional (m : Model) (maxOut read write thinking : option float) : Model :=
  {| id := id m; provider := provider m; name := name m;
     input := input m; output := output m; context := context m;
     maxOutput := maxOut;
     vision := vision m; audio := audio m; video := video m; imageOut := imageOut m;
     tools := tools m; reasoning := reasoning m; structuredOutput := structuredOutput m;
     cacheRead := read; cacheWrite := write; thinkingCost := thinking;
     description := description m |}.

(** *** Concrete inputs and a concrete host *)

Definition rawPriced (id : string) (prompt completion : option string) : Raw.Model :=
  {| Raw.id := id; Raw.name := None;
     Raw.pricing := Some {| Raw.prompt := prompt; Raw.completion := completion;
                            Raw.input_cache_read := None; Raw.input_cache_write := None;
                            Raw.internal_reasoning := None |};
     Raw.context_length := None; Raw.top_provider := None; Raw.architecture := None;
     Raw.supported_parameters := None; Raw.description := None |}.

Definition offline (f : FileState) : World :=
  {| file := f; now := 1700000000000; network := FetchFails; writable := true; requests := 0 |}.

(** Lower case of the ASCII letters, as a host's [toLowerCase]. *)
Fixpoint asciiLower (s : string) : string :=
  match s with
  | EmptyString => EmptyString
  | String c r =>
      let n := N_of_ascii c in
      String (if ((65 <=? n) && (n <=? 90))%N then ascii_of_N (n + 32) else c) (asciiLower r)
  end.

(** A host for the examples: the text V8 gives a native function, a
    sort that leaves an array it cannot order as it is and lets no
    exception out, and modes that end in a TypeError on an array that
    holds an object that is no model. *)
Definition nativeText (member : string) : string :=
  ("function " ++ (if String.eqb member "constructor" then "Object" else member)
     ++ "() { [native code] }")%string.

Definition inPlace (A : Type) (comparefn : A -> A -> completion float) (l : list A)
  : bool * list nat :=
  (false, seq 0 (List.length l)).

Definition noMode (args : Args.t) (source : string) : Outcome :=
  {| exitCode := 1; shown := Uncaught |}.

Definition noArgs : Args.t :=
  {| Args.prompt := None; Args.inputTokens := None; Args.outputTokens := None;
     Args.models := None; Args.providers := None; Args.monthly := None;
     Args.sort := "cost"; Args.json := false; Args.cheap := false;
     Args.help := false; Args.version := false; Args.list := false;
     Args.refresh := false; Args.top := None; Args.detail := None;
     Args.vision := false; Args.tools := false; Args.reasoning := false;
     Args.minContext := None; Args.caps := false; Args.bestFor := false |}.


(** ** Formatting

    [formatCtx], [formatUSD], [pad] and [capsBadge].  A price is a
    [string]; what may hold the em dash is a [text]. *)

(** The em dash shown for a missing number: one code unit. *)
Definition emDash : text := [8212%N].

Definition formatCtx (n : float) : text :=
  if negb (truthy_number n) then emDash
  else if 1000000 <=? n
  then units (toFixed (n / 1000000) (if divisible n 1000000 then 0 else 1) ++ "M")%string
  else if 1000 <=? n then units (toFixed (n / 1000) 0 ++ "K")%string
  else units (numberToString n).

Definition formatUSD (n : float) : string :=
  if n <? 0.0001 then "<$0.0001"
  else if n <? 0.01 then ("$" ++ toFixed n 4)%string
  else if n <? 1 then ("$" ++ toFixed n 4)%string
  else ("$" ++ toFixed n 2)%string.

Inductive Align : Type := AlignLeft | AlignRight.

Definition pad (s : text) (width : nat) (align : Align) : text :=
  if (width <=? List.length s)%nat then s
  else
    let diff := (width - List.length s)%nat in
    match align with
    | AlignRight => repeated " " diff ++ s
    | AlignLeft => s ++ repeated " " diff
    end.

Definition capsBadge (model : Model) : string :=
  let tags :=
    (if vision model then ["vision"] else []) ++
    (if audio model then ["audio"] else []) ++
    (if video model then ["video"] else []) ++
    (if imageOut model then ["img-out"] else []) ++
    (if reasoning model then ["reasoning"] else []) ++
    (if tools model then ["tools"] else []) ++
    (if structuredOutput model then ["json"] else []) in
  String.concat "," tags.

(** ** The table [printTable] writes *)

Definition headers (monthly : option float) (showCaps : bool) : list text :=
  map units
    (["Model"; "Provider"; "Input/1M"; "Output/1M"; "Context"; "Est. Cost"]
     ++ (if truthyNumber monthly then ["Monthly"] else [])
     ++ (if showCaps then ["Capabilities"] else [])).

(** The cells of one row. *)
Definition cells (monthly : option float) (showCaps : bool) (r : Row) : list text :=
  [units (name (model r)); units (provider (model r));
   units (formatUSD (input (model r))); units (formatUSD (output (model r)));
   formatCtx (context (model r));
   units (formatUSD (totalCost (cost r)))]
  ++ (if truthyNumber monthly then [units (formatUSD (monthlyCost r))] else [])
  ++ (if showCaps then [units (capsBadge (model r))] else []).

(** [cols.forEach((c, i) => colWidths[i] = Math.max(colWidths[i], c.length))];
    a row has as many cells as there are headers. *)
Fixpoint widen (colWidths : list nat) (cols : list text) : list nat :=
  match colWidths, cols with
  | w :: ws, c :: cs => Nat.max w (List.length c) :: widen ws cs
  | _, _ => colWidths
  end.

Definition columnWidths (monthly : option float) (showCaps : bool) (rows : list Row) : list nat :=
  fold_left (fun widths r => widen widths (cells monthly showCaps r)) rows
            (map (@List.length N) (headers monthly showCaps)).

(** The alignment of column [i]. *)
Definition alignment (monthly : option float) (i : nat) : Align :=
  if ((2 <=? i)%nat && (i <=? 5)%nat) || ((i =? 6)%nat && truthyNumber monthly)
  then AlignRight else AlignLeft.

(** [" " + pad(c, colWidths[i], align) + " "] for the cells from column [i] on. *)
Fixpoint padded (align : nat -> Align) (i : nat) (cols : list text) (colWidths : list nat)
  : list text :=
  match cols, colWidths with
  | c :: cs, w :: ws => (units " " ++ pad c w (align i) ++ units " ") :: padded align (S i) cs ws
  | _, _ => []
  end.

Definition ruler (colWidths : list nat) : text :=
  units "+" ++ join (units "+") (map (fun w => repeated "-" (w + 2)) colWidths) ++ units "+".

Definition tableRow (align : nat -> Align) (cols : list text) (colWidths : list nat) : text :=
  units "|" ++ join (units "|") (padded align 0 cols colWidths) ++ units "|".

(** The lines [printTable] writes. *)
Definition printTable (rows : list Row) (monthly : option float) (showCaps : bool) : list text :=
  let colWidths := columnWidths monthly showCaps rows in
  let line := ruler colWidths in
  [[]; line; tableRow (fun _ => AlignLeft) (headers monthly showCaps) colWidths; line]
  ++ map (fun r => tableRow (alignment monthly) (cells monthly showCaps r) colWidths) rows
  ++ [line].

(** ** The callout under the table *)

(** The cheapest callout: [results[0]], [results[results.length - 1]],
    the ratio of their costs and, with [--monthly], the monthly saving;
    printed when there are at least two results. *)
Record Callout : Type := {
  cheapestRow : Row;
  priciestRow : Row;
  ratio : string;
  monthlySaving : option float
}.

Definition callout (args : Args.t) (results : list Row) : option Callout :=
  match results with
  | first :: _ :: _ =>
      let final := last results first in
      Some {| cheapestRow := first; priciestRow := final;
              ratio := toFixed (totalCost (cost final) / totalCost (cost first)) 0;
              monthlySaving := if truthyNumber (Args.monthly args)
                               then Some (monthlyCost final - monthlyCost first)
                               else None |}
  | _ => None
  end.

(** ** Reading the command line

    One function per assignment [args.field = value] of [parseArgs]. *)

Definition setHelp (a : Args.t) : Args.t :=
  let '(Args.Build_t p it ot ms ps mo so js ch he ve li re tp de vi tl rs mc ca bf) := a in
  Args.Build_t p it ot ms ps mo so js ch true ve li re tp de vi tl rs mc ca bf.
Definition setVersion (a : Args.t) : Args.t :=
  let '(Args.Build_t p it ot ms ps mo so js ch he ve li re tp de vi tl rs mc ca bf) := a in
  Args.Build_t p it ot ms ps mo so js ch he true li re tp de vi tl rs mc ca bf.
Definition setJson (a : Args.t) : Args.t :=
  let '(Args.Build_t p it ot ms ps mo so js ch he ve li re tp de vi tl rs mc ca bf) := a in
  Args.Build_t p it ot ms ps mo so true ch he ve li re tp de vi tl rs mc ca bf.
Definition setCheap (a : Args.t) : Args.t :=
  let '(Args.Build_t p it ot ms ps mo so js ch he ve li re tp de vi tl rs mc ca bf) := a in
  Args.Build_t p it ot ms ps mo so js true he ve li re tp de vi tl rs mc ca bf.
Definition setList (a : Args.t) : Args.t :=
  let '(Args.Build_t p it ot ms ps mo so js ch he ve li re tp de vi tl rs mc ca bf) := a in
  Args.Build_t p it ot ms ps mo so js ch he ve true re tp de vi tl rs mc ca bf.
Definition setRefresh (a : Args.t) : Args.t :=
  let '(Args.Build_t p it ot ms ps mo so js ch he ve li re tp de vi tl rs mc ca bf) := a in
  Args.Build_t p it ot ms ps mo so js ch he ve li true tp de vi tl rs mc ca bf.
Definition setVision (a : Args.t) : Args.t :=
  let '(Args.Build_t p it ot ms ps mo so js ch he ve li re tp de vi tl rs mc ca bf) := a in
  Args.Build_t p it ot ms ps mo so js ch he ve li re tp de true tl rs mc ca bf.
Definition setTools (a : Args.t) : Args.t :=
  let '(Args.Build_t p it ot ms ps mo so js ch he ve li re tp de vi tl rs mc ca bf) := a in
  Args.Build_t p it ot ms ps mo so js ch he ve li re tp de vi true rs mc ca bf.
Definition setReasoning (a : Args.t) : Args.t :=
  let '(Args.Build_t p it ot ms ps mo so js ch he ve li re tp de vi tl rs mc ca bf) := a in
  Args.Build_t p it ot ms ps mo so js ch he ve li re tp de vi tl true mc ca bf.
Definition setCaps (a : Args.t) : Args.t :=
  let '(Args.Build_t p it ot ms ps mo so js ch he ve li re tp de vi tl rs mc ca bf) := a in
  Args.Build_t p it ot ms ps mo so js ch he ve li re tp de vi tl rs mc true bf.
Definition setBestFor (a : Args.t) : Args.t :=
  let '(Args.Build_t p it ot ms ps mo so js ch he ve li re tp de vi tl rs mc ca bf) := a in
  Args.Build_t p it ot ms ps mo so js ch he ve li re tp de vi tl rs mc ca true.
Definition setInputTokens (n : float) (a : Args.t) : Args.t :=
  let '(Args.Build_t p it ot ms ps mo so js ch he ve li re tp de vi tl rs mc ca bf) := a in
  Args.Build_t p (Some n) ot ms ps mo so js ch he ve li re tp de vi tl rs mc ca bf.
Definition setOutputTokens (n : float) (a : Args.t) : Args.t :=
  let '(Args.Build_t p it ot ms ps mo so js ch he ve li re tp de vi tl rs mc ca bf) := a in
  Args.Build_t p it (Some n) ms ps mo so js ch he ve li re tp de vi tl rs mc ca bf.
Definition setModels (l : list string) (a : Args.t) : Args.t :=
  let '(Args.Build_t p it ot ms ps mo so js ch he ve li re tp de vi tl rs mc ca bf) := a in
  Args.Build_t p it ot (Some l) ps mo so js ch he ve li re tp de vi tl rs mc ca bf.
Definition setProviders (l : list string) (a : Args.t) : Args.t :=
  let '(Args.Build_t p it ot ms ps mo so js ch he ve li re tp de vi tl rs mc ca bf) := a in
  Args.Build_t p it ot ms (Some l) mo so js ch he ve li re tp de vi tl rs mc ca bf.
Definition setMonthly (n : float) (a : Args.t) : Args.t :=
  let '(Args.Build_t p it ot ms ps mo so js ch he ve li re tp de vi tl rs mc ca bf) := a in
  Args.Build_t p it ot ms ps (Some n) so js ch he ve li re tp de vi tl rs mc ca bf.
Definition setSort (s : string) (a : Args.t) : Args.t :=
  let '(Args.Build_t p it ot ms ps mo so js ch he ve li re tp de vi tl rs mc ca bf) := a in
  Args.Build_t p it ot ms ps mo s js ch he ve li re tp de vi tl rs mc ca bf.
Definition setTop (n : float) (a : Args.t) : Args.t :=
  let '(Args.Build_t p it ot ms ps mo so js ch he ve li re tp de vi tl rs mc ca bf) := a in
  Args.Build_t p it ot ms ps mo so js ch he ve li re (Some n) de vi tl rs mc ca bf.
Definition setDetail (s : string) (a : Args.t) : Args.t :=
  let '(Args.Build_t p it ot ms ps mo so js ch he ve li re tp de vi tl rs mc ca bf) := a in
  Args.Build_t p it ot ms ps mo so js ch he ve li re tp (Some s) vi tl rs mc ca bf.
Definition setMinContext (n : float) (a : Args.t) : Args.t :=
  let '(Args.Build_t p it ot ms ps mo so js ch he ve li re tp de vi tl rs mc ca bf) := a in
  Args.Build_t p it ot ms ps mo so js ch he ve li re tp de vi tl rs (Some n) ca bf.
Definition setPrompt (s : string) (a : Args.t) : Args.t :=
  let '(Args.Build_t p it ot ms ps mo so js ch he ve li re tp de vi tl rs mc ca bf) := a in
  Args.Build_t (Some s) it ot ms ps mo so js ch he ve li re tp de vi tl rs mc ca bf.

Section CommandLine.

Variable localeCompare : string -> string -> comparison.
Variable stringToNumber : string -> float.
Variable toLowerCase : string -> string.
Variable functionText : string -> string.
Variable engine : forall A : Type, (A -> A -> completion float) -> list A -> bool * list nat.
Variable exotic : Args.t -> string -> Outcome.

(** [s.split(",").map((s) => s.trim().toLowerCase())] *)
Definition listOption (v : string) : list string :=
  map (fun s => toLowerCase (trim s)) (split "," v).

(** The body of the [while] loop for [arg = argv[i]], [next] being
    [argv[i + 1]] ([None] past the end): the record after it, and whether
    [argv[++i]] was read. *)
Definition parseStep (arg : string) (next : option string) (args : Args.t) : Args.t * bool :=
  let given := truthyText next in
  let value := textOr next "" in
  if (arg =? "--help")%string || (arg =? "-h")%string then (setHelp args, false)
  else if (arg =? "--version")%string || (arg =? "-v")%string then (setVersion args, false)
  else if (arg =? "--json")%string then (setJson args, false)
  else if (arg =? "--cheap")%string then (setCheap args, false)
  else if (arg =? "--list")%string || (arg =? "-l")%string then (setList args, false)
  else if (arg =? "--refresh")%string || (arg =? "-r")%string then (setRefresh args, false)
  else if (arg =? "--vision")%string then (setVision args, false)
  else if (arg =? "--tools")%string then (setTools args, false)
  else if (arg =? "--reasoning")%string then (setReasoning args, false)
  else if (arg =? "--caps")%string then (setCaps args, false)
  else if (arg =? "--best-for")%string || (arg =? "--best")%string then (setBestFor args, false)
  else if ((arg =? "--tokens")%string || (arg =? "-t")%string) && given
  then (setInputTokens (parseInt value) args, true)
  else if ((arg =? "--output-tokens")%string || (arg =? "-o")%string) && given
  then (setOutputTokens (parseInt value) args, true)
  else if ((arg =? "--models")%string || (arg =? "-m")%string) && given
  then (setModels (listOption value) args, true)
  else if ((arg =? "--providers")%string || (arg =? "-p")%string) && given
  then (setProviders (listOption value) args, true)
  else if (arg =? "--monthly")%string && given then (setMonthly (parseInt value) args, true)
  else if ((arg =? "--sort")%string || (arg =? "-s")%string) && given
  then (setSort (toLowerCase value) args, true)
  else if (arg =? "--top")%string && given then (setTop (parseInt value) args, true)
  else if ((arg =? "--detail")%string || (arg =? "-d")%string) && given
  then (setDetail (toLowerCase value) args, true)
  else if (arg =? "--context")%string && given then (setMinContext (parseInt value) args, true)
  else if negb (startsWith arg "-") then (setPrompt arg args, false)
  else (args, false).

(** The [while] loop from [argv[i]] on. *)
Fixpoint parseLoop (argv : list string) (args : Args.t) : Args.t :=
  match argv with
  | [] => args
  | arg :: rest =>
      let (args', read) := parseStep arg (hd_error rest) args in
      if read
      then match rest with
           | _ :: rest' => parseLoop rest' args'
           | [] => args'
           end
      else parseLoop rest args'
  end.

Definition parseArgs (argv : list string) : Args.t := parseLoop argv noArgs.

(** [main] for the arguments [argv = process.argv.slice(2)]. *)
Definition run (argv : list string) : M World Outcome :=
  main localeCompare stringToNumber toLowerCase functionText engine exotic (parseArgs argv).

(** *** Vocabulary of the further statements *)

(** The one test the filters of the comparison amount to. *)
Definition keeps (args : Args.t) (m : Model) : bool :=
  match Args.models args with Some fs => matchesText toLowerCase fs m | None => true end &&
  match Args.providers args with Some ps => matchesProvider toLowerCase ps m | None => true end &&
  (negb (Args.vision args) || vision m) &&
  (negb (Args.tools args) || tools m) &&
  (negb (Args.reasoning args) || reasoning m) &&
  match Args.minContext args with
  | Some c => negb (truthy_number c) || (c <=? context m)
  | None => true
  end.

(** The value [readCache] returns. *)
Definition cached (w : World) : value Model :=
  match file w with
  | Content (Some raw) =>
      if nullish raw then Null
      else match toNumber stringToNumber (prop raw "timestamp") with
           | Normal stamp => if CACHE_TTL_MS <? now w - stamp then Null else prop raw "models"
           | Throw => Null
           end
  | _ => Null
  end.

End CommandLine.

(** The options that stand alone and those that take a value. *)
Definition flagNames : list string :=
  ["--help"; "-h"; "--version"; "-v"; "--json"; "--cheap"; "--list"; "-l";
   "--refresh"; "-r"; "--vision"; "--tools"; "--reasoning"; "--caps";
   "--best-for"; "--best"].

Definition valueNames : list string :=
  ["--tokens"; "-t"; "--output-tokens"; "-o"; "--models"; "-m"; "--providers"; "-p";
   "--monthly"; "--sort"; "-s"; "--top"; "--detail"; "-d"; "--context"].

(** Each setting of [a] is one an option of [argv] accounts for. *)
Definition accountedFor (argv : list string) (a : Args.t) : Prop :=
  (forall p, Args.prompt a = Some p -> In p argv /\ startsWith p "-" = false) /\
  (Args.inputTokens a <> None -> In "--tokens" argv \/ In "-t" argv) /\
  (Args.outputTokens a <> None -> In "--output-tokens" argv \/ In "-o" argv) /\
  (Args.models a <> None -> In "--models" argv \/ In "-m" argv) /\
  (Args.providers a <> None -> In "--providers" argv \/ In "-p" argv) /\
  (Args.monthly a <> None -> In "--monthly" argv) /\
  (Args.sort a <> "cost" -> In "--sort" argv \/ In "-s" argv) /\
  (Args.json a = true -> In "--json" argv) /\
  (Args.cheap a = true -> In "--cheap" argv) /\
  (Args.help a = true -> In "--help" argv \/ In "-h" argv) /\
  (Args.version a = true -> In "--version" argv \/ In "-v" argv) /\
  (Args.list a = true -> In "--list" argv \/ In "-l" argv) /\
  (Args.refresh a = true -> In "--refresh" argv \/ In "-r" argv) /\
  (Args.top a <> None -> In "--top" argv) /\
  (Args.detail a <> None -> In "--detail" argv \/ In "-d" argv) /\
  (Args.vision a = true -> In "--vision" argv) /\
  (Args.tools a = true -> In "--tools" argv) /\
  (Args.reasoning a = true -> In "--reasoning" argv) /\
  (Args.minContext a <> None -> In "--context" argv) /\
  (Args.caps a = true -> In "--caps" argv) /\
  (Args.bestFor a = true -> In "--best-for" argv \/ In "--best" argv).

(** The world after the one request, the cache file left as it was. *)
Definition requested (w : World) : World :=
  {| file := file w; now := now w; network := network w;
     writable := writable w; requests := S (requests w) |}.

(** The world after a request that succeeded with [ms] and the write
    that follows it. *)
Definition refreshed (ms : list Pushed) (w : World) : World :=
  {| file := if writable w then Content (Some (snapshot (now w) ms)) else file w;
     now := now w; network := network w;
     writable := writable w; requests := S (requests w) |}.

(** What the [catch] block returns for the cache file [f]. *)
Definition degraded (f : FileState) : ResolvedSet :=
  match f with
  | Content (Some raw) =>
      if nullish raw then fallbackSet
      else {| models := prop raw "models"; source := "stale-cache" |}
  | _ => fallbackSet
  end.

(** A number [JSON.stringify] writes and [JSON.parse] reads back as the
    same number: a finite one that is not negative zero. *)
Definition jsonNumber (x : float) : bool :=
  match Prim2SF x with
  | S754_zero s => negb s
  | S754_finite _ _ _ => true
  | _ => false
  end.

Definition jsonOptional (x : option float) : bool :=
  match x with
  | Some v => jsonNumber v
  | None => true
  end.

(** A model the cache file gives back as it was written: each of its
    numbers is one JSON preserves. *)
Definition storable (m : Model) : bool :=
  jsonNumber (input m) && jsonNumber (output m) && jsonNumber (context m) &&
  jsonOptional (maxOutput m) && jsonOptional (cacheRead m) &&
  jsonOptional (cacheWrite m) && jsonOptional (thinkingCost m).

(** A pushed object that is a model the cache file gives back as it
    was written. *)
Definition kept (m : Pushed) : bool :=
  match named m with
  | Some m' => storable m'
  | None => false
  end.

(** The total cost of a row, the key of the default order. *)
Definition costOf (r : Row) : float := totalCost (cost r).

(** A sort key that selects none of the four named orders and names no
    member of [Object.prototype]: the order is then by total cost. *)
Definition otherKey (key : string) : Prop :=
  key <> "input" /\ key <> "output" /\ key <> "name" /\ key <> "context" /\
  ~ In key objectPrototypeMembers.

Definition byName (p : string) (m : Model) : bool := String.eqb (provider m) p.

Definition groupSizes (groups : list (string * list Model)) : nat :=
  list_sum (map (fun g => List.length (snd g)) groups).

(** What [groups] holds once the models [done] have been filed. *)
Definition filed (done : list Model) (groups : list (string * list Model)) : Prop :=
  NoDup (map fst groups) /\
  (forall p g, In (p, g) groups -> g <> [] /\ g = filter (byName p) done) /\
  (forall m, In m done -> In (provider m) (map fst groups)) /\
  groupSizes groups = List.length done.

(** Every column is at least as wide as [ws] asked and as each cell of [cs]. *)
Definition fits (cs : list text) (ws : list nat) : Prop :=
  Forall2 (fun c w => List.length c <= w)%nat cs ws.

Definition atLeast (ws ws' : list nat) : Prop := Forall2 le ws ws'.


(** * Properties *)

(** ** The cost calculator *)

Lemma zero_tokens_cost (price : float) :
  nonneg_finite price = true ->
  exists s, Prim2SF ((0 / 1000000) * price) = S754_zero s.
Proof.
  intros H. destruct (nonneg_finite_inv price H) as [N F].
  rewrite mul_spec. change (Prim2SF (0 / 1000000)) with (S754_zero false).
  destruct (Prim2SF price) as [s|[]| |[] m e]; cbn in N, F; try discriminate; cbn; eauto.
Qed.

Lemma component_cost_nonneg (tokens price : float) :
  nonneg_finite tokens = true -> nonneg_finite price = true ->
  sf_nonneg (Prim2SF ((tokens / 1000000) * price)) = true.
Proof.
  intros Ht Hp.
  destruct (nonneg_finite_inv tokens Ht) as [Nt Ft].
  destruct (nonneg_finite_inv price Hp) as [Np Fp].
  rewrite mul_spec, div_spec.
  destruct (SFdiv_nonneg_finite (Prim2SF tokens) (Prim2SF 1000000)) as [Nd Fd];
    auto using Prim2SF_valid.
  { eexists _, _. split; [reflexivity|]. cbn. lia. }
  apply SFmul_nonneg; assumption.
Qed.

(** C5. The cost of zero tokens is zero, and the total cost is the sum of
    the cost of the input alone and the cost of the output alone, for a
    model whose two prices are finite and non-negative and for token
    counts that are finite and non-negative (every non-negative integer a
    number can hold is one); each component is
    [tokens / 1_000_000 * price]. *)
Theorem calculateCost_linear (m : Model) (x y : float) :
  nonneg_finite (input m) = true -> nonneg_finite (output m) = true ->
  nonneg_finite x = true -> nonneg_finite y = true ->
  (totalCost (calculateCost m 0 0) =? 0) = true /\
  (totalCost (calculateCost m x y) =?
     totalCost (calculateCost m x 0) + totalCost (calculateCost m 0 y)) = true /\
  inputCost (calculateCost m x y) = x / 1000000 * input m /\
  outputCost (calculateCost m x y) = y / 1000000 * output m /\
  totalCost (calculateCost m x y) =
    inputCost (calculateCost m x y) + outputCost (calculateCost m x y).
Proof.
  intros Hi Ho Hx Hy. cbn [calculateCost totalCost inputCost outputCost].
  destruct (zero_tokens_cost _ Hi) as [si Zi]. destruct (zero_tokens_cost _ Ho) as [so Zo].
  pose proof (component_cost_nonneg x _ Hx Hi) as Ni.
  pose proof (component_cost_nonneg y _ Hy Ho) as No.
  repeat split.
  - rewrite eqb_spec, add_spec, Zi, Zo. destruct si, so; reflexivity.
  - rewrite eqb_spec, !add_spec, Zi, Zo.
    apply SFadd_same; auto using SFadd_zero_r, SFadd_zero_l.
Qed.

Lemma calculateCost_linear_witness :
  let m := fallbackModel "openai/gpt-4.1" "OpenAI" "GPT-4.1" 2.00 8.00 1047576 32768 true true false true in
  (totalCost (calculateCost m 0 0) =? 0) = true /\
  (totalCost (calculateCost m 1000 4000) =?
     totalCost (calculateCost m 1000 0) + totalCost (calculateCost m 0 4000)) = true.
Proof.
  intros m.
  destruct (calculateCost_linear m 1000 4000) as (H0 & H1 & _); try reflexivity.
  split; assumption.
Defined.

(** ** The normaliser *)

Section Normalised.

Variable functionText : string -> string.

#[local] Abbreviation toModel := (toModel functionText).
#[local] Abbreviation normalizeLoop := (normalizeLoop functionText).
#[local] Abbreviation normalize := (normalize functionText).
#[local] Abbreviation skipped := (skipped functionText).

(** What the loop leaves in its accumulators: the models so far followed
    by what the rest of the batch adds, given the ids seen so far. *)
Lemma normalizeLoop_acc (data : list Raw.Model) : forall models seen,
  normalizeLoop data models seen = models ++ normalizeLoop data [] seen.
Proof.
  induction data as [|m rest IH]; intros models seen; cbn [LlmCost.normalizeLoop].
  - rewrite app_nil_r. reflexivity.
  - destruct (unpriced m); [apply IH|].
    destruct (includes_item seen (Raw.id m)); [apply IH|].
    destruct (metaModel m); [apply IH|].
    rewrite IH, (IH ([] ++ [toModel m])). rewrite app_assoc. reflexivity.
Qed.

Lemma includes_item_sameSet (a b : list string) (x : string) :
  sameSet a b -> includes_item a x = includes_item b x.
Proof.
  intros H. unfold includes_item.
  destruct (existsb (String.eqb x) a) eqn:Ea, (existsb (String.eqb x) b) eqn:Eb; try reflexivity.
  - apply existsb_exists in Ea. destruct Ea as (y & Hy & E). apply String.eqb_eq in E. subst y.
    apply H in Hy. assert (existsb (String.eqb x) b = true); [|congruence].
    apply existsb_exists. exists x. split; [assumption|apply String.eqb_refl].
  - apply existsb_exists in Eb. destruct Eb as (y & Hy & E). apply String.eqb_eq in E. subst y.
    apply H in Hy. assert (existsb (String.eqb x) a = true); [|congruence].
    apply existsb_exists. exists x. split; [assumption|apply String.eqb_refl].
Qed.

Lemma normalizeLoop_sameSet (data : list Raw.Model) : forall models seen seen',
  sameSet seen seen' -> normalizeLoop data models seen = normalizeLoop data models seen'.
Proof.
  induction data as [|m rest IH]; intros models seen seen' H; cbn [LlmCost.normalizeLoop]; [reflexivity|].
  rewrite (includes_item_sameSet seen seen' _ H).
  destruct (unpriced m); [apply IH, H|].
  destruct (includes_item seen' (Raw.id m)); [apply IH, H|].
  destruct (metaModel m); [apply IH, H|].
  apply IH. intros x. cbn. rewrite (H x). reflexivity.
Qed.

(** Running the loop over [pre ++ post] is running it over [post] from the
    accumulators [pre] leaves: the ids seen are those of the models
    emitted. *)
Lemma normalizeLoop_app (pre post : list Raw.Model) : forall models seen,
  sameSet seen (map id models) ->
  normalizeLoop (pre ++ post) models seen =
  normalizeLoop post (normalizeLoop pre models seen) (map id (normalizeLoop pre models seen)).
Proof.
  induction pre as [|m rest IH]; intros models seen H; cbn [app LlmCost.normalizeLoop].
  - apply normalizeLoop_sameSet, H.
  - destruct (unpriced m); [apply IH, H|].
    destruct (includes_item seen (Raw.id m)); [apply IH, H|].
    destruct (metaModel m); [apply IH, H|].
    apply IH. intros x. rewrite map_app, in_app_iff. cbn. rewrite (H x). tauto.
Qed.

Lemma normalizeLoop_NoDup (data : list Raw.Model) : forall models seen,
  sameSet seen (map id models) -> NoDup (map id models) ->
  NoDup (map id (normalizeLoop data models seen)).
Proof.
  induction data as [|m rest IH]; intros models seen H N; cbn [LlmCost.normalizeLoop]; [assumption|].
  destruct (unpriced m); [apply IH; assumption|].
  destruct (includes_item seen (Raw.id m)) eqn:E; [apply IH; assumption|].
  destruct (metaModel m); [apply IH; assumption|].
  apply IH.
  - intros x. rewrite map_app, in_app_iff. cbn. rewrite (H x). tauto.
  - rewrite map_app. cbn [map LlmCost.toModel id].
    rewrite <- (rev_involutive (map id models ++ [Raw.id m])).
    apply NoDup_rev. rewrite rev_app_distr. cbn [rev app].
    constructor; [|apply NoDup_rev, N].
    rewrite <- in_rev. intros Hin. apply H in Hin.
    assert (includes_item seen (Raw.id m) = true); [|congruence].
    apply existsb_exists. exists (Raw.id m). split; [assumption|apply String.eqb_refl].
Qed.

(** C3, amended. A record emits nothing exactly when both of its parsed
    per-token prices are zero, or its id is that of a model already
    emitted earlier in the batch, or its id starts with [openrouter/];
    every other record yields exactly one model, placed after the models
    of the records before it, and what follows the record in the batch
    only adds models after it; no id occurs twice in the output. *)
Theorem normalize_emits (pre : list Raw.Model) (m : Raw.Model) (post : list Raw.Model) :
  normalize (pre ++ [m]) = normalize pre ++ (if skipped pre m then [] else [toModel m]) /\
  (exists rest, normalize (pre ++ m :: post) = normalize (pre ++ [m]) ++ rest) /\
  NoDup (map id (normalize (pre ++ m :: post))).
Proof.
  split; [|split].
  - unfold LlmCost.normalize, LlmCost.skipped. rewrite normalizeLoop_app by (intros x; reflexivity).
    fold (normalize pre). cbn [LlmCost.normalizeLoop].
    destruct (unpriced m); cbn [orb]; [rewrite app_nil_r; reflexivity|].
    destruct (includes_item (map id (normalize pre)) (Raw.id m)); cbn [orb];
      [rewrite app_nil_r; reflexivity|].
    destruct (metaModel m); [rewrite app_nil_r|]; reflexivity.
  - replace (pre ++ m :: post) with ((pre ++ [m]) ++ post) by (rewrite <- app_assoc; reflexivity).
    unfold LlmCost.normalize at 1. rewrite normalizeLoop_app by (intros x; reflexivity).
    fold (normalize (pre ++ [m])). rewrite normalizeLoop_acc. eauto.
  - apply normalizeLoop_NoDup; [intros x; reflexivity|constructor].
Qed.

(** [round_half_up] is the nearest integer, the larger one on a tie. *)
Lemma round_half_up_nearest (m : positive) (e : Z) (f : nat) :
  let n := Z.of_N (round_half_up m e f) in
  match e with
  | Zneg k => (2 * Zpos m * 10 ^ Z.of_nat f - 2 ^ Zpos k < 2 * 2 ^ Zpos k * n <= 2 * Zpos m * 10 ^ Z.of_nat f + 2 ^ Zpos k)%Z
  | _ => (n = Zpos m * 2 ^ e * 10 ^ Z.of_nat f)%Z
  end.
Proof.
  unfold round_half_up. destruct e as [|p|k]; cbv zeta.
  - rewrite !N2Z.inj_mul, !N2Z.inj_pow, nat_N_Z. reflexivity.
  - rewrite !N2Z.inj_mul, !N2Z.inj_pow, nat_N_Z. reflexivity.
  - rewrite N2Z.inj_div, N2Z.inj_add, !N2Z.inj_mul, !N2Z.inj_pow, N2Z.inj_add, nat_N_Z.
    change (Z.of_N 2) with 2%Z. change (Z.of_N 10) with 10%Z. change (Z.of_N 1) with 1%Z.
    change (Z.of_N (N.pos m)) with (Zpos m). change (Z.of_N (N.pos k)) with (Zpos k).
    rewrite Z.pow_add_r by lia. change (2 ^ 1)%Z with 2%Z.
    set (a := (2 * Zpos m * 10 ^ Z.of_nat f)%Z). set (b := (2 ^ Zpos k)%Z).
    assert (Hb : (0 < b)%Z) by (apply Z.pow_pos_nonneg; lia).
    pose proof (Z.div_mod (a + b) (b * 2) ltac:(lia)) as E.
    pose proof (Z.mod_pos_bound (a + b) (b * 2) ltac:(lia)) as B.
    nia.
Qed.

(** C4, amended. Each per-million price of a model is the per-token price
    text read by [parseFloat], times 1,000,000, written with four decimals
    and read back: when the product [x] is finite and below 1e21 this is
    the number nearest to [n / 10^4], [n] being the integer nearest to
    [x * 10^4].  An absent, null or empty price field gives a per-million
    price of 0.  (Text that [parseFloat] cannot read is not covered: it
    gives NaN.) *)
Theorem perMillion_rounds (m : Raw.Model) :
  input (toModel m) = perMillion (parseFloat (priceText (priceField Raw.prompt m))) /\
  output (toModel m) = perMillion (parseFloat (priceText (priceField Raw.completion m))) /\
  (falsyField (priceField Raw.prompt m) -> input (toModel m) = zero) /\
  (falsyField (priceField Raw.completion m) -> output (toModel m) = zero) /\
  forall (perToken : float) (s : bool) (mx : positive) (e : Z),
    Prim2SF (perToken * 1000000) = S754_finite s mx e ->
    ((0 <=? e) && (10 ^ 21 <=? Zpos mx * 2 ^ e))%Z = false ->
    perMillion perToken = number_of_decimal s (round_half_up mx e 4) (-4) /\
    match e with
    | Zneg k =>
        let n := Z.of_N (round_half_up mx e 4) in
        (2 * Zpos mx * 10 ^ 4 - 2 ^ Zpos k < 2 * 2 ^ Zpos k * n <= 2 * Zpos mx * 10 ^ 4 + 2 ^ Zpos k)%Z
    | _ => Z.of_N (round_half_up mx e 4) = (Zpos mx * 2 ^ e * 10 ^ 4)%Z
    end.
Proof.
  split; [reflexivity|]. split; [reflexivity|].
  split; [|split].
  - intros [H|H]; cbn [LlmCost.toModel input]; unfold inputPerToken; rewrite H; reflexivity.
  - intros [H|H]; cbn [LlmCost.toModel output]; unfold outputPerToken; rewrite H; reflexivity.
  - intros perToken s mx e E B. split.
    + unfold perMillion. apply (parseFloat_toFixed_finite _ 4 s mx e E B).
    + apply (round_half_up_nearest mx e 4).
Qed.

End Normalised.

(** A record priced at 1e-11 per token is emitted although both of its
    per-million prices round to zero; and of two records sharing an id the
    second survives when the first was skipped for its zero prices. *)
Lemma normalize_emits_counterexample :
  let tiny := rawPriced "a/x" (Some "0.00000000001") (Some "0.00000000001") in
  let free := rawPriced "a/y" (Some "0") (Some "0") in
  let paid := rawPriced "a/y" (Some "0.000001") (Some "0.000002") in
  ((input (toModel nativeText tiny) =? 0) = true /\ (output (toModel nativeText tiny) =? 0) = true /\
   normalize nativeText [tiny] = [toModel nativeText tiny]) /\
  (Raw.id free = Raw.id paid /\ normalize nativeText [free; paid] = [toModel nativeText paid]).
Proof. vm_compute. repeat split; reflexivity. Qed.

Lemma perMillion_rounds_witness :
  let m := rawPriced "openai/gpt-4.1" (Some "0.000002") None in
  input (toModel nativeText m) = 2 /\ output (toModel nativeText m) = zero.
Proof.
  intros m. destruct (perMillion_rounds nativeText m) as (Hi & _ & _ & Ho & Hr). split.
  - rewrite Hi.
    destruct (Hr (parseFloat (priceText (priceField Raw.prompt m))) false
                 4503599627370496%positive (-51)%Z) as [-> _]; reflexivity.
  - apply Ho. left. reflexivity.
Defined.

(** A price text that [parseFloat] cannot read gives a model whose price
    is NaN, and the record is not skipped. *)
Lemma perMillion_rounds_counterexample :
  let m := rawPriced "a/x" (Some "free") (Some "0.000002") in
  normalize nativeText [m] = [toModel nativeText m] /\ is_nan (input (toModel nativeText m)) = true /\
  (input (toModel nativeText m) =? 0) = false.
Proof. vm_compute. repeat split; reflexivity. Qed.

(** ** Sorting the normalised models *)

Lemma StronglySorted_related {A : Type} (R : A -> A -> Prop) (l : list A) (x y : A) :
  StronglySorted R l -> In x l -> In y l -> x = y \/ R x y \/ R y x.
Proof.
  induction 1 as [|a l S IH F]; [contradiction|].
  rewrite Forall_forall in F.
  intros [<-|Hx] [<-|Hy]; auto.
Qed.

Section Collation.

Variable localeCompare : string -> string -> comparison.
Variable functionText : string -> string.
Variable engine : forall A : Type, (A -> A -> completion float) -> list A -> bool * list nat.

#[local] Abbreviation providerText := (providerText functionText).
#[local] Abbreviation normalize := (normalize functionText).
#[local] Abbreviation compareModels := (compareModels localeCompare functionText).
#[local] Abbreviation fetchLivePricing := (fetchLivePricing localeCompare functionText engine).
#[local] Abbreviation modelOrder := (modelOrder localeCompare functionText).
#[local] Abbreviation sameKey := (sameKey localeCompare functionText).

Hypothesis localeCompare_antisym :
  forall s t, localeCompare t s = CompOpp (localeCompare s t).
Hypothesis localeCompare_trans :
  forall s t u, localeCompare s t <> Gt -> localeCompare t u <> Gt -> localeCompare s u <> Gt.

(** The comparator returns when the provider of its first argument is a
    name. *)
Lemma compareModels_returns (a b : Pushed) :
  hasName a -> compareModels a b = Normal (compareValue compareModels a b).
Proof.
  intros [s E]. unfold JS.compareValue, LlmCost.compareModels. rewrite E. reflexivity.
Qed.

Lemma sign_compareModels (a b : Pushed) :
  hasName a -> priced a -> priced b ->
  sign (compareValue compareModels a b) =
  match localeCompare (providerText (provider a)) (providerText (provider b)) with
  | Lt => (-1)%Z
  | Gt => 1%Z
  | Eq => match (fkey (input a) ?= fkey (input b))%Z with
          | Lt => (-1)%Z
          | Eq => 0%Z
          | Gt => 1%Z
          end
  end.
Proof.
  intros [s E] Ha Hb. unfold JS.compareValue, LlmCost.compareModels, localeCompareNumber.
  rewrite E. cbn [LlmCost.providerText].
  destruct (localeCompare s (providerText (provider b))); try reflexivity.
  change (truthy_number 0) with false. cbv iota. apply sign_sub; assumption.
Qed.

Lemma sorts_after_compareModels (a b : Pushed) :
  hasName a -> priced a -> priced b ->
  sorts_after (compareValue compareModels) a b =
  match localeCompare (providerText (provider a)) (providerText (provider b)) with
  | Lt => false
  | Gt => true
  | Eq => (fkey (input b) <? fkey (input a))%Z
  end.
Proof.
  intros Hn Ha Hb.
  pose proof (sign_compareModels a b Hn Ha Hb) as S.
  pose proof (sign_nonpos (compareValue compareModels a b)) as N.
  unfold sorts_after. rewrite S in N.
  destruct (localeCompare (providerText (provider a)) (providerText (provider b))).
  - destruct (Z.compare_spec (fkey (input a)) (fkey (input b))) as [E|E|E];
      destruct (Z.ltb_spec (fkey (input b)) (fkey (input a)));
      destruct (0 <? compareValue compareModels a b); try reflexivity; try lia;
      solve [destruct N as [N _]; discriminate N; lia | destruct N as [_ N]; specialize (N eq_refl); lia].
  - destruct (0 <? compareValue compareModels a b); [|reflexivity].
    destruct N as [N _]. discriminate N. lia.
  - destruct (0 <? compareValue compareModels a b); [reflexivity|].
    destruct N as [_ N]. specialize (N eq_refl). lia.
Qed.

Lemma precedes_compareModels (a b : Pushed) :
  hasName a -> priced a -> priced b ->
  (precedes (compareValue compareModels) a b <-> modelOrder a b).
Proof.
  intros Hn Ha Hb. unfold precedes, LlmCost.modelOrder.
  rewrite sorts_after_compareModels by assumption.
  rewrite leb_fkey by assumption.
  destruct (localeCompare (providerText (provider a)) (providerText (provider b))).
  - rewrite Z.ltb_ge, Z.leb_le. split; [intros H; right; auto|intros [H|[_ H]]; [discriminate|exact H]].
  - split; [left|]; reflexivity.
  - split; [discriminate|intros [H|[H _]]; discriminate].
Qed.

Lemma compareModels_antisym (a b : Pushed) :
  hasName a -> hasName b -> priced a -> priced b ->
  sign (compareValue compareModels b a) = (- sign (compareValue compareModels a b))%Z.
Proof.
  intros Na Nb Ha Hb. rewrite !sign_compareModels by assumption.
  rewrite (localeCompare_antisym (providerText (provider a)) (providerText (provider b))).
  rewrite (Z.compare_antisym (fkey (input a)) (fkey (input b))).
  destruct (localeCompare (providerText (provider a)) (providerText (provider b)));
    cbn [CompOpp]; try reflexivity.
  destruct (fkey (input a) ?= fkey (input b))%Z; reflexivity.
Qed.

Lemma compareModels_trans (a b c : Pushed) :
  hasName a -> hasName b -> priced a -> priced b -> priced c ->
  precedes (compareValue compareModels) a b -> precedes (compareValue compareModels) b c ->
  precedes (compareValue compareModels) a c.
Proof.
  intros Na Nb Ha Hb Hc. unfold precedes. rewrite !sorts_after_compareModels by assumption.
  set (pa := providerText (provider a)). set (pb := providerText (provider b)).
  set (pc := providerText (provider c)).
  pose proof (localeCompare_trans pa pb pc) as T1.
  pose proof (localeCompare_trans pc pa pb) as T2.
  pose proof (localeCompare_trans pb pc pa) as T3.
  rewrite (localeCompare_antisym pa pc) in T2, T3.
  rewrite (localeCompare_antisym pb pc) in T2.
  rewrite (localeCompare_antisym pa pb) in T3.
  destruct (localeCompare pa pb), (localeCompare pb pc), (localeCompare pa pc);
    cbn [CompOpp] in *; try reflexivity; try discriminate;
    try (intros _ _; exfalso;
         first [solve [apply T1; congruence]|solve [apply T2; congruence]|solve [apply T3; congruence]]).
  rewrite !Z.ltb_ge. lia.
Qed.

Lemma equiv_compareModels (a b : Pushed) :
  hasName a -> hasName b -> priced a -> priced b ->
  equiv (compareValue compareModels) a b = sameKey a b.
Proof.
  intros Na Nb Ha Hb. unfold equiv, LlmCost.sameKey.
  rewrite !sorts_after_compareModels by assumption.
  rewrite (localeCompare_antisym (providerText (provider a)) (providerText (provider b))).
  destruct (localeCompare (providerText (provider a)) (providerText (provider b)));
    cbn [CompOpp]; try reflexivity.
  rewrite eqb_fkey by assumption.
  destruct (Z.ltb_spec (fkey (input b)) (fkey (input a))),
           (Z.ltb_spec (fkey (input a)) (fkey (input b))),
           (Z.eqb_spec (fkey (input a)) (fkey (input b))); cbn; reflexivity || lia.
Qed.

(** On objects whose providers are names and whose input prices are
    numbers the comparator is a consistent comparison. *)
Lemma compareModels_consistent (l : list Pushed) :
  Forall hasName l -> Forall priced l -> consistent compareModels l = true.
Proof.
  intros Hn Hp. rewrite Forall_forall in Hn, Hp. apply consistent_intro.
  - intros x y Hx _. eexists. apply compareModels_returns, Hn, Hx.
  - intros x y Hx Hy. apply compareModels_antisym; auto.
  - intros x y z Hx Hy Hz. rewrite !sign_nonpos.
    apply compareModels_trans; auto.
Qed.

(** C6, amended. When every vendor slug of the models emitted leads to a
    provider name and no normalised input price is NaN,
    [fetchLivePricing] returns, and the list it returns is a permutation
    of the normalised models, sorted by provider ascending and then by
    input price ascending, in which models with equal provider and equal
    input price keep the order the aggregator gave them. *)
Theorem fetchLivePricing_sorted (data : list Raw.Model) :
  Forall hasName (normalize data) ->
  Forall priced (normalize data) ->
  exists sorted,
    fetchLivePricing data = Normal sorted /\
    Permutation sorted (normalize data) /\
    StronglySorted modelOrder sorted /\
    forall a, hasName a -> priced a ->
      filter (sameKey a) sorted = filter (sameKey a) (normalize data).
Proof.
  intros Hn Hp.
  set (P := fun m : Pushed => hasName m /\ priced m).
  assert (H : Forall P (normalize data)).
  { rewrite Forall_forall in *. intros m Hm. split; auto. }
  assert (Tot : forall x y, P x -> P y ->
            precedes (compareValue compareModels) x y \/ precedes (compareValue compareModels) y x).
  { intros x y [Nx Px] [Ny Py].
    pose proof (compareModels_antisym x y Nx Ny Px Py) as A.
    unfold precedes, sorts_after. rewrite <- !sign_nonpos. lia. }
  assert (Tr : forall x y z, P x -> P y -> P z ->
            precedes (compareValue compareModels) x y -> precedes (compareValue compareModels) y z ->
            precedes (compareValue compareModels) x z).
  { intros x y z [Nx Px] [Ny Py] [Nz Pz]. apply compareModels_trans; assumption. }
  exists (sort (compareValue compareModels) (normalize data)).
  split; [|split; [apply sort_perm|split]].
  - unfold LlmCost.fetchLivePricing. apply arraySort_consistent.
    apply compareModels_consistent; assumption.
  - pose proof (sort_sorted (compareValue compareModels) P Tot Tr _ H) as S.
    assert (Hs : Forall P (sort (compareValue compareModels) (normalize data))).
    { rewrite Forall_forall in *. intros x Hx. apply H. apply sort_In in Hx. exact Hx. }
    revert Hs. induction S as [|a l Sl IH Ha]; intros Hs; constructor.
    + inversion Hs; subst. apply IH; assumption.
    + inversion Hs as [|? ? [Na Pa] Pl]; subst. rewrite Forall_forall in *.
      intros x Hx. destruct (Pl x Hx) as [Nx Px]. apply precedes_compareModels; auto.
  - intros a Na Pa.
    pose proof (sort_stable (compareValue compareModels) P Tr a _ (conj Na Pa) H) as S.
    rewrite (filter_ext_in (sameKey a) (equiv (compareValue compareModels) a)).
    + rewrite S. apply filter_ext_in. intros x Hx. rewrite Forall_forall in H.
      destruct (H x Hx). apply equiv_compareModels; auto.
    + intros x Hx. symmetry. apply sort_In in Hx. rewrite Forall_forall in H.
      destruct (H x Hx). apply equiv_compareModels; auto.
Qed.

End Collation.

Lemma fetchLivePricing_sorted_witness :
  let data := [ rawPriced "openai/b" (Some "0.000002") (Some "0.000008");
                rawPriced "anthropic/a" (Some "0.000003") (Some "0.000015");
                rawPriced "openai/a" (Some "0.000002") (Some "0.000001") ] in
  exists sorted,
    fetchLivePricing codeUnitCompare nativeText inPlace data = Normal sorted /\
    StronglySorted (modelOrder codeUnitCompare nativeText) sorted /\
    map id sorted = ["anthropic/a"; "openai/b"; "openai/a"].
Proof.
  intros data.
  destruct (fetchLivePricing_sorted codeUnitCompare nativeText inPlace codeUnitCompare_antisym
              codeUnitCompare_trans data) as (sorted & E & _ & S & _).
  - repeat constructor; eexists; reflexivity.
  - vm_compute. repeat constructor.
  - exists sorted. split; [exact E|]. split; [exact S|].
    clear S. vm_compute in E. injection E as <-. reflexivity.
Defined.

(** A price text that is no number gives a model whose input price is
    NaN; then no arrangement of the normalised models is sorted, whatever
    the sort does: NaN is neither at most nor at least any price. *)
Lemma fetchLivePricing_sorted_counterexample :
  let data := [ rawPriced "a/2" (Some "0.000002") (Some "0.000002");
                rawPriced "a/free" (Some "free") (Some "0.000002");
                rawPriced "a/1" (Some "0.000001") (Some "0.000002") ] in
  map id (normalize nativeText data) = ["a/2"; "a/free"; "a/1"] /\
  Forall hasName (normalize nativeText data) /\
  Exists (fun m => is_nan (input m) = true) (normalize nativeText data) /\
  ~ exists sorted,
      Permutation sorted (normalize nativeText data) /\
      StronglySorted (modelOrder codeUnitCompare nativeText) sorted.
Proof.
  intros data. split; [vm_compute; reflexivity|].
  split; [repeat constructor; eexists; reflexivity|].
  split; [right; left; vm_compute; reflexivity|].
  intros (sorted & Hp & Hs).
  remember (normalize nativeText data) as l eqn:El. vm_compute in El. subst l.
  match type of Hp with
  | Permutation _ [_; ?x; ?y] =>
      assert (Hx : In x sorted)
        by (apply (Permutation_in _ (Permutation_sym Hp)); right; left; reflexivity);
      assert (Hy : In y sorted)
        by (apply (Permutation_in _ (Permutation_sym Hp)); right; right; left; reflexivity);
      destruct (StronglySorted_related _ _ x y Hs Hx Hy) as [E|[[H|[_ H]]|[H|[_ H]]]]
  end.
  - apply (f_equal id) in E. discriminate E.
  - vm_compute in H. discriminate H.
  - vm_compute in H. discriminate H.
  - vm_compute in H. discriminate H.
  - vm_compute in H. discriminate H.
Qed.

(** ** Best-for ranking *)

Section Ranking.

Variable engine : forall A : Type, (A -> A -> completion float) -> list A -> bool * list nat.

#[local] Abbreviation best := (best engine).
#[local] Abbreviation printBestFor := (printBestFor engine).

Lemma best_eq (cat : Category) (models : list Model) :
  best cat models =
  match filter (qualifies cat) models with
  | [] => None
  | _ :: _ => hd_error (sortWith (engine Model) (rankingOf cat) (filter (qualifies cat) models))
  end.
Proof.
  unfold LlmCost.best, rankingOf. destruct (filter (qualifies cat) models); [reflexivity|].
  destruct (ranking cat); reflexivity.
Qed.

Lemma best_none (cat : Category) (models : list Model) :
  best cat models = None <-> filter (qualifies cat) models = [].
Proof.
  rewrite best_eq. destruct (filter (qualifies cat) models) as [|x l] eqn:E; [tauto|].
  split; [|discriminate]. intros H. exfalso.
  pose proof (sortWith_perm (engine Model) (rankingOf cat) (x :: l)) as P.
  destruct (sortWith (engine Model) (rankingOf cat) (x :: l)); [|discriminate].
  apply Permutation_nil in P. discriminate.
Qed.

(** The model a line names is one of those that pass the filter. *)
Lemma best_qualifies (cat : Category) (models : list Model) (b : Model) :
  best cat models = Some b -> In b models /\ qualifies cat b = true.
Proof.
  rewrite best_eq. destruct (filter (qualifies cat) models) as [|x l] eqn:E; [discriminate|].
  intros H. apply filter_In. rewrite E.
  apply (Permutation_in _ (sortWith_perm (engine Model) (rankingOf cat) (x :: l))).
  destruct (sortWith (engine Model) (rankingOf cat) (x :: l)); [discriminate|].
  injection H as ->. left. reflexivity.
Qed.

(** When the keys compared are numbers the line names the head of the
    sorted list. *)
Lemma best_head (cat : Category) (models : list Model) (b : Model) (key : Model -> float) :
  rankingOf cat = ascending key \/ rankingOf cat = descending key ->
  Forall (keyed key) (filter (qualifies cat) models) ->
  best cat models = Some b ->
  exists r, sort (rankingOf cat) (filter (qualifies cat) models) = b :: r.
Proof.
  intros R K. rewrite best_eq.
  destruct (filter (qualifies cat) models) as [|x l]; [discriminate|].
  assert (E : sortWith (engine Model) (rankingOf cat) (x :: l) = sort (rankingOf cat) (x :: l)).
  { destruct R as [-> | ->]; [apply sortWith_ascending|apply sortWith_descending]; exact K. }
  rewrite E. destruct (sort (rankingOf cat) (x :: l)) as [|y r]; [discriminate|].
  intros H. injection H as ->. eauto.
Qed.

(** C7, amended. The best-for ranking prints one line per category, in
    the order of the table.  A category that no model qualifies for
    reports no result; any other names a model that passes its filter.
    In a cost-ranked category with no NaN among the sums [input + output]
    of the models that pass the filter, the model named has the least
    sum; when no context size is NaN, "Biggest context window" names a
    model of greatest [context]; "Biggest max output" names a model of
    greatest [maxOutput || 0] (a null or zero [maxOutput] counting as
    0).  The token counts of the command line play no part: the ranking
    is a function of the model list alone. *)
Theorem printBestFor_selects (models : list Model) :
  map fst (printBestFor models) =
    ["Cheapest overall"; "Cheapest with vision"; "Cheapest with tools";
     "Cheapest reasoning/CoT"; "Cheapest JSON output"; "Cheapest ≥128K context";
     "Cheapest ≥1M context"; "Cheapest with audio";
     "Biggest context window"; "Biggest max output"] /\
  (forall cat, In cat categories ->
     In (label cat, best cat models) (printBestFor models) /\
     (filter (qualifies cat) models = [] -> best cat models = None) /\
     (filter (qualifies cat) models <> [] ->
      exists b, best cat models = Some b /\ In b models /\ qualifies cat b = true)) /\
  (forall cat b, In cat costCategories ->
     Forall (fun m => is_nan (input m + output m) = false) (filter (qualifies cat) models) ->
     best cat models = Some b ->
     In b models /\ qualifies cat b = true /\
     forall m, In m models -> qualifies cat m = true ->
       (input b + output b <=? input m + output m) = true) /\
  (forall b, Forall (fun m => is_nan (context m) = false) models ->
     best biggestContext models = Some b ->
     In b models /\ forall m, In m models -> (context m <=? context b) = true) /\
  (forall b, best biggestMaxOutput models = Some b ->
     In b models /\
     forall m, In m models -> (numberOr0 (maxOutput m) <=? numberOr0 (maxOutput b)) = true).
Proof.
  assert (F : filter (fun _ : Model => true) models = models).
  { clear. induction models as [|x l IH]; cbn; congruence. }
  split; [reflexivity|]. split; [|split; [|split]].
  - intros cat Hcat. split; [|split].
    + unfold LlmCost.printBestFor.
      apply (in_map (fun cat => (label cat, best cat models))), Hcat.
    + apply best_none.
    + intros H. destruct (best cat models) as [b|] eqn:E.
      * exists b. split; [reflexivity|]. apply (best_qualifies cat), E.
      * apply best_none in E. contradiction.
  - intros cat b Hcat Hnan Hb.
    assert (Hr : rankingOf cat = ascending sumPrice).
    { unfold costCategories in Hcat. cbn in Hcat.
      repeat (destruct Hcat as [<-|Hcat]; [reflexivity|]). contradiction. }
    destruct (best_head cat models b sumPrice (or_introl Hr) Hnan Hb) as [r S].
    rewrite Hr in S.
    destruct (sort_ascending_head sumPrice _ b r Hnan S) as [Hin Hmin].
    apply filter_In in Hin. destruct Hin as [Hin Hq].
    split; [exact Hin|]. split; [exact Hq|].
    intros m Hm Hqm. apply Hmin. apply filter_In. split; assumption.
  - intros b Hnan Hb.
    destruct (best_head biggestContext models b context (or_intror eq_refl)) as [r S];
      [cbn [qualifies biggestContext]; rewrite F; exact Hnan|exact Hb|].
    cbn [qualifies biggestContext] in S. rewrite F in S.
    apply (sort_descending_head context _ b r Hnan S).
  - intros b Hb.
    assert (K : Forall (keyed maxOutputOr0) models).
    { apply Forall_forall. intros m _. unfold keyed, maxOutputOr0, numberOr0.
      destruct (maxOutput m) as [v|]; [|reflexivity].
      unfold truthy_number. destruct (is_nan v) eqn:E; [|rewrite andb_true_r].
      + rewrite andb_false_r. reflexivity.
      + destruct (v =? 0); cbn; [reflexivity|exact E]. }
    destruct (best_head biggestMaxOutput models b maxOutputOr0 (or_intror eq_refl)) as [r S];
      [cbn [qualifies biggestMaxOutput]; rewrite F; exact K|exact Hb|].
    cbn [qualifies biggestMaxOutput] in S. rewrite F in S.
    apply (sort_descending_head maxOutputOr0 _ b r K S).
Qed.

End Ranking.

Lemma printBestFor_selects_witness :
  exists b, best inPlace (cheapest "Cheapest with vision" vision) FALLBACK_MODELS = Some b /\
            name b = "GPT-4.1 Nano" /\
            forall m, In m FALLBACK_MODELS -> vision m = true ->
              (input b + output b <=? input m + output m) = true.
Proof.
  destruct (printBestFor_selects inPlace FALLBACK_MODELS) as (_ & _ & H & _).
  exists (fallbackModel "openai/gpt-4.1-nano" "OpenAI" "GPT-4.1 Nano" 0.10 0.40 1047576 32768 true true false true).
  split; [vm_compute; reflexivity|]. split; [reflexivity|].
  intros m Hm Hv.
  eapply (H (cheapest "Cheapest with vision" vision)); try eassumption.
  - right. left. reflexivity.
  - vm_compute. repeat constructor.
  - vm_compute. reflexivity.
Defined.

(** The three models a response with a price text that is no number
    gives: one of them has a NaN sum, so no model of the list has a sum
    that is at most every other, and whichever model "Cheapest overall"
    names, it is not one of least sum. *)
Lemma printBestFor_selects_counterexample :
  let data := [ rawPriced "a/2" (Some "0.000002") (Some "0.000002");
                rawPriced "a/free" (Some "free") (Some "0.000002");
                rawPriced "a/1" (Some "0.000001") (Some "0.000002") ] in
  exists models,
    array (normalize nativeText data) = Records models /\
    filter (qualifies (cheapest "Cheapest overall" (fun _ => true))) models = models /\
    ~ exists b, In b models /\
        forall m, In m models -> (input b + output b <=? input m + output m) = true.
Proof.
  intros data. eexists. split; [vm_compute; reflexivity|]. split; [reflexivity|].
  intros (b & Hb & H).
  match type of Hb with
  | In _ [_; ?x; _] => specialize (H x ltac:(right; left; reflexivity))
  end.
  destruct Hb as [<-|[<-|[<-|[]]]]; vm_compute in H; discriminate H.
Qed.

(** ** The resolver *)

Section Resolver.

Variable localeCompare : string -> string -> comparison.
Variable stringToNumber : string -> float.
Variable functionText : string -> string.
Variable engine : forall A : Type, (A -> A -> completion float) -> list A -> bool * list nat.

#[local] Abbreviation normalize := (normalize functionText).
#[local] Abbreviation toNumber := (toNumber stringToNumber).
#[local] Abbreviation readCache := (readCache stringToNumber).
#[local] Abbreviation cached := (cached stringToNumber).
#[local] Abbreviation fetchLivePricing := (fetchLivePricing localeCompare functionText engine).
#[local] Abbreviation fetchLive := (fetchLive localeCompare functionText engine).
#[local] Abbreviation liveOrDegraded := (liveOrDegraded localeCompare functionText engine).
#[local] Abbreviation getModels := (getModels localeCompare stringToNumber functionText engine).

Lemma get_nullish (W : Type) (v : value Model) (k : string) (w : W) :
  get v k w = if nullish v then (Throw, w) else (Normal (prop v k), w).
Proof. destruct v; reflexivity. Qed.

Ltac step :=
  cbv beta iota zeta delta [bind try_catch ret throw lift existsSync readAndParse dateNow negb andb].

Lemma readCache_eq (w : World) : readCache w = (Normal (cached w), w).
Proof.
  unfold LlmCost.readCache, LlmCost.cached.
  destruct (file w) as [| |[raw|]] eqn:F; step; rewrite ?F; step; try reflexivity.
  rewrite get_nullish. destruct (nullish raw) eqn:E; step; [reflexivity|].
  destruct (toNumber (prop raw "timestamp")) as [stamp|]; step; [|reflexivity].
  destruct (CACHE_TTL_MS <? now w - stamp); step; [reflexivity|].
  rewrite get_nullish, E. reflexivity.
Qed.

Lemma staleOrFallback_eq (w : World) : staleOrFallback w = (Normal (degraded (file w)), w).
Proof.
  unfold staleOrFallback, degraded. destruct (file w) as [| |[raw|]] eqn:F; step; rewrite ?F; step;
    try reflexivity.
  rewrite get_nullish. destruct (nullish raw); reflexivity.
Qed.

Lemma liveOrDegraded_eq (w : World) :
  liveOrDegraded w =
  match network w with
  | FetchData data =>
      match fetchLivePricing data with
      | Normal ms => (Normal {| models := array ms; source := "live" |}, refreshed ms w)
      | Throw => (Normal (degraded (file w)), requested w)
      end
  | FetchFails => (Normal (degraded (file w)), requested w)
  end.
Proof.
  unfold LlmCost.liveOrDegraded, LlmCost.fetchLive, writeCache, refreshed, requested.
  destruct (network w) as [|data] eqn:N; step; rewrite ?N; step.
  - rewrite staleOrFallback_eq. reflexivity.
  - destruct (fetchLivePricing data) as [ms|]; step.
    + cbn [writable now file network requests]. destruct (writable w); reflexivity.
    + rewrite staleOrFallback_eq. reflexivity.
Qed.

Lemma getModels_eq (forceRefresh : bool) (w : World) :
  getModels forceRefresh w =
  if negb forceRefresh && truthy (cached w)
  then (Normal {| models := cached w; source := "cache" |}, w)
  else liveOrDegraded w.
Proof.
  unfold LlmCost.getModels. destruct forceRefresh; step; [reflexivity|].
  rewrite readCache_eq. destruct (truthy (cached w)); reflexivity.
Qed.

(** What the [catch] block returns is the fallback table or the stale
    file. *)
Lemma degraded_cases (f : FileState) :
  degraded f = fallbackSet \/
  exists raw, f = Content (Some raw) /\ nullish raw = false /\
              degraded f = {| models := prop raw "models"; source := "stale-cache" |}.
Proof.
  unfold degraded. destruct f as [| |[raw|]]; auto.
  destruct (nullish raw) eqn:E; [auto|]. right. exists raw. auto.
Qed.

(** What [readCache] returns, when it is not [null], is what sits under
    [models] in the file. *)
Lemma cached_truthy (w : World) :
  truthy (cached w) = true ->
  exists raw, file w = Content (Some raw) /\ cached w = prop raw "models".
Proof.
  unfold LlmCost.cached. destruct (file w) as [| |[raw|]]; try discriminate.
  destruct (nullish raw); [discriminate|].
  destruct (toNumber (prop raw "timestamp")) as [stamp|]; [|discriminate].
  destruct (CACHE_TTL_MS <? now w - stamp); [discriminate|]. eauto.
Qed.

(** The three ways [getModels] ends: with what [readCache] gave; with
    what the request gave, once written; with what the [catch] block
    gives, the request having failed or the sort having thrown. *)
Lemma getModels_cases (forceRefresh : bool) (w : World) :
  (forceRefresh = false /\ truthy (cached w) = true /\
   getModels forceRefresh w = (Normal {| models := cached w; source := "cache" |}, w)) \/
  (exists data ms,
     network w = FetchData data /\ fetchLivePricing data = Normal ms /\
     getModels forceRefresh w =
       (Normal {| models := array ms; source := "live" |}, refreshed ms w)) \/
  ((network w = FetchFails \/
    exists data, network w = FetchData data /\ fetchLivePricing data = Throw) /\
   getModels forceRefresh w = (Normal (degraded (file w)), requested w)).
Proof.
  rewrite getModels_eq.
  destruct (negb forceRefresh && truthy (cached w)) eqn:C.
  - apply andb_true_iff in C. destruct C as [C1 C2]. left.
    split; [destruct forceRefresh; [discriminate|reflexivity]|]. split; [exact C2|reflexivity].
  - right. rewrite liveOrDegraded_eq. destruct (network w) as [|data] eqn:N.
    + right. split; [left|]; reflexivity.
    + destruct (fetchLivePricing data) as [ms|] eqn:L.
      * left. exists data, ms. auto.
      * right. split; [right; exists data; auto|reflexivity].
Qed.

Lemma degraded_source (f : FileState) : source (degraded f) <> "cache" /\ source (degraded f) <> "live".
Proof.
  destruct (degraded_cases f) as [->|(raw & _ & _ & ->)]; split; discriminate.
Qed.

(** C1, amended. [getModels] never throws: whatever the cache file, the
    clock, the network and the flag are, it returns a record whose source
    is ["cache"], ["live"], ["stale-cache"] or ["fallback"].  With
    ["fallback"] the models are the built-in table and with ["live"] the
    array the normalisation built; with ["cache"] and ["stale-cache"]
    they are whatever sits under the [models] key of the parsed file (a
    truthy value for ["cache"]), which need not be a list of models.
    When the request fails and there is no cache file the result is the
    fallback table with source ["fallback"]. *)
Theorem getModels_total (forceRefresh : bool) (w : World) :
  (exists set w',
     getModels forceRefresh w = (Normal set, w') /\
     ((source set = "cache" /\ truthy (models set) = true /\
       exists raw, file w = Content (Some raw) /\ models set = prop raw "models") \/
      (source set = "live" /\
       exists data ms, network w = FetchData data /\ fetchLivePricing data = Normal ms /\
                       models set = array ms) \/
      (source set = "stale-cache" /\
       exists raw, file w = Content (Some raw) /\ models set = prop raw "models") \/
      set = fallbackSet)) /\
  (network w = FetchFails -> file w = NoFile ->
   exists w', getModels forceRefresh w = (Normal fallbackSet, w')) /\
  fallbackSet = {| models := Records FALLBACK_MODELS; source := "fallback" |}.
Proof.
  split; [|split; [|reflexivity]].
  - destruct (getModels_cases forceRefresh w) as [(_ & T & E)|[(data & ms & N & L & E)|(_ & E)]];
      rewrite E; eexists _, _; (split; [reflexivity|]); cbn [source models].
    + left. split; [reflexivity|]. split; [exact T|]. apply cached_truthy, T.
    + right. left. split; [reflexivity|]. eauto.
    + destruct (degraded_cases (file w)) as [->|(raw & F & _ & ->)]; cbn [source models].
      * right. right. right. reflexivity.
      * right. right. left. split; [reflexivity|]. eauto.
  - intros N F.
    destruct (getModels_cases forceRefresh w) as [(_ & T & _)|[(data & ms & N' & _)|(_ & E)]].
    + unfold LlmCost.cached in T. rewrite F in T. discriminate.
    + congruence.
    + rewrite E, F. eauto.
Qed.

(** C2, amended. With [forceRefresh] false, a cache file that exists and
    parses, whose timestamp is at most six hours old and which holds a
    truthy value under [models], is answered from: that value is returned
    with source ["cache"] and no request is made (the world is
    unchanged).  [readCache] returns [null] when the file is absent,
    unreadable or unparseable, or when [now - timestamp] exceeds the six
    hours; and it never throws. *)
Theorem getModels_fresh_cache (w : World) :
  (forall raw stamp,
     file w = Content (Some raw) ->
     toNumber (prop raw "timestamp") = Normal stamp ->
     (now w - stamp <=? CACHE_TTL_MS) = true ->
     truthy (prop raw "models") = true ->
     getModels false w = (Normal {| models := prop raw "models"; source := "cache" |}, w)) /\
  (file w = NoFile \/ file w = Unreadable \/ file w = Content None \/
   (exists raw stamp, file w = Content (Some raw) /\
      toNumber (prop raw "timestamp") = Normal stamp /\
      (CACHE_TTL_MS <? now w - stamp) = true) ->
   readCache w = (Normal Null, w)) /\
  (exists v, readCache w = (Normal v, w)).
Proof.
  split; [|split; [|rewrite readCache_eq; eauto]].
  - intros raw stamp F S Hfresh T.
    assert (C : cached w = prop raw "models").
    { unfold LlmCost.cached. rewrite F.
      destruct (nullish raw) eqn:E; [destruct raw; discriminate|].
      rewrite S, (leb_not_gtb _ _ Hfresh). reflexivity. }
    rewrite getModels_eq, C, T. reflexivity.
  - rewrite readCache_eq. unfold LlmCost.cached.
    intros [F|[F|[F|(raw & stamp & F & S & Hexp)]]]; rewrite F; try reflexivity.
    destruct (nullish raw); [reflexivity|]. rewrite S, Hexp. reflexivity.
Qed.

(** C9, amended. When the request is made and fails, the result is the
    fallback table exactly when the cache file does not exist, cannot be
    read, does not parse as JSON, or parses to [null]; any other parsed
    value, whatever its shape, is returned with source ["stale-cache"]
    and with whatever sits under its [models] key, [undefined] when there
    is none. *)
Theorem getModels_after_failure (forceRefresh : bool) (w w' : World) (set : ResolvedSet) :
  network w = FetchFails ->
  getModels forceRefresh w = (Normal set, w') ->
  source set <> "cache" ->
  set = match file w with
        | Content (Some raw) =>
            if nullish raw then fallbackSet
            else {| models := prop raw "models"; source := "stale-cache" |}
        | _ => fallbackSet
        end /\
  requests w' = S (requests w).
Proof.
  intros Hn E Hs.
  destruct (getModels_cases forceRefresh w) as [(_ & _ & E')|[(data & ms & N & _)|(_ & E')]].
  - rewrite E' in E. injection E as <- <-. cbn in Hs. congruence.
  - congruence.
  - rewrite E' in E. injection E as <- <-. split; reflexivity.
Qed.

End Resolver.

Lemma getModels_fresh_cache_witness :
  let w := offline (Content (Some (Obj [("timestamp", Num 1699999000000);
                                        ("models", Records FALLBACK_MODELS)]))) in
  getModels codeUnitCompare (fun _ => nan) nativeText inPlace false w =
    (Normal {| models := Records FALLBACK_MODELS; source := "cache" |}, w) /\
  readCache (fun _ => nan) (offline NoFile) = (Normal Null, offline NoFile).
Proof.
  intros w. split.
  - apply (proj1 (getModels_fresh_cache codeUnitCompare (fun _ => nan) nativeText inPlace w)
             (Obj [("timestamp", Num 1699999000000); ("models", Records FALLBACK_MODELS)])
             1699999000000); reflexivity.
  - apply (proj1 (proj2 (getModels_fresh_cache codeUnitCompare (fun _ => nan) nativeText inPlace
                           (offline NoFile)))).
    left. reflexivity.
Defined.

(** A cache file written a thousand seconds ago that holds [null] under
    [models]: it exists, parses and is fresh, yet the request is made
    (and, failing, leaves the stale file as the answer). *)
Lemma getModels_fresh_cache_counterexample :
  let w := offline (Content (Some (Obj [("timestamp", Num 1699999000000); ("models", Null)]))) in
  (now w - 1699999000000 <=? CACHE_TTL_MS) = true /\
  exists w',
    getModels codeUnitCompare (fun _ => nan) nativeText inPlace false w =
      (Normal {| models := Null; source := "stale-cache" |}, w') /\
    requests w' = 1%nat.
Proof. split; [|eexists; split]; vm_compute; reflexivity. Qed.

(** A cache file that parses to an object with no [models] key: with the
    request failing the resolver returns a record whose [models] is
    [undefined], which is no list of models.  A fresh cache file that
    holds a text under [models] is answered from, and the text is what
    the caller gets. *)
Lemma getModels_total_counterexample :
  (exists w',
     getModels codeUnitCompare (fun _ => nan) nativeText inPlace true
               (offline (Content (Some (Obj [("version", Num 2)])))) =
       (Normal {| models := Undefined; source := "stale-cache" |}, w')) /\
  (let w := offline (Content (Some (Obj [("timestamp", Num 1699999000000);
                                         ("models", Str "none")]))) in
   getModels codeUnitCompare (fun _ => nan) nativeText inPlace false w =
     (Normal {| models := Str "none"; source := "cache" |}, w)).
Proof. split; [eexists|]; vm_compute; reflexivity. Qed.

Lemma getModels_after_failure_witness :
  let w := offline (Content (Some (Obj [("version", Num 2)]))) in
  exists w',
    getModels codeUnitCompare (fun _ => nan) nativeText inPlace true w =
      (Normal {| models := Undefined; source := "stale-cache" |}, w') /\
    requests w' = 1%nat.
Proof.
  intros w.
  assert (E : getModels codeUnitCompare (fun _ => nan) nativeText inPlace true w =
              (Normal {| models := Undefined; source := "stale-cache" |}, requested w))
    by (vm_compute; reflexivity).
  destruct (getModels_after_failure codeUnitCompare (fun _ => nan) nativeText inPlace
              true w _ _ eq_refl E) as [_ Hr]; [discriminate|].
  exists (requested w). split; [exact E|exact Hr].
Defined.

(** A cache file that holds the JSON text [null] parses, yet the result
    is the fallback table: reading [models] off [null] throws.  So does a
    file that exists but cannot be read. *)
Lemma getModels_after_failure_counterexample :
  (exists w', getModels codeUnitCompare (fun _ => nan) nativeText inPlace true
                (offline (Content (Some Null))) =
                (Normal {| models := Records FALLBACK_MODELS; source := "fallback" |}, w')) /\
  (exists w', getModels codeUnitCompare (fun _ => nan) nativeText inPlace true (offline Unreadable) =
                (Normal {| models := Records FALLBACK_MODELS; source := "fallback" |}, w')).
Proof. split; eexists; vm_compute; reflexivity. Qed.

(** ** The JSON output *)

Lemma stringifyProperties_keys (fields : list (string * value Model)) (k : string) :
  In k (map fst (stringifyProperties fields)) <->
  exists v, In (k, v) fields /\ v <> Undefined.
Proof.
  unfold stringifyProperties. induction fields as [|[k' v'] rest IH]; cbn [flat_map].
  - cbn. split; [contradiction|intros (v & [] & _)].
  - rewrite map_app, in_app_iff, IH. cbn [fst snd]. split.
    + intros [H|(v & Hin & Hv)].
      * exists v'. assert (A : k = k' /\ v' <> Undefined).
        { destruct v'; try (cbn in H; destruct H as [<-|[]]; split; [reflexivity|discriminate]).
          - contradiction.
          - destruct (is_nan x || (abs x =? infinity)); cbn in H; destruct H as [<-|[]];
              (split; [reflexivity|discriminate]). }
        destruct A as [-> A]. split; [left; reflexivity|exact A].
      * exists v. split; [right; exact Hin|exact Hv].
    + intros (v & [E|Hin] & Hv).
      * injection E as -> ->. left.
        destruct v; try (left; reflexivity); [congruence|].
        destruct (is_nan x || (abs x =? infinity)); left; reflexivity.
      * right. eauto.
Qed.

Lemma optionalNumber_In (key : string) (x : option float) (k : string) (v : value Model) :
  In (k, v) (optionalNumber key x) <->
  k = key /\ exists y, x = Some y /\ truthy_number y = true /\ v = Num y.
Proof.
  unfold optionalNumber. destruct x as [y|]; [destruct (truthy_number y) eqn:T|]; cbn.
  - split.
    + intros [E|[]]. injection E as <- <-. eauto.
    + intros (-> & y' & E & _ & ->). injection E as <-. left. reflexivity.
  - split; [contradiction|]. intros (_ & y' & E & T' & _). congruence.
  - split; [contradiction|]. intros (_ & y' & E & _). discriminate.
Qed.

Ltac entry_cases H :=
  rewrite ?in_app_iff in H; cbn [In] in H;
  repeat match type of H with
         | _ \/ _ => destruct H as [H|H]
         end;
  try contradiction;
  try (apply optionalNumber_In in H; destruct H as (H & _); discriminate);
  try (injection H as H _; discriminate).

(** The cases of an optional key: it can only come from its own
    [optionalNumber], which gives it a truthy value. *)
Ltac optional_cases H :=
  rewrite ?in_app_iff in H;
  repeat (destruct H as [H|H]);
  try (let Hk := fresh in let y := fresh in let Ey := fresh in let T := fresh in
       apply optionalNumber_In in H; destruct H as (Hk & y & Ey & T & _);
       first [discriminate Hk|rewrite Ey; exact T]);
  cbn [In] in H; repeat (destruct H as [H|H]); try contradiction;
  injection H as H _; discriminate.

(** C10. In an element of the [models] array of the JSON output, each of
    [max_output], [cache_read_per_1m], [cache_write_per_1m] and
    [thinking_per_1m] is present exactly when the model's value is a
    number other than zero (and not NaN): it is left out when the value
    is null and also when it is 0.  So a model whose four values are 0
    and the same model with null in their place give the same element,
    although the two records differ. *)
Theorem jsonEntry_omits (monthly : option float) (r : Row) :
  let m := model r in
  let keys := map fst (jsonEntry monthly r) in
  (In "max_output" keys <-> truthyNumber (maxOutput m) = true) /\
  (In "cache_read_per_1m" keys <-> truthyNumber (cacheRead m) = true) /\
  (In "cache_write_per_1m" keys <-> truthyNumber (cacheWrite m) = true) /\
  (In "thinking_per_1m" keys <-> truthyNumber (thinkingCost m) = true) /\
  truthyNumber None = false /\
  (forall x, (x =? 0) = true -> truthyNumber (Some x) = false) /\
  jsonEntry monthly {| model := withOptional m (Some 0) (Some 0) (Some 0) (Some 0);
                       cost := cost r; monthlyCost := monthlyCost r |} =
  jsonEntry monthly {| model := withOptional m None None None None;
                       cost := cost r; monthlyCost := monthlyCost r |} /\
  withOptional m (Some 0) (Some 0) (Some 0) (Some 0) <> withOptional m None None None None.
Proof.
  intros m keys. unfold keys, jsonEntry. fold m.
  repeat split.
  - rewrite stringifyProperties_keys. intros (v & H & Hv).
    destruct (truthyNumber monthly); entry_cases H.
    all: apply (f_equal snd) in H; cbn [snd] in H; unfold truthyNumber;
      destruct (maxOutput m) as [y|]; [destruct (truthy_number y)|]; congruence.
  - intros T. apply stringifyProperties_keys. unfold truthyNumber in T.
    destruct (maxOutput m) as [y|]; [|discriminate]. rewrite T.
    exists (Num y). split; [|discriminate]. rewrite !in_app_iff. left. cbn. tauto.
  - rewrite stringifyProperties_keys. intros (v & H & Hv).
    destruct (truthyNumber monthly); optional_cases H.
  - intros T. apply stringifyProperties_keys. unfold truthyNumber in T.
    destruct (cacheRead m) as [y|] eqn:E; [|discriminate].
    exists (Num y). split; [|discriminate]. rewrite !in_app_iff.
    right. right. right. left. apply optionalNumber_In. eauto.
  - rewrite stringifyProperties_keys. intros (v & H & Hv).
    destruct (truthyNumber monthly); optional_cases H.
  - intros T. apply stringifyProperties_keys. unfold truthyNumber in T.
    destruct (cacheWrite m) as [y|] eqn:E; [|discriminate].
    exists (Num y). split; [|discriminate]. rewrite !in_app_iff.
    right. right. right. right. left. apply optionalNumber_In. eauto.
  - rewrite stringifyProperties_keys. intros (v & H & Hv).
    destruct (truthyNumber monthly); optional_cases H.
  - intros T. apply stringifyProperties_keys. unfold truthyNumber in T.
    destruct (thinkingCost m) as [y|] eqn:E; [|discriminate].
    exists (Num y). split; [|discriminate]. rewrite !in_app_iff.
    right. right. right. right. right. apply optionalNumber_In. eauto.
  - intros x Hx. unfold truthyNumber, truthy_number. rewrite Hx. reflexivity.
  - intros E. apply (f_equal maxOutput) in E. discriminate.
Qed.

(** ** Further properties *)

(** *** Numbers *)

(** The number an integer below [2^53] is. *)
Lemma numberOfNat_exact (n : nat) :
  (Z.of_nat n < 2 ^ 53)%Z ->
  is_nan (numberOfNat n) = false /\
  fkey (numberOfNat n) = (Z.of_nat n * 2 ^ 1074)%Z /\
  (0 < n -> exists m e, Prim2SF (numberOfNat n) = S754_finite false m e /\
                          (e <= 0)%Z /\ Zpos m = (Z.of_nat n * 2 ^ (- e))%Z)%nat.
Proof.
  intros H. unfold numberOfNat, number_of_decimal.
  destruct (N.of_nat n) as [|p] eqn:E.
  - assert (n = 0)%nat by lia. subst n. split; [reflexivity|]. split; [reflexivity|lia].
  - assert (Ep : Z.of_nat n = Zpos p) by lia. rewrite Ep in *.
    unfold round_decimal.
    replace (cond_Zopp false (Zpos p * 10 ^ 0))%Z with (Zpos p) by (cbn [cond_Zopp]; lia).
    cbn [binary_normalize].
    destruct (binary_round_exact false p H) as (m & e & R & He & Hm).
    assert (P : Prim2SF (SF2Prim (binary_round prec emax false p 0)) = S754_finite false m e).
    { rewrite Prim2SF_SF2Prim by apply binary_round_valid. exact R. }
    split; [apply not_nan_Prim2SF; rewrite P; discriminate|].
    split; [|intros _; exists m, e; auto].
    unfold fkey. rewrite P. cbn [sf_key cond_Zopp]. rewrite Hm.
    pose proof (Prim2SF_valid (SF2Prim (binary_round prec emax false p 0))) as V.
    rewrite P in V. destruct (bounded_inv _ _ V) as (Be & _).
    rewrite <- Z.mul_assoc, <- Z.pow_add_r by (unfold SpecFloat.emin, prec, emax in *; lia).
    f_equal. f_equal. unfold SpecFloat.emin, prec, emax. lia.
Qed.

Lemma mathMax_cases (a b : float) :
  is_nan a = false -> is_nan b = false ->
  (mathMax a b = a /\ (fkey b <= fkey a)%Z) \/ (mathMax a b = b /\ (fkey a <= fkey b)%Z).
Proof.
  intros Ha Hb. unfold mathMax. rewrite Ha, Hb. cbn [orb].
  rewrite !ltb_fkey by assumption.
  destruct (Z.ltb_spec (fkey a) (fkey b)); [right; split; [reflexivity|lia]|].
  destruct (Z.ltb_spec (fkey b) (fkey a)); [left; split; [reflexivity|lia]|].
  destruct (Leibniz.eqb a neg_zero); [right|left]; split; try reflexivity; lia.
Qed.

Lemma numberOfNat_not_nan (n : nat) : is_nan (numberOfNat n) = false.
Proof.
  unfold numberOfNat, number_of_decimal. destruct (N.of_nat n) as [|p]; [reflexivity|].
  apply not_nan_Prim2SF. unfold round_decimal.
  replace (cond_Zopp false (Zpos p * 10 ^ 0))%Z with (Zpos p) by (cbn [cond_Zopp]; lia).
  cbn [binary_normalize]. rewrite Prim2SF_SF2Prim by apply binary_round_valid.
  destruct (binary_round_signed false p 0) as [E|[(m & e & E)|E]]; rewrite E; discriminate.
Qed.

(** An integer converts to a number, never to NaN. *)
Lemma number_of_integer_not_nan (neg : bool) (n : N) :
  is_nan (number_of_decimal neg n 0) = false.
Proof.
  unfold number_of_decimal. destruct n as [|p]; [destruct neg; reflexivity|].
  apply not_nan_Prim2SF. unfold round_decimal.
  replace (cond_Zopp neg (Zpos p * 10 ^ 0))%Z with (cond_Zopp neg (Zpos p))
    by (f_equal; lia).
  rewrite Prim2SF_SF2Prim by (destruct neg; apply binary_round_valid).
  destruct neg; cbn [cond_Zopp Z.opp binary_normalize];
  match goal with |- binary_round _ _ ?s p 0 <> _ =>
    destruct (binary_round_signed s p 0) as [E|[(m & e & E)|E]]; rewrite E; discriminate end.
Qed.

Lemma mathCeil_not_nan (x : float) : is_nan x = false -> is_nan (mathCeil x) = false.
Proof.
  intros H. unfold mathCeil.
  destruct (Prim2SF x) as [s|s| |s m [|k|k]]; try exact H.
  destruct s; [apply number_of_integer_not_nan|].
  destruct (_ =? _)%Z; [exact H|apply number_of_integer_not_nan].
Qed.

Lemma Prim2SF_4 : Prim2SF 4 = S754_finite false 4503599627370496 (-50).
Proof. reflexivity. Qed.

Lemma quarter_not_nan (n : nat) : is_nan (numberOfNat n / 4) = false.
Proof.
  apply not_nan_Prim2SF. rewrite div_spec, Prim2SF_4.
  unfold numberOfNat, number_of_decimal.
  destruct (N.of_nat n) as [|p]; [discriminate|].
  unfold round_decimal.
  replace (cond_Zopp false (Zpos p * 10 ^ 0))%Z with (Zpos p) by (cbn [cond_Zopp]; lia).
  cbn [binary_normalize]. rewrite Prim2SF_SF2Prim by apply binary_round_valid.
  pose proof (binary_round_valid false p 0) as V.
  destruct (binary_round_signed false p 0) as [E|[(m & e & E)|E]]; rewrite E in *;
    try discriminate.
  intros N.
  destruct (SFdiv_nonneg_finite (S754_finite false m e)
              (S754_finite false 4503599627370496 (-50)) V eq_refl eq_refl eq_refl) as [X _].
  - exists 4503599627370496%positive, (-50)%Z. split; [reflexivity|]. cbn. lia.
  - rewrite N in X. discriminate.
Qed.

Lemma estimateTokens_truthy (text : string) : truthy_number (estimateTokens text) = true.
Proof.
  unfold estimateTokens. apply truthy_number_iff.
  pose proof (mathCeil_not_nan _ (quarter_not_nan (String.length text))) as N.
  destruct (mathMax_cases 1 _ eq_refl N) as [[-> L]|[-> L]].
  - split; [reflexivity|]. vm_compute. discriminate.
  - split; [exact N|]. change (fkey 1) with (2 ^ 1074)%Z in L.
    assert (0 < 2 ^ 1074)%Z by (apply Z.pow_pos_nonneg; lia). lia.
Qed.

(** A positive integer below [2^53] divided by 4: the division is exact,
    the exponent drops by 2. *)
Lemma quarter_exact (n : nat) :
  (0 < n)%nat -> (Z.of_nat n < 2 ^ 53)%Z ->
  exists m e, Prim2SF (numberOfNat n / 4) = S754_finite false m (e - 2) /\
              (e <= 0)%Z /\ Zpos m = (Z.of_nat n * 2 ^ (- e))%Z.
Proof.
  intros Hn H. destruct (numberOfNat_exact n H) as (_ & _ & X).
  destruct (X Hn) as (m & e & P & He & Hm).
  pose proof (Prim2SF_valid (numberOfNat n)) as V. rewrite P in V.
  destruct (bounded_inv _ _ V) as (Be & Bd & Bn).
  assert (Hd : (Zpos m < 2 ^ 53)%Z).
  { rewrite Zdigits2_log2 in Bd by lia. apply Z.log2_lt_pow2; [lia|].
    unfold prec in Bd. lia. }
  assert (Le : (- 53 < e)%Z).
  { destruct (Z.le_gt_cases e (-53)) as [L|L]; [|lia]. exfalso.
    assert (2 ^ 53 <= 2 ^ (- e))%Z by (apply Z.pow_le_mono_r; lia). nia. }
  exists m, e. split; [|split; assumption].
  rewrite div_spec, P, Prim2SF_4. unfold SF64div. apply SFdiv_4.
  - apply Bn. unfold emin, emax, prec. lia.
  - unfold emin, emax, prec in *. lia.
Qed.

(** [Math.ceil(n / 4)] is the integer quotient of [n + 3] by 4. *)
Lemma mathCeil_quarter (n : nat) :
  (0 < n)%nat -> (Z.of_nat n < 2 ^ 53)%Z ->
  exists m e, Prim2SF (mathCeil (numberOfNat n / 4)) = S754_finite false m e /\
              (e <= 0)%Z /\ Zpos m = (Z.of_nat ((n + 3) / 4) * 2 ^ (- e))%Z.
Proof.
  intros Hn H. destruct (quarter_exact n Hn H) as (m & e & Q & He & Hm).
  assert (D : Z.of_nat ((n + 3) / 4) = ((Z.of_nat n + 3) / 4)%Z).
  { rewrite Nat2Z.inj_div, Nat2Z.inj_add. reflexivity. }
  unfold mathCeil. rewrite Q.
  destruct (e - 2)%Z as [|k|k] eqn:Ek; try lia.
  assert (Hk : Zpos k = (2 - e)%Z) by lia.
  assert (P2 : (2 ^ Zpos k = 4 * 2 ^ (- e))%Z).
  { rewrite Hk. replace (2 - e)%Z with (2 + - e)%Z by lia.
    rewrite Z.pow_add_r by lia. reflexivity. }
  assert (Pp : (0 < 2 ^ (- e))%Z) by (apply Z.pow_pos_nonneg; lia).
  assert (W : Z.shiftr (Zpos m) (Zpos k) = (Z.of_nat n / 4)%Z).
  { rewrite Z.shiftr_div_pow2 by lia. rewrite P2, Hm.
    rewrite Z.div_mul_cancel_r by lia. reflexivity. }
  cbv zeta. rewrite W, Z.shiftl_mul_pow2 by lia. rewrite P2.
  pose proof (Z.div_mod (Z.of_nat n) 4 ltac:(lia)) as DM.
  pose proof (Z.mod_pos_bound (Z.of_nat n) 4 ltac:(lia)) as MB.
  destruct (Z.eqb_spec (Z.of_nat n / 4 * (4 * 2 ^ (- e))) (Zpos m)) as [E|E].
  - rewrite Q. exists m, (Z.neg k). split; [reflexivity|]. split; [lia|].
    assert (R : (Z.of_nat n mod 4 = 0)%Z) by nia.
    replace (- Z.neg k)%Z with (Z.pos k) by lia. rewrite P2, D.
    replace ((Z.of_nat n + 3) / 4)%Z with (Z.of_nat n / 4)%Z; [symmetry; exact E|].
    apply Z.div_unique with (r := 3%Z); lia.
  - assert (R : (Z.of_nat n mod 4 <> 0)%Z) by (intros R; apply E; nia).
    assert (U : ((Z.of_nat n + 3) / 4 = Z.of_nat n / 4 + 1)%Z).
    { symmetry. apply Z.div_unique with (r := (Z.of_nat n mod 4 - 1)%Z); lia. }
    replace (Z.to_N (Z.of_nat n / 4 + 1)) with (N.of_nat ((n + 3) / 4)) by lia.
    fold (numberOfNat ((n + 3) / 4)).
    assert (B : (Z.of_nat ((n + 3) / 4) < 2 ^ 53)%Z).
    { rewrite D, U. assert (Z.of_nat n / 4 < Z.of_nat n)%Z by (apply Z.div_lt; lia). lia. }
    destruct (numberOfNat_exact _ B) as (_ & _ & X). apply X. lia.
Qed.

Lemma mul_not_nan (x c : float) (m : positive) (e : Z) :
  Prim2SF c = S754_finite false m e ->
  truthy_number x = true -> is_nan (x * c) = false.
Proof.
  intros C T. apply truthy_number_iff in T. destruct T as [N K].
  apply not_nan_Prim2SF. rewrite mul_spec, C.
  pose proof (Prim2SF_not_nan x N) as Nx. unfold fkey in K.
  destruct (Prim2SF x) as [s|s| |s mx ex]; cbn [sf_key] in K; try congruence;
    unfold SF64mul, SFmul; try discriminate.
  match goal with
  | |- context [binary_round_aux _ _ ?c ?d ?e ?f] =>
      destruct (binary_round_aux_signed c d e f) as [E|[(m' & e' & E)|E]];
        [lia|rewrite E; discriminate..]
  end.
Qed.

Lemma numberOr0_not_nan (x : option float) : is_nan (numberOr0 x) = false.
Proof.
  unfold numberOr0. destruct x as [v|]; [|reflexivity].
  destruct (truthy_number v) eqn:T; [|reflexivity].
  apply truthy_number_iff in T. apply T.
Qed.

(** *** The resolver, further *)

Lemma jsonNumber_stored (x : float) : jsonNumber x = true -> storedNumber x = Some x.
Proof.
  unfold jsonNumber, storedNumber. intros H.
  destruct (Prim2SF x) as [s|s| |s m e] eqn:E; try discriminate; [|reflexivity].
  destruct s; [discriminate|]. f_equal.
  rewrite <- (SF2Prim_Prim2SF x), E. reflexivity.
Qed.

Lemma jsonOptional_stored (x : option float) : jsonOptional x = true -> storedOptional x = x.
Proof.
  destruct x as [v|]; [|reflexivity]. cbn. apply jsonNumber_stored.
Qed.

(** A pushed object that is a storable model is read back as it was
    written. *)
Lemma kept_stored (m : Pushed) :
  kept m = true -> exists m', named m = Some m' /\ storedModel m = Some m' /\ storable m' = true.
Proof.
  unfold kept, named, storedModel. destruct m as [i p n a b c mo v au vi io t r so cr cw tc d].
  cbn [provider]. destruct p as [s|member]; [|discriminate].
  intros H. eexists. split; [reflexivity|]. split; [|exact H].
  unfold storable, withProvider in H. cbn in H.
  repeat (apply andb_true_iff in H; destruct H as [H ?]).
  cbn. rewrite !jsonNumber_stored, !jsonOptional_stored by assumption. reflexivity.
Qed.

Lemma kept_collect (ms : list Pushed) :
  forallb kept ms = true ->
  exists l, collect named ms = Some l /\ collect storedModel ms = Some l /\
            forallb storable l = true.
Proof.
  induction ms as [|m ms IH]; cbn [forallb collect]; [eauto|].
  intros H. apply andb_true_iff in H. destruct H as [Hm Hms].
  destruct (kept_stored m Hm) as (m' & -> & -> & S).
  destruct (IH Hms) as (l & -> & -> & Sl).
  exists (m' :: l). cbn [forallb]. rewrite S, Sl. auto.
Qed.

Lemma kept_hasName (m : Pushed) : kept m = true -> hasName m.
Proof.
  unfold kept, named, hasName. destruct (provider m) as [s|member]; [eauto|discriminate].
Qed.

Section Resolved.

Variable localeCompare : string -> string -> comparison.
Variable stringToNumber : string -> float.
Variable functionText : string -> string.
Variable engine : forall A : Type, (A -> A -> completion float) -> list A -> bool * list nat.

#[local] Abbreviation normalize := (normalize functionText).
#[local] Abbreviation toNumber := (toNumber stringToNumber).
#[local] Abbreviation readCache := (readCache stringToNumber).
#[local] Abbreviation cached := (cached stringToNumber).
#[local] Abbreviation compareModels := (compareModels localeCompare functionText).
#[local] Abbreviation fetchLivePricing := (fetchLivePricing localeCompare functionText engine).
#[local] Abbreviation getModels := (getModels localeCompare stringToNumber functionText engine).
#[local] Abbreviation getModels_cases :=
  (getModels_cases localeCompare stringToNumber functionText engine).

(** When every provider is a name the comparator never throws, and the
    sort returns. *)
Lemma fetchLivePricing_returns (data : list Raw.Model) :
  Forall hasName (normalize data) ->
  exists ms, fetchLivePricing data = Normal ms /\ Permutation ms (normalize data).
Proof.
  intros H. rewrite Forall_forall in H.
  destruct (arraySort_returns (engine Pushed) compareModels (normalize data)) as [ms E].
  - intros x y Hx _. destruct (H x Hx) as [s Es].
    unfold throwsAt, LlmCost.compareModels. rewrite Es. reflexivity.
  - exists ms. split; [exact E|]. apply (arraySort_perm (engine Pushed) compareModels), E.
Qed.

(** Nothing is compared when fewer than two models are emitted. *)
Lemma fetchLivePricing_short (data : list Raw.Model) :
  (List.length (normalize data) < 2)%nat -> fetchLivePricing data = Normal (normalize data).
Proof.
  intros H. unfold LlmCost.fetchLivePricing, arraySort.
  destruct (Nat.ltb_spec (List.length (normalize data)) 2); [reflexivity|lia].
Qed.

(** X1. [getModels] always returns, and it makes at most one request:
    none when the result comes from the cache, which happens only
    without [--refresh], and exactly one otherwise.  The clock, the
    network and the permission to write are left as they were. *)
Theorem getModels_requests (forceRefresh : bool) (w : World) :
  exists set w',
    getModels forceRefresh w = (Normal set, w') /\
    (source set = "cache" -> forceRefresh = false /\ w' = w) /\
    (source set <> "cache" -> requests w' = S (requests w)) /\
    now w' = now w /\ network w' = network w /\ writable w' = writable w.
Proof.
  destruct (getModels_cases forceRefresh w) as [(F & _ & E)|[(data & ms & _ & _ & E)|(_ & E)]];
    rewrite E; eexists _, _; (split; [reflexivity|]); cbn [source].
  - repeat split; congruence.
  - repeat split; try reflexivity; intros; discriminate.
  - destruct (degraded_source (file w)) as [S _].
    repeat split; try reflexivity; intros; congruence.
Qed.

(** X2. [getModels] changes the cache file only when the request and the
    sort that follows it succeeded: unless the source is ["live"] the file
    is what it was.  With source ["live"] it is unchanged if it cannot be
    written, and otherwise holds what JSON keeps of the current time and
    of the array just built; when the clock and every number of the
    models are numbers JSON preserves and every provider is a name, that
    is the current time and the same models. *)
Theorem getModels_writes (forceRefresh : bool) (w : World) :
  exists set w',
    getModels forceRefresh w = (Normal set, w') /\
    (source set <> "live" -> file w' = file w) /\
    (source set = "live" ->
     exists data ms,
       network w = FetchData data /\ fetchLivePricing data = Normal ms /\
       models set = array ms /\
       (writable w = false -> file w' = file w) /\
       (writable w = true -> file w' = Content (Some (snapshot (now w) ms))) /\
       (jsonNumber (now w) = true -> forallb kept ms = true ->
        exists l, array ms = Records l /\
          snapshot (now w) ms = Obj [("timestamp", Num (now w)); ("models", Records l)])).
Proof.
  destruct (getModels_cases forceRefresh w) as [(F & _ & E)|[(data & ms & N & L & E)|(_ & E)]];
    rewrite E; eexists _, _; (split; [reflexivity|]); cbn [source models].
  - split; [reflexivity|discriminate].
  - split; [congruence|]. intros _. exists data, ms.
    split; [exact N|]. split; [exact L|]. split; [reflexivity|]. cbn [refreshed file].
    split; [intros ->; reflexivity|]. split; [intros ->; reflexivity|].
    intros T K. destruct (kept_collect ms K) as (l & C1 & C2 & _).
    exists l. unfold array, snapshot. rewrite C1, C2, (jsonNumber_stored _ T). auto.
  - destruct (degraded_source (file w)) as [_ S]. split; [reflexivity|contradiction].
Qed.

(** X3. The source [getModels] reports is one of the four names
    [sourceLabel] knows, so the label shown is one of its four texts.
    A failed request never gives ["live"].  When the request would
    succeed the source is ["cache"] or ["live"], provided every provider
    of the models emitted is a name, or fewer than two models are
    emitted: the comparator of the sort then does not throw. *)
Theorem getModels_source (forceRefresh : bool) (w : World) :
  exists set w',
    getModels forceRefresh w = (Normal set, w') /\
    In (source set) ["cache"; "live"; "stale-cache"; "fallback"] /\
    In (sourceLabel (source set))
       ["cached"; "live from OpenRouter"; "stale cache (offline)"; "offline fallback"] /\
    (network w = FetchFails -> source set <> "live") /\
    (forall data, network w = FetchData data ->
       Forall hasName (normalize data) \/ (List.length (normalize data) < 2)%nat ->
       source set = "cache" \/ source set = "live").
Proof.
  destruct (getModels_cases forceRefresh w) as [(F & _ & E)|[(data & ms & N & L & E)|(N & E)]];
    rewrite E; eexists _, _; (split; [reflexivity|]); cbn [source].
  - split; [cbn; tauto|]. split; [cbn; tauto|]. split; [discriminate|]. auto.
  - split; [cbn; tauto|]. split; [cbn; tauto|]. split; [congruence|]. auto.
  - assert (S : In (source (degraded (file w))) ["stale-cache"; "fallback"]).
    { destruct (degraded_cases (file w)) as [->|(raw & _ & _ & ->)]; cbn; tauto. }
    destruct (degraded_source (file w)) as [_ S'].
    split; [cbn in S |- *; tauto|].
    split; [destruct S as [<-|[<-|[]]]; cbn; tauto|].
    split; [intros _; exact S'|].
    intros data Nd H. exfalso.
    destruct N as [N|(data' & N & T)]; [congruence|].
    assert (data' = data) by congruence. subst data'.
    destruct H as [H|H].
    + destruct (fetchLivePricing_returns data H) as (ms & R & _). congruence.
    + rewrite (fetchLivePricing_short data H) in T. discriminate.
Qed.

(** X4. A cache file whose [timestamp] converts to NaN, as a missing one
    does, never expires: [Date.now() - raw.timestamp] is NaN, the test
    against the six hours is false, and [readCache] returns the [models]
    of the file whatever the clock says; [getModels] then answers from
    the cache when that value is truthy. *)
Theorem readCache_undated (w : World) (fields : list (string * value Model)) (stamp : float) :
  file w = Content (Some (Obj fields)) ->
  toNumber (lookup "timestamp" fields) = Normal stamp ->
  is_nan stamp = true ->
  readCache w = (Normal (lookup "models" fields), w) /\
  (truthy (lookup "models" fields) = true ->
   getModels false w = (Normal {| models := lookup "models" fields; source := "cache" |}, w)).
Proof.
  intros F S T.
  assert (C : cached w = lookup "models" fields).
  { unfold LlmCost.cached. rewrite F. cbn [nullish prop]. rewrite S.
    rewrite ltb_sub_nan by exact T. reflexivity. }
  split.
  - rewrite readCache_eq, C. reflexivity.
  - intros H. rewrite getModels_eq, C, H. reflexivity.
Qed.

(** X5. What a refresh writes is what the next run reads.  When every
    model the response yields has a name for provider and only numbers
    that JSON preserves, and the clock reads such a number, then
    [getModels(true)] with the network up and a writable cache returns
    these models, sorted, with source ["live"], and a later
    [getModels(false)] on the file just written, at most six hours
    after, returns the same models with source ["cache"] and makes no
    request. *)
Theorem getModels_refresh_then_cache (w : World) (data : list Raw.Model) :
  network w = FetchData data ->
  writable w = true ->
  jsonNumber (now w) = true ->
  forallb kept (normalize data) = true ->
  exists ms l w1,
    Permutation ms (normalize data) /\ collect named ms = Some l /\
    getModels true w = (Normal {| models := Records l; source := "live" |}, w1) /\
    forall w2,
      file w2 = file w1 ->
      (now w2 - now w <=? CACHE_TTL_MS) = true ->
      getModels false w2 = (Normal {| models := Records l; source := "cache" |}, w2).
Proof.
  intros N W T K.
  assert (Hn : Forall hasName (normalize data)).
  { apply Forall_forall. intros m Hm. apply kept_hasName.
    rewrite forallb_forall in K. apply K, Hm. }
  destruct (fetchLivePricing_returns data Hn) as (ms & L & P).
  assert (K' : forallb kept ms = true).
  { apply forallb_forall. intros m Hm. rewrite forallb_forall in K. apply K.
    apply (Permutation_in _ P), Hm. }
  destruct (kept_collect ms K') as (l & C1 & C2 & _).
  exists ms, l. eexists. split; [exact P|]. split; [exact C1|].
  rewrite getModels_eq. cbn [negb andb]. rewrite liveOrDegraded_eq, N, L.
  unfold array. rewrite C1. split; [reflexivity|].
  intros w2 F Hfresh. cbn [refreshed file] in F. rewrite W in F.
  assert (C : cached w2 = Records l).
  { unfold LlmCost.cached. rewrite F. unfold snapshot. rewrite C2, (jsonNumber_stored _ T).
    cbn [nullish prop lookup String.eqb Ascii.eqb Bool.eqb LlmCost.toNumber].
    rewrite (leb_not_gtb _ _ Hfresh). reflexivity. }
  rewrite getModels_eq, C. reflexivity.
Qed.

End Resolved.

Lemma readCache_undated_witness :
  let w := {| file := Content (Some (Obj [("models", Records FALLBACK_MODELS)]));
              now := 1900000000000; network := FetchFails; writable := true; requests := 0 |} in
  getModels codeUnitCompare (fun _ => nan) nativeText inPlace false w =
    (Normal {| models := Records FALLBACK_MODELS; source := "cache" |}, w).
Proof.
  intros w.
  apply (proj2 (readCache_undated codeUnitCompare (fun _ => nan) nativeText inPlace w
                  [("models", Records FALLBACK_MODELS)] nan eq_refl eq_refl eq_refl)).
  reflexivity.
Defined.

Lemma getModels_refresh_then_cache_witness :
  let data := [rawPriced "openai/gpt-4.1" (Some "0.000002") (Some "0.000008")] in
  let w := {| file := NoFile; now := 1700000000000; network := FetchData data;
              writable := true; requests := 0 |} in
  exists l w1,
    map id l = ["openai/gpt-4.1"] /\
    getModels codeUnitCompare (fun _ => nan) nativeText inPlace true w =
      (Normal {| models := Records l; source := "live" |}, w1) /\
    getModels codeUnitCompare (fun _ => nan) nativeText inPlace false
      {| file := file w1; now := 1700003600000; network := FetchFails;
         writable := true; requests := 0 |} =
      (Normal {| models := Records l; source := "cache" |},
       {| file := file w1; now := 1700003600000; network := FetchFails;
          writable := true; requests := 0 |}).
Proof.
  intros data w.
  destruct (getModels_refresh_then_cache codeUnitCompare (fun _ => nan) nativeText inPlace w data)
    as (ms & l & w1 & P & C & E1 & E2);
    [reflexivity|reflexivity|reflexivity|vm_compute; reflexivity|].
  exists l, w1. split; [|split; [exact E1|apply E2; reflexivity]].
  remember (normalize nativeText data) as n eqn:En. vm_compute in En. subst n.
  apply Permutation_sym, Permutation_length_1_inv in P. subst ms.
  vm_compute in C. injection C as <-. reflexivity.
Defined.

(** *** The normalised model *)

(** X6. What every object the normaliser pushes satisfies: its
    description is the raw one cut to at most 200 code units; its context
    size and its maximal output are numbers and never NaN (a missing,
    zero or NaN value reads as 0); when its provider is a name, a raw
    name that starts with that name and a colon loses the prefix; and
    the id is the raw id.  The provider is a name unless the vendor slug
    names a member of [Object.prototype]. *)
Theorem toModel_wellformed (functionText : string -> string) (m : Raw.Model) :
  (String.length (description (toModel functionText m)) <= 200)%nat /\
  startsWith (textOr (Raw.description m) "") (description (toModel functionText m)) = true /\
  is_nan (context (toModel functionText m)) = false /\
  (exists v, maxOutput (toModel functionText m) = Some v /\ is_nan v = false) /\
  (forall p rest,
     provider (toModel functionText m) = ProviderName p ->
     Raw.name m = Some (p ++ ": " ++ rest)%string ->
     name (toModel functionText m) = rest) /\
  id (toModel functionText m) = Raw.id m /\
  (hasName (toModel functionText m) <->
   ~ In (split_head "/" (Raw.id m)) objectPrototypeMembers).
Proof.
  cbn [toModel description context maxOutput name provider id].
  split; [rewrite slice_to_length; lia|].
  split; [apply slice_to_prefix|].
  split; [apply numberOr0_not_nan|].
  split; [eexists; split; [reflexivity|apply numberOr0_not_nan]|].
  split; [|split; [reflexivity|]].
  - intros p rest Ep E. rewrite E, Ep. unfold textOr, cleanName.
    assert (T : truthy_string (p ++ ": " ++ rest) = true).
    { destruct p; reflexivity. }
    rewrite T. cbn [providerText providerLength].
    replace (p ++ ": " ++ rest)%string with ((p ++ ": ") ++ rest)%string
      by (rewrite append_assoc; reflexivity).
    rewrite startsWith_append.
    replace (String.length p + 2)%nat with (String.length (p ++ ": "))
      by (rewrite append_length; cbn; reflexivity).
    apply slice_from_append.
  - unfold hasName. cbn [toModel provider]. unfold extractProvider.
    set (slug := split_head "/" (Raw.id m)).
    destruct (includes_item objectPrototypeMembers slug) eqn:I.
    + assert (Hin : In slug objectPrototypeMembers).
      { unfold includes_item in I. apply existsb_exists in I.
        destruct I as (x & Hx & Ex). apply String.eqb_eq in Ex. subst x. exact Hx. }
      assert (A : assoc slug PROVIDER_MAP = None).
      { clear -Hin. cbn in Hin.
        repeat (destruct Hin as [<-|Hin]; [reflexivity|]). contradiction. }
      rewrite A. split; [intros [s E]; discriminate|contradiction].
    + split; [intros _ Hin|].
      * assert (includes_item objectPrototypeMembers slug = true); [|congruence].
        apply existsb_exists. exists slug. split; [exact Hin|apply String.eqb_refl].
      * intros _. destruct (assoc slug PROVIDER_MAP); eauto.
Qed.

(** *** The command line *)

Section CommandLineFacts.

Variable toLowerCase : string -> string.

#[local] Abbreviation parseStep := (parseStep toLowerCase).
#[local] Abbreviation parseLoop := (parseLoop toLowerCase).
#[local] Abbreviation parseArgs := (parseArgs toLowerCase).

Lemma parseLoop_cons (arg : string) (rest : list string) (a : Args.t) :
  parseLoop (arg :: rest) a =
  if snd (parseStep arg (hd_error rest) a)
  then parseLoop (tl rest) (fst (parseStep arg (hd_error rest) a))
  else parseLoop rest (fst (parseStep arg (hd_error rest) a)).
Proof.
  cbn [LlmCost.parseLoop].
  destruct (parseStep arg (hd_error rest) a) as [a' [|]]; cbn [fst snd]; [|reflexivity].
  destruct rest; reflexivity.
Qed.

Lemma parseLoop_invariant (P : Args.t -> Prop) (argv0 : list string) :
  (forall arg next a, In arg argv0 -> P a -> P (fst (parseStep arg next a))) ->
  forall argv, incl argv argv0 -> forall a, P a -> P (parseLoop argv a).
Proof.
  intros Hstep argv.
  enough (H : (incl argv argv0 -> forall a, P a -> P (parseLoop argv a)) /\
              (forall x, incl (x :: argv) argv0 -> forall a, P a -> P (parseLoop (x :: argv) a)))
    by apply H.
  induction argv as [|y l [IH1 IH2]].
  - split; [intros _ a Ha; exact Ha|].
    intros x Hx a Ha. rewrite parseLoop_cons. cbn [tl].
    destruct (snd _); cbn; apply Hstep; auto; apply Hx; left; reflexivity.
  - split; [apply IH2|].
    intros x Hx a Ha. rewrite parseLoop_cons. cbn [tl].
    assert (Hx' : In x argv0) by (apply Hx; left; reflexivity).
    assert (Hl : incl (y :: l) argv0) by (intros z Hz; apply Hx; right; exact Hz).
    destruct (snd _).
    + apply IH1; [intros z Hz; apply Hl; right; exact Hz|]. apply Hstep; assumption.
    + apply IH2; [exact Hl|]. apply Hstep; assumption.
Qed.

Ltac name_cases arg :=
  repeat match goal with
         | |- context [String.eqb arg ?n] =>
             destruct (String.eqb_spec arg n) as [->|?];
             cbn [orb andb fst snd negb]
         end.

Ltac settings :=
  cbv [fst setHelp setVersion setJson setCheap setList setRefresh setVision setTools
       setReasoning setCaps setBestFor setInputTokens setOutputTokens setModels setProviders
       setMonthly setSort setTop setDetail setMinContext setPrompt
       Args.prompt Args.inputTokens Args.outputTokens Args.models
       Args.providers Args.monthly Args.sort Args.json Args.cheap Args.help Args.version
       Args.list Args.refresh Args.top Args.detail Args.vision Args.tools Args.reasoning
       Args.minContext Args.caps Args.bestFor].

(** What one step can do to the record: one case per setting. *)
Lemma parseStep_cases (P : Args.t -> Prop) (arg : string) (next : option string) (a : Args.t) :
  (arg = "--help" \/ arg = "-h" -> P (setHelp a)) ->
  (arg = "--version" \/ arg = "-v" -> P (setVersion a)) ->
  (arg = "--json" -> P (setJson a)) ->
  (arg = "--cheap" -> P (setCheap a)) ->
  (arg = "--list" \/ arg = "-l" -> P (setList a)) ->
  (arg = "--refresh" \/ arg = "-r" -> P (setRefresh a)) ->
  (arg = "--vision" -> P (setVision a)) ->
  (arg = "--tools" -> P (setTools a)) ->
  (arg = "--reasoning" -> P (setReasoning a)) ->
  (arg = "--caps" -> P (setCaps a)) ->
  (arg = "--best-for" \/ arg = "--best" -> P (setBestFor a)) ->
  (arg = "--tokens" \/ arg = "-t" -> forall n, P (setInputTokens n a)) ->
  (arg = "--output-tokens" \/ arg = "-o" -> forall n, P (setOutputTokens n a)) ->
  (arg = "--models" \/ arg = "-m" -> forall l, P (setModels l a)) ->
  (arg = "--providers" \/ arg = "-p" -> forall l, P (setProviders l a)) ->
  (arg = "--monthly" -> forall n, P (setMonthly n a)) ->
  (arg = "--sort" \/ arg = "-s" -> forall s, P (setSort s a)) ->
  (arg = "--top" -> forall n, P (setTop n a)) ->
  (arg = "--detail" \/ arg = "-d" -> forall s, P (setDetail s a)) ->
  (arg = "--context" -> forall n, P (setMinContext n a)) ->
  (startsWith arg "-" = false -> P (setPrompt arg a)) ->
  P a ->
  P (fst (parseStep arg next a)).
Proof.
  intros. unfold LlmCost.parseStep. cbv zeta.
  name_cases arg; try destruct (truthyText next); cbn [orb andb fst snd negb];
    try (destruct (startsWith arg "-") eqn:Sw; cbn [negb fst]); auto.
Qed.

Lemma parseStep_accounted (argv : list string) (arg : string) (next : option string) (a : Args.t) :
  In arg argv -> accountedFor argv a -> accountedFor argv (fst (parseStep arg next a)).
Proof.
  intros Hin H.
  apply (parseStep_cases (accountedFor argv)); try exact H; intros;
    destruct a as [p it ot ms ps mo so js ch he ve li re tp de vi tl rs mc ca bf];
    unfold accountedFor in *; revert H; settings;
    intros (H1 & H2 & H3 & H4 & H5 & H6 & H7 & H8 & H9 & H10 & H11 & H12 & H13 & H14 &
            H15 & H16 & H17 & H18 & H19 & H20 & H21);
    repeat match goal with H : _ \/ _ |- _ => destruct H end; subst;
    (split; [|repeat split;
      first [assumption|intros _; first [exact Hin|left; exact Hin|right; exact Hin]]]).
  all: intros p0 Hp; first [exact (H1 p0 Hp)|injection Hp as <-; split; assumption].
Qed.

(** X7. [parseArgs] sets nothing the command line does not name: a flag
    is true only if one of its spellings is among the arguments, an
    option has a value only if one of its names is, the sort key differs
    from ["cost"] only if [--sort] or [-s] is, and the prompt is one of
    the arguments and does not start with a dash. *)
Theorem parseArgs_accounted (argv : list string) : accountedFor argv (parseArgs argv).
Proof.
  unfold LlmCost.parseArgs.
  apply (parseLoop_invariant (accountedFor argv) argv).
  - intros arg next a. apply parseStep_accounted.
  - apply incl_refl.
  - unfold accountedFor, noArgs. settings.
    repeat split; intros; try discriminate; congruence.
Qed.

Lemma parseStep_positional (arg : string) (next : option string) (a : Args.t) :
  startsWith arg "-" = false -> parseStep arg next a = (setPrompt arg a, false).
Proof.
  intros H. unfold LlmCost.parseStep. cbv zeta.
  name_cases arg; try discriminate H. rewrite H. reflexivity.
Qed.

Lemma parseLoop_positional (argv : list string) : forall a,
  Forall (fun arg => startsWith arg "-" = false) argv ->
  parseLoop argv a = match argv with [] => a | _ :: _ => setPrompt (last argv "") a end.
Proof.
  induction argv as [|x l IH]; intros a H; [reflexivity|].
  inversion H as [|? ? Hx Hl]; subst.
  rewrite parseLoop_cons, (parseStep_positional _ _ _ Hx). cbn [fst snd].
  rewrite (IH _ Hl). destruct l as [|y l']; [reflexivity|].
  change (last (x :: y :: l') "") with (last (y :: l') "").
  destruct a; reflexivity.
Qed.

(** X8. When no argument starts with a dash, [parseArgs] returns the
    defaults with the last argument as the prompt (the defaults alone
    for an empty command line): every earlier positional argument is
    overwritten. *)
Theorem parseArgs_positional (argv : list string) :
  Forall (fun arg => startsWith arg "-" = false) argv ->
  parseArgs argv = match argv with [] => noArgs | _ :: _ => setPrompt (last argv "") noArgs end.
Proof. apply parseLoop_positional. Qed.

(** X9. An argument that starts with a dash and is no known flag is
    skipped without any error, and so is an option that takes a value
    when no value follows it (it is last, or the next argument is the
    empty string): parsing goes on with the next argument and the record
    is unchanged. *)
Theorem parseLoop_skips (tok : string) (rest : list string) (a : Args.t) :
  startsWith tok "-" = true ->
  ~ In tok flagNames ->
  (In tok valueNames -> truthyText (hd_error rest) = false) ->
  parseLoop (tok :: rest) a = parseLoop rest a.
Proof.
  intros S F V.
  assert (E : parseStep tok (hd_error rest) a = (a, false)).
  { unfold LlmCost.parseStep. cbv zeta.
    destruct (in_dec string_dec tok valueNames) as [I|I].
    - rewrite (V I).
      name_cases tok; try (exfalso; apply F; apply in_names; reflexivity); rewrite ?S; reflexivity.
    - name_cases tok; try (exfalso; apply F; apply in_names; reflexivity); try (exfalso; apply I; apply in_names; reflexivity).
      rewrite S. reflexivity. }
  rewrite parseLoop_cons, E. reflexivity.
Qed.

Lemma parseStep_standalone (arg : string) (next : option string) (a : Args.t) :
  ~ In arg valueNames -> snd (parseStep arg next a) = false.
Proof.
  intros I. unfold LlmCost.parseStep. cbv zeta.
  name_cases arg; try reflexivity; try (exfalso; apply I; apply in_names; reflexivity).
  destruct (startsWith arg "-"); reflexivity.
Qed.

Lemma parseLoop_keeps (P : Args.t -> Prop) :
  (forall arg next a, P a -> P (fst (parseStep arg next a))) ->
  forall argv a, P a -> P (parseLoop argv a).
Proof.
  intros H argv a Ha. apply (parseLoop_invariant P argv); auto using incl_refl.
Qed.

Lemma parseLoop_version (argv : list string) (a : Args.t) :
  Args.version a = true -> Args.version (parseLoop argv a) = true.
Proof.
  apply (parseLoop_keeps (fun a => Args.version a = true)). clear.
  intros arg next a H. apply parseStep_cases; intros; destruct a; exact H || reflexivity.
Qed.

Lemma parseLoop_help (argv : list string) (a : Args.t) :
  Args.help a = true -> Args.help (parseLoop argv a) = true.
Proof.
  apply (parseLoop_keeps (fun a => Args.help a = true)). clear.
  intros arg next a H. apply parseStep_cases; intros; destruct a; exact H || reflexivity.
Qed.

Lemma parseLoop_standalone (pre : list string) : forall rest a,
  Forall (fun arg => ~ In arg valueNames) pre ->
  exists a', parseLoop (pre ++ rest) a = parseLoop rest a'.
Proof.
  induction pre as [|x l IH]; intros rest a H; [exists a; reflexivity|].
  inversion H as [|? ? Hx Hl]; subst.
  cbn [app]. rewrite parseLoop_cons, (parseStep_standalone _ _ _ Hx). apply IH. exact Hl.
Qed.

End CommandLineFacts.

Section Run.

Variable localeCompare : string -> string -> comparison.
Variable stringToNumber : string -> float.
Variable toLowerCase : string -> string.
Variable functionText : string -> string.
Variable engine : forall A : Type, (A -> A -> completion float) -> list A -> bool * list nat.
Variable exotic : Args.t -> string -> Outcome.

#[local] Abbreviation run :=
  (run localeCompare stringToNumber toLowerCase functionText engine exotic).
#[local] Abbreviation parseStep := (parseStep toLowerCase).
#[local] Abbreviation parseLoop := (parseLoop toLowerCase).
#[local] Abbreviation parseArgs := (parseArgs toLowerCase).

(** X10. [--version] (or [-v]), when no argument before it is an option
    that takes a value, makes the program print the version and exit
    with code 0 without touching the cache or the network, whatever
    follows it; [--help] (or [-h]) in such a place prints the help, or
    the version when that flag is given too, likewise. *)
Theorem run_version_help (pre post : list string) (flag : string) (w : World) :
  Forall (fun arg => ~ In arg valueNames) pre ->
  (flag = "--version" \/ flag = "-v" ->
   run (pre ++ flag :: post) w = (Normal {| exitCode := 0; shown := Version |}, w)) /\
  (flag = "--help" \/ flag = "-h" ->
   exists o, run (pre ++ flag :: post) w = (Normal {| exitCode := 0; shown := o |}, w) /\
             (o = Version \/ o = Help)).
Proof.
  intros H. unfold LlmCost.run, LlmCost.parseArgs.
  destruct (parseLoop_standalone toLowerCase pre (flag :: post) noArgs H) as [a' ->].
  rewrite parseLoop_cons. split.
  - intros F.
    assert (E : parseStep flag (hd_error post) a' = (setVersion a', false))
      by (destruct F as [-> | ->]; reflexivity).
    rewrite E. cbn [fst snd]. unfold main.
    rewrite parseLoop_version by (destruct a'; reflexivity). reflexivity.
  - intros F.
    assert (E : parseStep flag (hd_error post) a' = (setHelp a', false))
      by (destruct F as [-> | ->]; reflexivity).
    rewrite E. cbn [fst snd]. unfold main.
    rewrite (parseLoop_help toLowerCase post (setHelp a')) by (destruct a'; reflexivity).
    destruct (Args.version _); eexists; (split; [reflexivity|]); tauto.
Qed.

End Run.

Lemma run_version_help_witness :
  run codeUnitCompare (fun _ => nan) asciiLower nativeText inPlace noMode
      ["--json"; "hello"; "-v"; "--tokens"] (offline NoFile) =
    (Normal {| exitCode := 0; shown := Version |}, offline NoFile).
Proof.
  apply (proj1 (run_version_help codeUnitCompare (fun _ => nan) asciiLower nativeText inPlace noMode
                  ["--json"; "hello"] ["--tokens"] "-v" (offline NoFile)
                  ltac:(repeat constructor; intros H; vm_compute in H; intuition discriminate))).
  right. reflexivity.
Defined.

Lemma parseArgs_positional_witness :
  parseArgs asciiLower ["Explain"; "quantum computing"] = setPrompt "quantum computing" noArgs.
Proof.
  apply (parseArgs_positional asciiLower ["Explain"; "quantum computing"]).
  repeat constructor.
Defined.

Lemma parseLoop_skips_witness :
  parseLoop asciiLower ["--colour"; "--json"] noArgs = parseLoop asciiLower ["--json"] noArgs /\
  parseLoop asciiLower ["--tokens"] noArgs = noArgs.
Proof.
  split.
  - apply (parseLoop_skips asciiLower "--colour" ["--json"] noArgs); [reflexivity| |].
    + intros H. vm_compute in H. intuition discriminate.
    + intros H. vm_compute in H. intuition discriminate.
  - apply (parseLoop_skips asciiLower "--tokens" [] noArgs); [reflexivity| |reflexivity].
    intros H. vm_compute in H. intuition discriminate.
Defined.

(** *** The token counts *)

(** X11. [estimateTokens], computed as the code does by a division of
    numbers, [Math.ceil] and [Math.max], is exactly the larger of 1 and
    the length of the text divided by 4, rounded up, for every text a
    string can hold (its length is below [2^53]): the division by 4 is
    exact, so no rounding error reaches [Math.ceil]. *)
Theorem estimateTokens_value (text : string) :
  (Z.of_nat (String.length text) < 2 ^ 53)%Z ->
  exists m e,
    Prim2SF (estimateTokens text) = S754_finite false m e /\ (e <= 0)%Z /\
    Zpos m = (Z.of_nat (Nat.max 1 ((String.length text + 3) / 4)%nat) * 2 ^ (- e))%Z.
Proof.
  intros H. unfold estimateTokens.
  destruct (String.length text) as [|n'] eqn:El.
  { exists 4503599627370496%positive, (-52)%Z. split; [reflexivity|]. split; [lia|reflexivity]. }
  rewrite <- El in *. set (n := String.length text) in *.
  assert (Hn : (0 < n)%nat) by lia.
  set (k := ((n + 3) / 4)%nat).
  pose proof (mathCeil_not_nan _ (quarter_not_nan n)) as N.
  destruct (mathCeil_quarter n Hn H) as (m & e & P & He & Hm). fold k in Hm.
  assert (K : fkey (mathCeil (numberOfNat n / 4)) = (Z.of_nat k * 2 ^ 1074)%Z).
  { unfold fkey. rewrite P. cbn [sf_key cond_Zopp]. rewrite Hm.
    pose proof (Prim2SF_valid (mathCeil (numberOfNat n / 4))) as V.
    rewrite P in V. destruct (bounded_inv _ _ V) as (Be & _).
    rewrite <- Z.mul_assoc, <- Z.pow_add_r by (unfold SpecFloat.emin, emin, prec, emax in *; lia).
    f_equal. f_equal. unfold SpecFloat.emin, emin, prec, emax. lia. }
  destruct (mathMax_cases 1 _ eq_refl N) as [[-> L]|[-> L]].
  - rewrite K in L. change (fkey 1) with (1 * 2 ^ 1074)%Z in L.
    assert (k <= 1)%nat by (apply Nat2Z.inj_le; nia).
    exists 4503599627370496%positive, (-52)%Z. split; [reflexivity|]. split; [lia|].
    replace (Nat.max 1 k) with 1%nat by lia. reflexivity.
  - rewrite K in L. change (fkey 1) with (1 * 2 ^ 1074)%Z in L.
    assert (1 <= k)%nat by (apply Nat2Z.inj_le; nia).
    replace (Nat.max 1 k) with k by lia. exists m, e. auto.
Qed.

(** X12. The token counts the comparison uses are never 0 and never
    NaN.  A given count is used when it is truthy; otherwise the input
    count is the estimate from the prompt, or 200 without a prompt, and
    the output count is [Math.max(300, inputTokens * 2)], at least 300
    and at least twice the input count. *)
Theorem tokens_resolved (args : Args.t) :
  let i := resolveInputTokens args in
  let o := resolveOutputTokens args i in
  truthy_number i = true /\ truthy_number o = true /\
  (truthyNumber (Args.inputTokens args) = true -> Args.inputTokens args = Some i) /\
  (truthyNumber (Args.inputTokens args) = false ->
   i = if truthyText (Args.prompt args) then estimateTokens (textOr (Args.prompt args) "") else 200) /\
  (truthyNumber (Args.outputTokens args) = true -> Args.outputTokens args = Some o) /\
  (truthyNumber (Args.outputTokens args) = false ->
   (300 <=? o) = true /\ (i * 2 <=? o) = true).
Proof.
  intros i o.
  pose proof estimateTokens_truthy as E.
  assert (Ti : truthy_number i = true).
  { unfold i, resolveInputTokens.
    destruct (Args.prompt args) as [p|], (Args.inputTokens args) as [v|]; cbn [truthyNumber];
      try destruct (truthy_string p); cbn [andb negb];
      try destruct (truthy_number v) eqn:Tv; cbn [negb]; rewrite ?Tv, ?E; auto. }
  assert (O : truthyNumber (Args.outputTokens args) = false ->
              o = mathMax 300 (i * 2)).
  { unfold o, resolveOutputTokens. destruct (Args.outputTokens args) as [v|]; cbn [truthyNumber];
      [intros ->|]; reflexivity. }
  assert (M : is_nan (i * 2) = false) by (apply (mul_not_nan i 2 _ _ eq_refl Ti)).
  assert (Ho : truthyNumber (Args.outputTokens args) = false ->
               is_nan o = false /\ (fkey 300 <= fkey o)%Z /\ (fkey (i * 2) <= fkey o)%Z).
  { intros F. rewrite (O F).
    destruct (mathMax_cases 300 (i * 2) eq_refl M) as [[-> L]|[-> L]]; repeat split; auto; lia. }
  split; [exact Ti|]. split; [|split; [|split; [|split]]].
  - destruct (truthyNumber (Args.outputTokens args)) eqn:F.
    + unfold o, resolveOutputTokens. destruct (Args.outputTokens args) as [v|]; [|discriminate].
      cbn in F. rewrite F. exact F.
    + destruct (Ho eq_refl) as (N & L & _). apply truthy_number_iff. split; [exact N|].
      change (fkey 300) with (300 * 2 ^ 1074)%Z in L.
      assert (0 < 2 ^ 1074)%Z by (apply Z.pow_pos_nonneg; lia). lia.
  - unfold i, resolveInputTokens.
    destruct (Args.inputTokens args) as [v|]; [|discriminate]. cbn [truthyNumber]. intros T.
    destruct (Args.prompt args) as [p|]; rewrite ?T, ?andb_false_r, ?T; reflexivity.
  - unfold i, resolveInputTokens, textOr, truthyText.
    destruct (Args.inputTokens args) as [v|]; cbn [truthyNumber]; [intros T|intros _];
      (destruct (Args.prompt args) as [p|]; [destruct (truthy_string p)|]); cbn [andb negb];
      rewrite ?T; cbn [andb negb]; rewrite ?E, ?T; reflexivity.
  - unfold o, resolveOutputTokens.
    destruct (Args.outputTokens args) as [v|]; [|discriminate]. cbn [truthyNumber]. intros ->.
    reflexivity.
  - intros F. destruct (Ho F) as (N & L1 & L2).
    rewrite !leb_fkey by (assumption || reflexivity). split; apply Z.leb_le; assumption.
Qed.

Lemma estimateTokens_value_witness :
  exists m e,
    Prim2SF (estimateTokens "Explain quantum computing") = S754_finite false m e /\ (e <= 0)%Z /\
    Zpos m = (7 * 2 ^ (- e))%Z.
Proof.
  apply (estimateTokens_value "Explain quantum computing"). vm_compute. reflexivity.
Defined.

(** *** The comparison *)

Section Pipeline.

Variable localeCompare : string -> string -> comparison.
Variable toLowerCase : string -> string.
Variable engine : forall A : Type, (A -> A -> completion float) -> list A -> bool * list nat.

#[local] Abbreviation matchesText := (matchesText toLowerCase).
#[local] Abbreviation matchesProvider := (matchesProvider toLowerCase).
#[local] Abbreviation listModels := (listModels toLowerCase).
#[local] Abbreviation applyFilters := (applyFilters toLowerCase).
#[local] Abbreviation sorter := (sorter localeCompare).
#[local] Abbreviation comparator := (comparator localeCompare).
#[local] Abbreviation costComparison := (costComparison localeCompare toLowerCase engine).

#[local] Abbreviation keeps := (keeps toLowerCase).

Lemma sliceTo_prefix {A : Type} (n : float) (l : list A) :
  exists rest, l = sliceTo n l ++ rest.
Proof.
  unfold sliceTo.
  destruct (Prim2SF n) as [s|[]| |[] m e]; try (exists l; reflexivity).
  - exists []. rewrite app_nil_r. reflexivity.
  - eexists. symmetry. apply firstn_skipn.
  - eexists. symmetry. apply firstn_skipn.
Qed.

Lemma filter_if {A : Type} (b : bool) (f : A -> bool) (l : list A) :
  (if b then filter f l else l) = filter (fun x => negb b || f x) l.
Proof. destruct b; cbn [negb orb]; [reflexivity|symmetry; apply filter_true]. Qed.

Lemma applyFilters_keeps (args : Args.t) (ms : list Model) :
  applyFilters args ms = filter (keeps args) ms.
Proof.
  unfold LlmCost.applyFilters, LlmCost.keeps. cbv zeta.
  destruct (Args.models args) as [fs|], (Args.providers args) as [ps|],
    (Args.vision args), (Args.tools args), (Args.reasoning args),
    (Args.minContext args) as [c|]; try destruct (truthy_number c);
    cbn [negb orb andb]; rewrite ?filter_filter;
    try (apply filter_ext; intros m; rewrite ?andb_true_r, ?andb_assoc; reflexivity).
  all: symmetry; apply filter_true.
Qed.

(** X13. The filters of the comparison decide on each model by itself:
    together they are one test, the conjunction of the active ones, so
    the result keeps the order of the list, filtering a concatenation
    gives the concatenation of the results, and filtering twice changes
    nothing. *)
Theorem applyFilters_independent (args : Args.t) (ms more : list Model) :
  applyFilters args ms = filter (keeps args) ms /\
  applyFilters args (ms ++ more) = applyFilters args ms ++ applyFilters args more /\
  applyFilters args (applyFilters args ms) = applyFilters args ms /\
  (forall m, In m (applyFilters args ms) <-> In m ms /\ keeps args m = true).
Proof.
  rewrite !applyFilters_keeps. split; [reflexivity|]. split; [apply filter_app|]. split.
  - rewrite filter_filter. apply filter_ext. intros m. apply andb_diag.
  - intros m. apply filter_In.
Qed.

(** X14. An empty item in a list of providers or models, as a trailing
    comma leaves one, matches every model, since every string includes
    the empty string: such a filter keeps the whole list, in the
    comparison and in the listing. *)
Theorem empty_item_matches_all (items : list string) (ms : list Model) (source : string) :
  In "" items ->
  filter (matchesProvider items) ms = ms /\
  filter (matchesText items) ms = ms /\
  listModels ms (Some items) source = listModels ms None source.
Proof.
  intros H.
  assert (P : filter (matchesProvider items) ms = ms).
  { apply filter_all. intros m _. apply existsb_exists. exists "".
    split; [exact H|apply includes_empty]. }
  split; [exact P|]. split.
  - apply filter_all. intros m _. apply existsb_exists. exists "".
    split; [exact H|]. rewrite includes_empty. reflexivity.
  - unfold LlmCost.listModels, listed. rewrite P. reflexivity.
Qed.

Lemma sorter_other (key : string) :
  otherKey key -> sorter key = ascending costOf.
Proof.
  intros (H1 & H2 & H3 & H4 & _). unfold LlmCost.sorter.
  apply String.eqb_neq in H1, H2, H3, H4. rewrite H1, H2, H3, H4. reflexivity.
Qed.

(** A key of [sorters], or one that names no member of
    [Object.prototype], finds the comparator [sorter] gives. *)
Lemma comparator_sorter (key : string) :
  ~ In key objectPrototypeMembers -> comparator key = Comparing (returning (sorter key)).
Proof.
  intros H. unfold LlmCost.comparator.
  assert (I : includes_item objectPrototypeMembers key = false).
  { apply not_true_is_false. intros I. apply H.
    unfold includes_item in I. apply existsb_exists in I.
    destruct I as (x & Hx & Ex). apply String.eqb_eq in Ex. subst x. exact Hx. }
  assert (E : forall m, In m objectPrototypeMembers -> String.eqb key m = false).
  { intros m Hm. apply String.eqb_neq. intros ->. contradiction. }
  rewrite (E "__proto__"), (E "constructor"), (E "toString"), I by (cbn; tauto).
  reflexivity.
Qed.

(** With a sort key that selects a numeric order, and no NaN among the
    numbers compared, the sort gives the stable sorted arrangement. *)
Lemma arraySort_sorter (key : string) (rows : list Row) :
  (key = "input" /\ Forall (fun r => is_nan (input (model r)) = false) rows) \/
  (key = "output" /\ Forall (fun r => is_nan (output (model r)) = false) rows) \/
  (key = "context" /\ Forall (fun r => is_nan (context (model r)) = false) rows) \/
  (otherKey key /\ Forall (fun r => is_nan (totalCost (cost r)) = false) rows) ->
  comparator key = Comparing (returning (sorter key)) /\
  arraySort (engine Row) (returning (sorter key)) rows = Normal (sort (sorter key) rows).
Proof.
  intros H. split.
  - apply comparator_sorter.
    destruct H as [[-> _]|[[-> _]|[[-> _]|[(_ & _ & _ & _ & K) _]]]]; [| | |exact K];
      cbn; intuition discriminate.
  - rewrite arraySort_sortWith. f_equal.
    destruct H as [[-> K]|[[-> K]|[[-> K]|[O K]]]].
    + apply (sortWith_ascending (engine Row) (fun r => input (model r))), K.
    + apply (sortWith_ascending (engine Row) (fun r => output (model r))), K.
    + apply (sortWith_descending (engine Row) (fun r => context (model r))), K.
    + rewrite (sorter_other key O). apply (sortWith_ascending (engine Row) costOf), K.
Qed.

(** X15. When the filters leave at least one model and the sort does
    not throw (the sort key is not [__proto__], and it names no other
    member of [Object.prototype] than [constructor] and [toString] unless
    a single model is left), the comparison exits with code 0; its
    results are the rows of the filtered models, each exactly once; what
    is displayed (in the table or in the JSON output) is a prefix of the
    results: all of them, or the first five with [--cheap], when [--top]
    is absent, 0 or NaN.  With a sort key that selects a numeric order
    and no NaN among the numbers compared, the results are the rows in
    the stable sorted order of that key. *)
Theorem costComparison_display (args : Args.t) (allModels : list Model) (source : string) :
  let inputTokens := resolveInputTokens args in
  let outputTokens := resolveOutputTokens args inputTokens in
  let rows := map (toRow args inputTokens outputTokens) (applyFilters args allModels) in
  applyFilters args allModels <> [] ->
  Args.sort args <> "__proto__" ->
  (throwingKey (Args.sort args) = true -> (List.length (applyFilters args allModels) < 2)%nat) ->
  exists results display rest,
    costComparison args allModels source =
      {| exitCode := 0;
         shown := if Args.json args
                  then Json inputTokens outputTokens (sourceLabel source)
                         (if truthyNumber (Args.monthly args) then Args.monthly args else None)
                         (map (jsonEntry (Args.monthly args)) display)
                  else Table display results |} /\
    Permutation results rows /\
    results = display ++ rest /\
    (truthyNumber (Args.top args) = false ->
     display = if Args.cheap args then firstn 5 results else results) /\
    ((Args.sort args = "input" /\ Forall (fun r => is_nan (input (model r)) = false) rows) \/
     (Args.sort args = "output" /\ Forall (fun r => is_nan (output (model r)) = false) rows) \/
     (Args.sort args = "context" /\ Forall (fun r => is_nan (context (model r)) = false) rows) \/
     (otherKey (Args.sort args) /\
      Forall (fun r => is_nan (totalCost (cost r)) = false) rows) ->
     results = sort (sorter (Args.sort args)) rows).
Proof.
  intros inputTokens outputTokens rows Hne Hproto Hthrow.
  assert (S : exists f results,
            comparator (Args.sort args) = Comparing f /\
            arraySort (engine Row) f rows = Normal results).
  { unfold LlmCost.comparator. apply String.eqb_neq in Hproto. rewrite Hproto.
    destruct (String.eqb (Args.sort args) "constructor" || String.eqb (Args.sort args) "toString")
      eqn:E1.
    - destruct (arraySort_returning_returns (engine Row) (fun _ _ : Row => nan) rows) as (r & E & _).
      eexists _, r. split; [reflexivity|exact E].
    - destruct (includes_item objectPrototypeMembers (Args.sort args)) eqn:E2.
      + eexists _, rows. split; [reflexivity|].
        assert (L : (List.length rows < 2)%nat).
        { unfold rows. rewrite length_map. apply Hthrow. unfold throwingKey.
          rewrite E2, Hproto, E1. reflexivity. }
        unfold arraySort. destruct (Nat.ltb_spec (List.length rows) 2); [reflexivity|lia].
      + destruct (arraySort_returning_returns (engine Row) (sorter (Args.sort args)) rows)
          as (r & E & _).
        eexists _, r. split; [reflexivity|exact E]. }
  destruct S as (f & results & Ec & Es).
  pose proof (arraySort_perm (engine Row) f rows results Es) as Perm.
  assert (Sorted : (Args.sort args = "input" /\
                    Forall (fun r => is_nan (input (model r)) = false) rows) \/
                   (Args.sort args = "output" /\
                    Forall (fun r => is_nan (output (model r)) = false) rows) \/
                   (Args.sort args = "context" /\
                    Forall (fun r => is_nan (context (model r)) = false) rows) \/
                   (otherKey (Args.sort args) /\
                    Forall (fun r => is_nan (totalCost (cost r)) = false) rows) ->
                   results = sort (sorter (Args.sort args)) rows).
  { intros K. destruct (arraySort_sorter (Args.sort args) rows K) as [K1 K2].
    rewrite Ec in K1. injection K1 as ->. rewrite Es in K2. injection K2 as ->. reflexivity. }
  revert Es Perm Sorted. unfold rows. clear rows.
  unfold LlmCost.costComparison. fold inputTokens. fold outputTokens. cbv zeta.
  destruct (LlmCost.applyFilters toLowerCase args allModels) as [|m0 ms0] eqn:E; [contradiction|].
  intros Es Perm Sorted. rewrite Ec, Es.
  set (display := match Args.top args with Some _ => _ | None => _ end).
  assert (D : exists rest, results = display ++ rest).
  { unfold display. destruct (Args.top args) as [n|]; [destruct (truthy_number n)|];
      try destruct (Args.cheap args); try apply sliceTo_prefix; exists []; symmetry; apply app_nil_r. }
  destruct D as [rest D].
  exists results, display, rest. split; [destruct (Args.json args); reflexivity|].
  split; [exact Perm|]. split; [exact D|]. split; [|exact Sorted].
  intros T. unfold display. destruct (Args.top args) as [n|]; [cbn in T; rewrite T|]; reflexivity.
Qed.

(** X16. The order of the results.  Sorting by ["input"] or ["output"]
    orders the rows by that price ascending, by ["context"] by the
    context size descending; any other key that is not ["name"] and
    names no member of [Object.prototype], the default ["cost"]
    included, orders them by total cost ascending, and rows of equal
    total cost keep the order they had.  The keys compared are taken not
    to be NaN. *)
Theorem results_ordered (key : string) (rows : list Row) :
  (key = "input" -> Forall (fun r => is_nan (input (model r)) = false) rows ->
   StronglySorted (fun a b => (input (model a) <=? input (model b)) = true) (sort (sorter key) rows)) /\
  (key = "output" -> Forall (fun r => is_nan (output (model r)) = false) rows ->
   StronglySorted (fun a b => (output (model a) <=? output (model b)) = true) (sort (sorter key) rows)) /\
  (key = "context" -> Forall (fun r => is_nan (context (model r)) = false) rows ->
   StronglySorted (fun a b => (context (model b) <=? context (model a)) = true) (sort (sorter key) rows)) /\
  (otherKey key -> Forall (fun r => is_nan (totalCost (cost r)) = false) rows ->
   StronglySorted (fun a b => (totalCost (cost a) <=? totalCost (cost b)) = true)
                  (sort (sorter key) rows) /\
   forall r, is_nan (totalCost (cost r)) = false ->
     filter (fun x => totalCost (cost r) =? totalCost (cost x)) (sort (sorter key) rows) =
     filter (fun x => totalCost (cost r) =? totalCost (cost x)) rows).
Proof.
  split; [|split; [|split]].
  - intros -> H. apply (sort_ascending_sorted (fun r => input (model r))). exact H.
  - intros -> H. apply (sort_ascending_sorted (fun r => output (model r))). exact H.
  - intros -> H. apply (sort_descending_sorted (fun r => context (model r))). exact H.
  - intros K H. rewrite (sorter_other key K). split.
    + apply (sort_ascending_sorted costOf). exact H.
    + intros r Hr. apply (sort_ascending_stable costOf r rows Hr H).
Qed.

(** X17. When no total cost is NaN, under the order by total cost
    (the default, and that of any sort key that is not ["input"],
    ["output"], ["name"] or ["context"] and names no member of
    [Object.prototype]) the callout below the table names a row of least
    total cost as the cheapest and a row of greatest total cost as the
    priciest. *)
Theorem callout_extremes (args : Args.t) (key : string) (rows : list Row) (c : Callout) :
  otherKey key ->
  Forall (fun r => is_nan (totalCost (cost r)) = false) rows ->
  callout args (sort (sorter key) rows) = Some c ->
  In (cheapestRow c) rows /\ In (priciestRow c) rows /\
  forall r, In r rows ->
    (totalCost (cost (cheapestRow c)) <=? totalCost (cost r)) = true /\
    (totalCost (cost r) <=? totalCost (cost (priciestRow c))) = true.
Proof.
  intros K H E.
  assert (S : StronglySorted (fun a b => (totalCost (cost a) <=? totalCost (cost b)) = true)
                             (sort (sorter key) rows)).
  { rewrite (sorter_other key K). apply (sort_ascending_sorted costOf). exact H. }
  assert (N : Forall (keyed costOf) (sort (sorter key) rows)) by (apply sort_keyed; exact H).
  assert (I : forall r, In r (sort (sorter key) rows) <-> In r rows) by (intros r; apply sort_In).
  destruct (sort (sorter key) rows) as [|a [|b l]] eqn:R; try discriminate.
  assert (Ec : cheapestRow c = a /\ priciestRow c = last (a :: b :: l) a).
  { cbn [callout] in E. injection E as <-. split; reflexivity. }
  destruct Ec as [-> ->].
  assert (L : In (last (a :: b :: l) a) (a :: b :: l)).
  { destruct (exists_last (l := a :: b :: l)) as (l' & z & Ez); [discriminate|].
    rewrite Ez, last_last. apply in_or_app. right. left. reflexivity. }
  split; [apply I; left; reflexivity|].
  split; [apply I; exact L|].
  intros r Hr. apply I in Hr. rewrite Forall_forall in N. split.
  - inversion S as [|? ? _ Ha]; subst. destruct Hr as [->|Hr].
    + rewrite leb_fkey by (apply (N r); left; reflexivity). apply Z.leb_refl.
    + rewrite Forall_forall in Ha. apply Ha. exact Hr.
  - destruct (StronglySorted_last _ _ a r S Hr) as [<-|L']; [|exact L'].
    rewrite leb_fkey by (apply (N r); exact Hr). apply Z.leb_refl.
Qed.

End Pipeline.

Lemma empty_item_matches_all_witness :
  listOption asciiLower "openai," = ["openai"; ""] /\
  filter (matchesProvider asciiLower ["openai"; ""]) FALLBACK_MODELS = FALLBACK_MODELS.
Proof.
  split; [reflexivity|].
  apply (proj1 (empty_item_matches_all asciiLower ["openai"; ""] FALLBACK_MODELS "cached"
                  ltac:(right; left; reflexivity))).
Defined.

Lemma costComparison_display_witness :
  exists results,
    costComparison codeUnitCompare asciiLower inPlace noArgs FALLBACK_MODELS "fallback" =
      {| exitCode := 0; shown := Table results results |} /\
    Permutation results (map (toRow noArgs 200 400) FALLBACK_MODELS).
Proof.
  destruct (costComparison_display codeUnitCompare asciiLower inPlace noArgs FALLBACK_MODELS
              "fallback")
    as (results & display & rest & E & P & _ & D & _);
    [discriminate|discriminate|discriminate|].
  exists results. rewrite (D eq_refl) in E. split; [exact E|exact P].
Defined.

Lemma callout_extremes_witness :
  let rows := map (toRow noArgs 200 400) FALLBACK_MODELS in
  exists c,
    callout noArgs (sort (sorter codeUnitCompare "cost") rows) = Some c /\
    name (model (cheapestRow c)) = "Mistral Small" /\
    (totalCost (cost (cheapestRow c)) <=? totalCost (cost (priciestRow c))) = true.
Proof.
  intros rows.
  destruct (callout noArgs (sort (sorter codeUnitCompare "cost") rows)) as [c|] eqn:E;
    [|vm_compute in E; discriminate].
  exists c. split; [reflexivity|]. split.
  - vm_compute in E. injection E as <-. reflexivity.
  - destruct (callout_extremes codeUnitCompare noArgs "cost" rows c) as (_ & Hp & H).
    + repeat split; try discriminate. intros H. vm_compute in H. intuition discriminate.
    + vm_compute. repeat constructor.
    + exact E.
    + apply (H (priciestRow c) Hp).
Defined.

(** *** [--top] *)





(** *** Formatting *)

Lemma toFixed_fraction (x : float) (m k : positive) (f : nat) :
  Prim2SF x = S754_finite false m (Zneg k) ->
  toFixed x f = fixed_notation false (round_half_up m (Zneg k) f) f.
Proof. intros E. unfold toFixed. rewrite E. reflexivity. Qed.

Lemma fkey_small : (2 ^ 1074 <= 2 * fkey 0.0001 * 10 ^ 4)%Z.
Proof. vm_compute. discriminate. Qed.

Lemma fkey_one : fkey 1 = (2 ^ 1074)%Z.
Proof. reflexivity. Qed.

Lemma fkey_large : fkey 1e21 = (10 ^ 21 * 2 ^ 1074)%Z.
Proof. vm_compute. reflexivity. Qed.

(** X19. [formatUSD] shows an amount below 0.0001 (zero and negative
    ones included) as ["<$0.0001"]; an amount from 0.0001 up to, but not
    including, 1 with four decimals, as a value between 0.0001 and
    1.0000, so never as ["$0.0000"]; and an amount from 1 up to 1e21
    with two decimals, as a value of at least 1.00. *)
Theorem formatUSD_shown (n : float) :
  ((n <? 0.0001) = true -> formatUSD n = "<$0.0001") /\
  ((n <? 0.0001) = false -> (n <? 1) = true ->
   exists m e, Prim2SF n = S754_finite false m e /\
     formatUSD n = ("$" ++ fixed_notation false (round_half_up m e 4) 4)%string /\
     (1 <= round_half_up m e 4 <= 10000)%N) /\
  ((n <? 1) = false -> (n <? 1e21) = true ->
   exists m e, Prim2SF n = S754_finite false m e /\
     formatUSD n = ("$" ++ fixed_notation false (round_half_up m e 2) 2)%string /\
     (100 <= round_half_up m e 2)%N).
Proof.
  split; [|split].
  - intros H. unfold formatUSD. rewrite H. reflexivity.
  - intros H0 H1. destruct (ltb_not_nan _ _ H1) as [N _].
    rewrite ltb_fkey in H0, H1 by (assumption || reflexivity).
    apply Z.ltb_ge in H0. apply Z.ltb_lt in H1. rewrite fkey_one in H1.
    pose proof fkey_small as S.
    assert (P : (0 < 2 ^ 1074)%Z) by (apply Z.pow_pos_nonneg; lia).
    destruct (positive_finite n N) as (m & e & E & K & Be).
    { split; [lia|]. apply Z.lt_trans with (2 ^ 1074)%Z; [lia|]. apply Z.pow_lt_mono_r; lia. }
    unfold SpecFloat.emin, prec, emax in *.
    rewrite K in *.
    assert (Pe : (0 < 2 ^ (e - (3 - 1024 - 53)))%Z) by (apply Z.pow_pos_nonneg; lia).
    destruct e as [|p|k].
    { exfalso. change (2 ^ (0 - (3 - 1024 - 53)))%Z with (2 ^ 1074)%Z in *. nia. }
    { exfalso. assert (2 ^ 1074 <= 2 ^ (Zpos p - (3 - 1024 - 53)))%Z by (apply Z.pow_le_mono_r; lia). nia. }
    exists m, (Zneg k). split; [exact E|]. split.
    + unfold formatUSD.
      replace (n <? 0.0001) with false
        by (symmetry; rewrite ltb_fkey by (assumption || reflexivity); apply Z.ltb_ge; unfold fkey; rewrite E; exact H0).
      replace (n <? 1) with true
        by (symmetry; rewrite ltb_fkey by (assumption || reflexivity); apply Z.ltb_lt; unfold fkey; rewrite E; exact H1).
      rewrite (toFixed_fraction n m k 4 E). destruct (n <? 0.01); reflexivity.
    + unfold round_half_up.
      assert (Ek : (2 ^ 1074 = 2 ^ Zpos k * 2 ^ (Zneg k - (3 - 1024 - 53)))%Z).
      { rewrite <- Z.pow_add_r by lia. f_equal; lia. }
      set (q := (2 ^ (Zneg k - (3 - 1024 - 53)))%Z) in *.
      assert (Pk : (0 < 2 ^ Zpos k)%Z) by (apply Z.pow_pos_nonneg; lia).
      assert (Lo : (2 ^ Zpos k <= 2 * Zpos m * 10 ^ 4)%Z) by nia.
      assert (Hi : (Zpos m < 2 ^ Zpos k)%Z) by nia.
      clear - Lo Hi Pk.
      assert (Z.of_N (2 ^ N.pos k) = 2 ^ Zpos k)%Z as Zk by (rewrite N2Z.inj_pow; reflexivity).
      set (P := (2 ^ N.pos k)%N) in *.
      replace (2 ^ (N.pos k + 1))%N with (2 * P)%N
        by (unfold P; rewrite N.pow_add_r; change (2 ^ 1)%N with 2%N; lia).
      change (10 ^ N.of_nat 4)%N with 10000%N. change (10 ^ 4)%Z with 10000%Z in Lo.
      assert (Pp : (0 < P)%N) by lia.
      split.
      * apply N.div_le_lower_bound; lia.
      * apply N.lt_succ_r. apply N.Div0.div_lt_upper_bound. lia.
  - intros H1 H2. destruct (ltb_not_nan _ _ H2) as [N _].
    rewrite ltb_fkey in H1, H2 by (assumption || reflexivity).
    apply Z.ltb_ge in H1. apply Z.ltb_lt in H2. rewrite fkey_one in H1. rewrite fkey_large in H2.
    assert (P : (0 < 2 ^ 1074)%Z) by (apply Z.pow_pos_nonneg; lia).
    destruct (positive_finite n N) as (m & e & E & K & Be).
    { split; [lia|]. apply Z.lt_trans with (10 ^ 21 * 2 ^ 1074)%Z; [lia|].
      apply Z.lt_le_trans with (2 ^ 70 * 2 ^ 1074)%Z.
      - apply Z.mul_lt_mono_pos_r; [exact P|reflexivity].
      - rewrite <- Z.pow_add_r by lia. apply Z.pow_le_mono_r; lia. }
    unfold SpecFloat.emin, prec, emax in *.
    exists m, e. split; [exact E|].
    assert (F : formatUSD n = ("$" ++ toFixed n 2)%string).
    { unfold formatUSD.
      replace (n <? 1) with false
        by (symmetry; rewrite ltb_fkey by (assumption || reflexivity); apply Z.ltb_ge; rewrite fkey_one; exact H1).
      replace (n <? 0.01) with false.
      2:{ symmetry. rewrite ltb_fkey by (assumption || reflexivity). apply Z.ltb_ge.
          apply Z.le_trans with (2 ^ 1074)%Z; [|exact H1]. vm_compute. discriminate. }
      replace (n <? 0.0001) with false.
      2:{ symmetry. rewrite ltb_fkey by (assumption || reflexivity). apply Z.ltb_ge.
          apply Z.le_trans with (2 ^ 1074)%Z; [|exact H1]. vm_compute. discriminate. }
      reflexivity. }
    rewrite F. rewrite K in *.
    destruct (Z.leb_spec 0 e) as [He|He].
    + assert (Ee : (2 ^ (e - (3 - 1024 - 53)) = 2 ^ e * 2 ^ 1074)%Z).
      { rewrite <- Z.pow_add_r by lia. f_equal; lia. }
      rewrite Ee in *.
      assert (Pe : (0 < 2 ^ e)%Z) by (apply Z.pow_pos_nonneg; lia).
      assert (B : (Zpos m * 2 ^ e < 10 ^ 21)%Z) by nia.
      split.
      * unfold toFixed. rewrite E.
        replace ((0 <=? e)%Z && (10 ^ 21 <=? Zpos m * 2 ^ e)%Z) with false; [reflexivity|].
        symmetry. apply andb_false_iff. right. apply Z.leb_gt. exact B.
      * unfold round_half_up. change (10 ^ N.of_nat 2)%N with 100%N.
        assert (0 < 2 ^ Z.to_N e)%N by (apply N.neq_0_lt_0, N.pow_nonzero; lia).
        destruct e as [|p|p]; try lia; nia.
    + destruct e as [|p|k]; try lia. split; [rewrite (toFixed_fraction n m k 2 E); reflexivity|].
      unfold round_half_up.
      assert (Ek : (2 ^ 1074 = 2 ^ Zpos k * 2 ^ (Zneg k - (3 - 1024 - 53)))%Z).
      { rewrite <- Z.pow_add_r by lia. f_equal; lia. }
      set (q := (2 ^ (Zneg k - (3 - 1024 - 53)))%Z) in *.
      assert (Pq : (0 < q)%Z) by (apply Z.pow_pos_nonneg; lia).
      assert (Pk : (0 < 2 ^ Zpos k)%Z) by (apply Z.pow_pos_nonneg; lia).
      assert (Lo : (2 ^ Zpos k <= Zpos m)%Z) by nia.
      clear - Lo Pk.
      assert (Z.of_N (2 ^ N.pos k) = 2 ^ Zpos k)%Z as Zk by (rewrite N2Z.inj_pow; reflexivity).
      set (P := (2 ^ N.pos k)%N) in *.
      replace (2 ^ (N.pos k + 1))%N with (2 * P)%N
        by (unfold P; rewrite N.pow_add_r; change (2 ^ 1)%N with 2%N; lia).
      change (10 ^ N.of_nat 2)%N with 100%N.
      apply N.div_le_lower_bound; lia.
Qed.

Lemma pad_length (s : text) (width : nat) (align : Align) :
  List.length (pad s width align) = Nat.max (List.length s) width.
Proof.
  unfold pad. destruct (Nat.leb_spec width (List.length s)); [lia|].
  destruct align; rewrite length_app, repeated_length; lia.
Qed.

(** X20. [pad] never cuts the text: the result is as long as the longer
    of the text and the width, the padding is made of spaces, before the
    text when aligned right and after it otherwise, and padding again to
    the same width changes nothing. *)
Theorem pad_fills (s : text) (width : nat) (align other : Align) :
  List.length (pad s width align) = Nat.max (List.length s) width /\
  pad s width align =
    match align with
    | AlignRight => repeated " " (width - List.length s) ++ s
    | AlignLeft => s ++ repeated " " (width - List.length s)
    end /\
  pad (pad s width align) width other = pad s width align.
Proof.
  pose proof (pad_length s width align) as L.
  split; [exact L|]. split.
  - unfold pad. destruct (Nat.leb_spec width (List.length s)) as [H|H]; [|reflexivity].
    replace (width - List.length s)%nat with 0%nat by lia.
    destruct align; cbn [repeated repeat app]; [symmetry; apply app_nil_r|reflexivity].
  - unfold pad at 1. rewrite L.
    destruct (Nat.leb_spec width (Nat.max (List.length s) width)); [reflexivity|lia].
Qed.

Lemma cells_length (monthly : option float) (showCaps : bool) (r : Row) :
  List.length (cells monthly showCaps r) = List.length (headers monthly showCaps).
Proof.
  unfold cells, headers. rewrite length_map, !length_app.
  destruct (truthyNumber monthly), showCaps; reflexivity.
Qed.

Lemma widen_length (ws : list nat) (cs : list text) : List.length (widen ws cs) = List.length ws.
Proof.
  revert cs. induction ws as [|w ws IH]; intros [|c cs]; cbn; auto.
Qed.

Lemma atLeast_refl (ws : list nat) : atLeast ws ws.
Proof. induction ws; constructor; auto. Qed.

Lemma atLeast_trans (a b c : list nat) : atLeast a b -> atLeast b c -> atLeast a c.
Proof.
  intros H. revert c. induction H as [|x y a b Hxy H IH]; intros c Hc; inversion Hc; subst.
  - constructor.
  - constructor; [lia|apply IH; assumption].
Qed.

Lemma widen_atLeast (ws : list nat) (cs : list text) : atLeast ws (widen ws cs).
Proof.
  revert cs. induction ws as [|w ws IH]; intros [|c cs]; cbn; try apply atLeast_refl.
  constructor; [lia|apply IH].
Qed.

Lemma widen_fits (ws : list nat) (cs : list text) :
  List.length cs = List.length ws -> fits cs (widen ws cs).
Proof.
  revert cs. induction ws as [|w ws IH]; intros [|c cs] H; try discriminate; cbn; constructor.
  - lia.
  - apply IH. cbn in H. lia.
Qed.

Lemma fits_atLeast (cs : list text) (ws ws' : list nat) :
  fits cs ws -> atLeast ws ws' -> fits cs ws'.
Proof.
  intros H. revert ws'. induction H as [|c w cs ws Hc H IH]; intros ws' A; inversion A; subst.
  - constructor.
  - constructor; [lia|apply IH; assumption].
Qed.

Lemma fold_widen (f : Row -> list text) (n : nat) (rows : list Row) : forall ws,
  (forall r, List.length (f r) = n) -> List.length ws = n ->
  let final := fold_left (fun widths r => widen widths (f r)) rows ws in
  List.length final = n /\ atLeast ws final /\ forall r, In r rows -> fits (f r) final.
Proof.
  induction rows as [|r rows IH]; intros ws Hf Hws; cbn [fold_left].
  - split; [exact Hws|]. split; [apply atLeast_refl|]. intros r [].
  - destruct (IH (widen ws (f r)) Hf) as (L & A & F); [rewrite widen_length; exact Hws|].
    split; [exact L|]. split; [eapply atLeast_trans; [apply widen_atLeast|exact A]|].
    intros r' [<-|Hr]; [|apply F; exact Hr].
    eapply fits_atLeast; [|exact A]. apply widen_fits. rewrite Hf, Hws. reflexivity.
Qed.

Lemma padded_lengths (align : nat -> Align) (cs : list text) : forall (ws : list nat) (i : nat),
  fits cs ws ->
  map (@List.length N) (padded align i cs ws) = map (fun w => w + 2)%nat ws.
Proof.
  induction cs as [|c cs IH]; intros ws i H; inversion H; subst; [reflexivity|].
  cbn [padded map]. f_equal; [|apply IH; assumption].
  rewrite !length_app, pad_length.
  cbn [units list_ascii_of_string map List.length]. lia.
Qed.

Lemma ruler_length (ws : list nat) :
  ws <> [] -> List.length (ruler ws) = (1 + list_sum (map (fun w => w + 3) ws))%nat.
Proof.
  intros H. unfold ruler. rewrite !length_app, join_length, map_map, length_map.
  cbn [units list_ascii_of_string map List.length].
  assert (E : forall l : list nat, l <> [] ->
            (list_sum (map (fun w => List.length (repeated "-" (w + 2))) l) + 1 * (List.length l - 1) + 1
             = list_sum (map (fun w => w + 3) l))%nat).
  { clear. induction l as [|w [|w' l] IH]; intros H; [contradiction| |].
    - cbn [map list_sum fold_right List.length]. rewrite repeated_length. lia.
    - specialize (IH ltac:(discriminate)). cbn [map list_sum fold_right List.length] in *.
      rewrite !repeated_length in *. lia. }
  specialize (E ws H). lia.
Qed.

Lemma tableRow_length (align : nat -> Align) (cs : list text) (ws : list nat) :
  ws <> [] -> fits cs ws ->
  List.length (tableRow align cs ws) = (1 + list_sum (map (fun w => w + 3) ws))%nat.
Proof.
  intros H F. unfold tableRow. rewrite !length_app, join_length, (padded_lengths _ _ _ _ F).
  assert (L : List.length (padded align 0 cs ws) = List.length ws).
  { rewrite <- (length_map (@List.length N)), (padded_lengths _ _ _ _ F), length_map. reflexivity. }
  rewrite L. cbn [units list_ascii_of_string map List.length].
  assert (E : forall l : list nat, l <> [] ->
            (list_sum (map (fun w => w + 2) l) + 1 * (List.length l - 1) + 1
             = list_sum (map (fun w => w + 3) l))%nat).
  { clear. induction l as [|w [|w' l] IH]; intros H; [contradiction|cbn; lia|].
    specialize (IH ltac:(discriminate)). cbn [map list_sum fold_right List.length] in *. lia. }
  specialize (E ws H). lia.
Qed.

(** X21. The table is rectangular: after the blank first line, the
    rulers, the header line and every row have the same length, one more
    than the sum of the column widths plus three each; every column is
    at least as wide as its header and as each of its cells; and there
    are five lines besides the rows. *)
Theorem printTable_rectangular (rows : list Row) (monthly : option float) (showCaps : bool) :
  let widths := columnWidths monthly showCaps rows in
  let width := (1 + list_sum (map (fun w => w + 3) widths))%nat in
  List.length (printTable rows monthly showCaps) = (List.length rows + 5)%nat /\
  hd [] (printTable rows monthly showCaps) = [] /\
  (forall line, In line (tl (printTable rows monthly showCaps)) -> List.length line = width) /\
  fits (headers monthly showCaps) widths /\
  (forall r, In r rows -> fits (cells monthly showCaps r) widths).
Proof.
  intros widths width.
  destruct (fold_widen (cells monthly showCaps) (List.length (headers monthly showCaps)) rows
              (map (@List.length N) (headers monthly showCaps)))
    as (L & A & F); [apply cells_length|apply length_map|].
  fold (columnWidths monthly showCaps rows) in L, A, F. fold widths in L, A, F.
  assert (Hh : fits (headers monthly showCaps) widths).
  { eapply fits_atLeast; [|exact A]. clear.
    induction (headers monthly showCaps); constructor; auto. }
  assert (Hne : widths <> []).
  { intros E. rewrite E in L. unfold headers in L. rewrite length_map, length_app in L.
    cbn in L. lia. }
  split; [|split; [reflexivity|split; [|split; [exact Hh|exact F]]]].
  - unfold printTable. cbn [List.length app]. rewrite length_app, length_map. cbn. lia.
  - unfold printTable. cbv zeta. fold widths. cbn [app tl].
    intros line [<-|[<-|[<-|H]]].
    + apply ruler_length; exact Hne.
    + apply tableRow_length; assumption.
    + apply ruler_length; exact Hne.
    + apply in_app_or in H. destruct H as [H|[<-|[]]].
      * apply in_map_iff in H. destruct H as (r & <- & Hr).
        apply tableRow_length; [exact Hne|apply F; exact Hr].
      * apply ruler_length; exact Hne.
Qed.

(** X22. The capability badge names exactly the capabilities the model
    has, each by its tag, and it is empty exactly when the model has
    none. *)
Theorem capsBadge_names (m : Model) :
  includes (capsBadge m) "vision" = vision m /\
  includes (capsBadge m) "audio" = audio m /\
  includes (capsBadge m) "video" = video m /\
  includes (capsBadge m) "img-out" = imageOut m /\
  includes (capsBadge m) "reasoning" = reasoning m /\
  includes (capsBadge m) "tools" = tools m /\
  includes (capsBadge m) "json" = structuredOutput m /\
  (capsBadge m = "" <->
   vision m || audio m || video m || imageOut m || reasoning m || tools m || structuredOutput m = false).
Proof.
  unfold capsBadge.
  destruct (vision m), (audio m), (video m), (imageOut m), (reasoning m), (tools m),
    (structuredOutput m); vm_compute; repeat split; congruence.
Qed.

(** *** The listing *)

Lemma pushGroup_keys (m : Model) (groups : list (string * list Model)) :
  forall p, In p (map fst (pushGroup m groups)) <-> p = provider m \/ In p (map fst groups).
Proof.
  induction groups as [|[q ms] rest IH]; intros p; cbn [pushGroup map fst In].
  - split; [intros [<-|[]]; auto|intros [->|[]]; auto].
  - destruct (String.eqb_spec q (provider m)) as [->|Hne]; cbn [map fst In].
    + split; [intros [<-|H]; auto|intros [->|[<-|H]]; auto].
    + rewrite IH. split; [intros [<-|[->|H]]; auto|intros [->|[<-|H]]; auto].
Qed.

Lemma pushGroup_NoDup (m : Model) (groups : list (string * list Model)) :
  NoDup (map fst groups) -> NoDup (map fst (pushGroup m groups)).
Proof.
  induction groups as [|[q ms] rest IH]; intros H; cbn [pushGroup map fst].
  - repeat constructor. intros [].
  - inversion H as [|? ? Hq Hr]; subst.
    destruct (String.eqb_spec q (provider m)) as [->|Hne]; cbn [map fst]; [exact H|].
    constructor; [|apply IH; exact Hr].
    rewrite pushGroup_keys. intros [E|E]; [apply Hne; exact E|apply Hq; exact E].
Qed.

Lemma pushGroup_sizes (m : Model) (groups : list (string * list Model)) :
  groupSizes (pushGroup m groups) = S (groupSizes groups).
Proof.
  induction groups as [|[q ms] rest IH]; cbn [pushGroup]; [reflexivity|].
  destruct (String.eqb q (provider m)).
  - unfold groupSizes. cbn [map list_sum fold_right snd]. rewrite length_app. cbn [List.length]. lia.
  - change (groupSizes ((q, ms) :: pushGroup m rest))
      with (List.length ms + groupSizes (pushGroup m rest))%nat.
    rewrite IH. change (groupSizes ((q, ms) :: rest)) with (List.length ms + groupSizes rest)%nat.
    lia.
Qed.

Lemma pushGroup_In (m : Model) (groups : list (string * list Model)) (p : string) (g : list Model) :
  NoDup (map fst groups) ->
  In (p, g) (pushGroup m groups) ->
  (p <> provider m /\ In (p, g) groups) \/
  (p = provider m /\ exists g0, In (p, g0) groups /\ g = g0 ++ [m]) \/
  (p = provider m /\ ~ In p (map fst groups) /\ g = [m]).
Proof.
  induction groups as [|[q ms] rest IH]; intros Hnd H; cbn [pushGroup] in H.
  - destruct H as [E|[]]. injection E as <- <-. right. right. repeat split. intros [].
  - inversion Hnd as [|? ? Hq Hr]; subst.
    destruct (String.eqb_spec q (provider m)) as [E|Hne].
    + destruct H as [H|H].
      * injection H as <- <-. right. left. split; [exact E|]. exists ms. split; [left|]; reflexivity.
      * left. split; [|right; exact H].
        intros ->. apply Hq. rewrite E. apply in_map_iff. exists (provider m, g). auto.
    + destruct H as [H|H].
      * injection H as <- <-. left. split; [exact Hne|left; reflexivity].
      * destruct (IH Hr H) as [[H1 H2]|[(H1 & g0 & H2 & H3)|(H1 & H2 & H3)]].
        -- left. split; [exact H1|right; exact H2].
        -- right. left. split; [exact H1|]. exists g0. split; [right; exact H2|exact H3].
        -- right. right. split; [exact H1|]. split; [|exact H3].
           cbn [map fst In]. intros [E|E]; [apply Hne; congruence|apply H2; exact E].
Qed.

Lemma pushGroup_filed (m : Model) (done : list Model) (groups : list (string * list Model)) :
  filed done groups -> filed (done ++ [m]) (pushGroup m groups).
Proof.
  intros (Hnd & Hg & Hall & Hsz). split; [apply pushGroup_NoDup; exact Hnd|]. split; [|split].
  - intros p g H. rewrite filter_app. cbn [filter]. unfold byName at 2.
    destruct (pushGroup_In m groups p g Hnd H) as [[H1 H2]|[(H1 & g0 & H2 & H3)|(H1 & H2 & H3)]].
    + destruct (Hg p g H2) as [N E]. split; [exact N|].
      destruct (String.eqb_spec (provider m) p) as [E'|_]; [congruence|].
      rewrite app_nil_r. exact E.
    + destruct (Hg p g0 H2) as [N E]. subst g. split; [destruct g0; discriminate|].
      rewrite H1, String.eqb_refl. f_equal. rewrite <- H1. exact E.
    + subst g. split; [discriminate|]. rewrite H1, String.eqb_refl.
      rewrite filter_none; [reflexivity|].
      intros x Hx. unfold byName. apply String.eqb_neq. intros E.
      apply H2. rewrite H1, <- E. apply Hall. exact Hx.
  - intros x Hx. apply pushGroup_keys. apply in_app_or in Hx.
    destruct Hx as [Hx|[<-|[]]]; [right; apply Hall; exact Hx|left; reflexivity].
  - rewrite pushGroup_sizes, Hsz, length_app. cbn [List.length]. lia.
Qed.

Lemma groupModels_filed (rest : list Model) : forall done groups,
  filed done groups ->
  (groupModels rest groups = None <->
   exists m, In m rest /\ In (provider m) objectPrototypeMembers) /\
  (forall gs, groupModels rest groups = Some gs -> filed (done ++ rest) gs).
Proof.
  induction rest as [|m rest IH]; intros done groups H; cbn [groupModels].
  - split; [split; [discriminate|intros (m & [] & _)]|].
    intros gs E. injection E as <-. rewrite app_nil_r. exact H.
  - destruct (includes_item objectPrototypeMembers (provider m)) eqn:E.
    + split; [|discriminate]. split; [intros _|reflexivity].
      exists m. split; [left; reflexivity|].
      unfold includes_item in E. apply existsb_exists in E. destruct E as (x & Hx & Ex).
      apply String.eqb_eq in Ex. subst x. exact Hx.
    + destruct (IH (done ++ [m]) (pushGroup m groups) (pushGroup_filed m done groups H)) as [I1 I2].
      split.
      * rewrite I1. split; [intros (x & Hx & Px); exists x; split; [right|]; assumption|].
        intros (x & [<-|Hx] & Px); [|exists x; split; assumption].
        exfalso. assert (T : includes_item objectPrototypeMembers (provider m) = true).
        { unfold includes_item. apply existsb_exists. exists (provider m).
          split; [exact Px|apply String.eqb_refl]. }
        congruence.
      * intros gs Hgs. specialize (I2 gs Hgs). rewrite <- app_assoc in I2. exact I2.
Qed.

Lemma insertIndexed_perm (g : N * (string * list Model)) (l : list (N * (string * list Model))) :
  Permutation (insertIndexed g l) (g :: l).
Proof.
  induction l as [|h t IH]; cbn [insertIndexed]; [reflexivity|].
  destruct (fst g <? fst h)%N; [reflexivity|].
  rewrite IH. apply perm_swap.
Qed.

Lemma entries_perm (groups : list (string * list Model)) : Permutation (entries groups) groups.
Proof.
  unfold entries.
  assert (S : forall l, Permutation (fold_right insertIndexed [] l) l).
  { induction l as [|a l IH]; cbn [fold_right]; [reflexivity|].
    rewrite insertIndexed_perm, IH. reflexivity. }
  rewrite (Permutation_map snd (S _)). clear S.
  induction groups as [|g rest IH]; cbn [flat_map filter map app]; [reflexivity|].
  destruct (arrayIndex (fst g)); cbn [app map snd].
  - constructor. exact IH.
  - rewrite <- Permutation_middle. constructor. exact IH.
Qed.

Lemma groupSizes_perm (a b : list (string * list Model)) :
  Permutation a b -> groupSizes a = groupSizes b.
Proof.
  intros H. induction H as [|x a b H IH|x y a|a b c H1 IH1 H2 IH2].
  - reflexivity.
  - change (List.length (snd x) + groupSizes a = List.length (snd x) + groupSizes b)%nat. lia.
  - change (List.length (snd y) + (List.length (snd x) + groupSizes a) =
            List.length (snd x) + (List.length (snd y) + groupSizes a))%nat. lia.
  - congruence.
Qed.

(** X23. The listing files every model under its provider: the groups
    have distinct providers, each group is not empty and holds exactly
    the models of its provider, in the order of the list, every model's
    provider has a group, and the sizes of the groups add up to the
    number of models.  The grouping throws exactly when some provider
    names a member of [Object.prototype]. *)
Theorem byProvider_groups (models : list Model) :
  (byProvider models = None <->
   exists m, In m models /\ In (provider m) objectPrototypeMembers) /\
  (forall groups, byProvider models = Some groups ->
     NoDup (map fst groups) /\
     (forall p g, In (p, g) groups ->
        g <> [] /\ g = filter (fun m => String.eqb (provider m) p) models) /\
     (forall m, In m models -> In (provider m) (map fst groups)) /\
     list_sum (map (fun g => List.length (snd g)) groups) = List.length models).
Proof.
  assert (F0 : filed [] []).
  { split; [constructor|]. split; [intros p g []|]. split; [intros m []|reflexivity]. }
  destruct (groupModels_filed models [] [] F0) as [I1 I2]. cbn [app] in I2.
  unfold byProvider. split.
  - rewrite <- I1. destruct (groupModels models []); cbn; split; congruence.
  - intros groups H. destruct (groupModels models []) as [gs|]; [|discriminate].
    cbn [option_map] in H. injection H as <-.
    destruct (I2 gs eq_refl) as (Hnd & Hg & Hall & Hsz).
    pose proof (entries_perm gs) as P.
    split; [|split; [|split]].
    + apply (Permutation_NoDup (l := map fst gs)); [|exact Hnd].
      apply Permutation_map. symmetry. exact P.
    + intros p g H. apply Hg. apply (Permutation_in _ P). exact H.
    + intros m Hm. apply (Permutation_in (l := map fst gs)); [|apply Hall; exact Hm].
      apply Permutation_map. symmetry. exact P.
    + change (groupSizes (entries gs) = List.length models).
      rewrite (groupSizes_perm _ _ P). exact Hsz.
Qed.

(** ** The exit code *)


Section Main.

Variable localeCompare : string -> string -> comparison.
Variable stringToNumber : string -> float.
Variable toLowerCase : string -> string.
Variable functionText : string -> string.
Variable engine : forall A : Type, (A -> A -> completion float) -> list A -> bool * list nat.
Variable exotic : Args.t -> string -> Outcome.

#[local] Abbreviation getModels := (getModels localeCompare stringToNumber functionText engine).
#[local] Abbreviation matchesProvider := (matchesProvider toLowerCase).
#[local] Abbreviation listModels := (listModels toLowerCase).
#[local] Abbreviation findDetail := (findDetail toLowerCase).
#[local] Abbreviation applyFilters := (applyFilters toLowerCase).
#[local] Abbreviation listed := (listed toLowerCase).
#[local] Abbreviation costComparison := (costComparison localeCompare toLowerCase engine).
#[local] Abbreviation mainWith := (mainWith localeCompare toLowerCase engine).
#[local] Abbreviation report := (report localeCompare toLowerCase engine exotic).
#[local] Abbreviation main := (main localeCompare stringToNumber toLowerCase functionText engine exotic).






End Main.



End LlmCost.
